(** * SQLocal: the command-dispatch protocol between the client facade
      and the execution processor

    A shallow embedding of [src/processor.ts] (class [SQLocalProcessor]) and
    [src/client.ts] (class [SQLocal]).  The SQLite build
    ([@sqlite.org/sqlite-wasm]) and [nanoid] are external collaborators and
    enter as parameters: an [Engine] record and a key supply.

    Conventions.
    - Mutable object state is threaded explicitly; a method is a function
      from the state to a [Completion]: normal return, a thrown JavaScript
      value, or [Exhausted] when the fuel that bounds the [while] loop of
      [flushQueue] runs out.
    - Every call into the engine and every invocation of [onmessage] is
      appended to a ghost [trace], so that the order of effects can be
      stated.
    - [async] functions: an exception that leaves [init] rejects a promise
      nobody awaits, hence the caller continues normally; the single
      suspension point of [init] ([await sqlite3InitModule()]) parks an
      [InitFrame] that [moduleLoaded] resumes. *)

From stdpp Require Import gmap strings list pretty.

Open Scope string_scope.
Open Scope list_scope.

(** ** JavaScript values and messages ([types.ts]) *)

#[warnings="-register-all"] Inductive JsVal :=
  | JsUndefined
  | JsNull
  | JsNum (z : Z)
  | JsStr (s : string)
  | JsArr (items : list JsVal).

(** [new Error(message)]; engine exceptions are values of the same shape. *)
Record JsError := Error { message : string }.

(** [rows[0]] on an array of rows: the first row, or [undefined]. *)
Definition js_first (rows : list (list JsVal)) : JsVal :=
  match rows with
  | [] => JsUndefined
  | row :: _ => JsArr row
  end.

Definition js_rows (rows : list (list JsVal)) : JsVal := JsArr (JsArr <$> rows).

(** Truthiness of an optional string ([undefined] and [''] are falsy). *)
Definition truthy (s : option string) : bool :=
  match s with
  | Some s => negb (String.eqb s "")
  | None => false
  end.

Definition QueryKey := string.

Inductive Storage := Opfs | LocalStorage | SessionStorage.

Record ProcessorConfig := {
  databasePath : option string;
  storage : option Storage;
  create : option bool;
  readonly : option bool;
  verbose : option bool;
}.

Definition emptyConfig : ProcessorConfig :=
  {| databasePath := None; storage := None; create := None;
     readonly := None; verbose := None |}.

(** ['run'], ['get'], ['all']; any other tag takes the [default:] branch. *)
Inductive Sqlite3Method := Run | Get | All | OtherMethod.

Record Statement := { sql : string; params : list JsVal }.

Inductive InputMessage :=
  | ConfigMessage (config : ProcessorConfig)
  | QueryMessage (queryKey : QueryKey) (statement : Statement) (method : Sqlite3Method)
  | TransactionMessage (queryKey : QueryKey) (statements : list Statement)
  | FunctionMessage (queryKey : QueryKey) (functionName : string)
  | DestroyMessage (queryKey : QueryKey).

Inductive OutputMessage :=
  | DataMessage (queryKey : QueryKey) (rows : JsVal) (columns : list string)
  | SuccessMessage (queryKey : QueryKey)
  | ErrorMessage (queryKey : option QueryKey) (error : JsError)
  | CallbackMessage (name : string) (args : list JsVal).

Definition isConfig (m : InputMessage) : bool :=
  match m with ConfigMessage _ => true | _ => false end.

Definition isDestroy (m : InputMessage) : bool :=
  match m with DestroyMessage _ => true | _ => false end.

(** ** Completions: a state monad with exceptions and fuel *)

Inductive Completion (S A : Type) :=
  | Normal (a : A) (s : S)
  | Thrown (e : JsError) (s : S)
  | Exhausted.
Arguments Normal {S A} a s.
Arguments Thrown {S A} e s.
Arguments Exhausted {S A}.

Definition Comp (S A : Type) := S -> Completion S A.

Definition ret {S A} (a : A) : Comp S A := fun s => Normal a s.
Definition throw {S A} (e : JsError) : Comp S A := fun s => Thrown e s.
Definition bind {S A B} (m : Comp S A) (k : A -> Comp S B) : Comp S B :=
  fun s =>
    match m s with
    | Normal a s' => k a s'
    | Thrown e s' => Thrown e s'
    | Exhausted => Exhausted
    end.
(** [try { body } catch (error) { handler error }] *)
Definition try_catch {S A} (body : Comp S A) (handler : JsError -> Comp S A) : Comp S A :=
  fun s =>
    match body s with
    | Thrown e s' => handler e s'
    | other => other
    end.
(** Calling an [async] function without awaiting it: a rejection is lost. *)
Definition detached {S} (m : Comp S unit) : Comp S unit :=
  try_catch m (fun _ => ret tt).
Definition modify {S} (f : S -> S) : Comp S unit := fun s => Normal tt (f s).
Definition gets {S A} (f : S -> A) : Comp S A := fun s => Normal (f s) s.

Declare Scope comp_scope.
Delimit Scope comp_scope with comp.
Notation "x <- m ;; k" := (bind m (fun x => k))
  (at level 100, m at next level, right associativity) : comp_scope.
Notation "m ;; k" := (bind m (fun _ => k))
  (at level 100, right associativity) : comp_scope.
Open Scope comp_scope.

(** [for (const x of xs) body(x)] *)
Fixpoint for_of {S A} (xs : list A) (body : A -> Comp S unit) : Comp S unit :=
  match xs with
  | [] => ret tt
  | x :: rest => body x ;; for_of rest body
  end.

(** ** The engine: the part of sqlite-wasm's object API the processor uses *)

(** The loaded module; [opfs] is ['opfs' in sqlite3]. *)
Record Sqlite3 := { opfs : bool }.

(** What one [db.exec] call does: the connection afterwards, the
    user-defined functions the statement invoked (name and arguments, in
    call order), and either an exception or the result rows (row mode
    array) with the column names. *)
Record Executed (Db : Type) := {
  exec_db : Db;
  exec_invoked : list (string * list JsVal);
  exec_result : JsError + (list (list JsVal) * list string);
}.
Arguments exec_db {Db} _.
Arguments exec_invoked {Db} _.
Arguments exec_result {Db} _.

Record Engine := {
  Db : Type;
  (** [sqlite3InitModule()] settled *)
  sqlite3InitModule : JsError + Sqlite3;
  (** [new sqlite3.oo1.OpfsDb(path, flags)] *)
  OpfsDb : string -> string -> JsError + Db;
  (** [new sqlite3.oo1.DB(path, flags)]; the path may be [undefined] *)
  DB : option string -> string -> JsError + Db;
  (** [new sqlite3.oo1.JsStorageDb(storage)] *)
  JsStorageDb : Storage -> JsError + Db;
  (** [db.exec({sql, bind, ...})] *)
  db_exec : Db -> string -> list JsVal -> Executed Db;
  (** the three statements [db.transaction] brackets its callback with *)
  db_begin : Db -> Db * option JsError;
  db_commit : Db -> Db * option JsError;
  db_rollback : Db -> Db * option JsError;
  (** [db.createFunction(name, fn, {arity: -1})] *)
  db_createFunction : Db -> string -> Db * option JsError;
}.

Inductive EngineCall :=
  | InitModule
  | NewOpfsDb (path flags : string)
  | NewDB (path : option string) (flags : string)
  | NewJsStorageDb (storage : Storage)
  | Exec (sql : string) (bind : list JsVal)
  | Begin
  | Commit
  | Rollback
  | CreateFunction (name : string)
  | Close.

Inductive Warning := OpfsUnavailable (path : string) | InMemory.

Inductive Event :=
  | Call (c : EngineCall)
  | Emitted (m : OutputMessage)
  | Warned (w : Warning).

Definition emittedOf (ev : Event) : option OutputMessage :=
  match ev with Emitted m => Some m | _ => None end.

(** The messages handed to [onmessage], in order. *)
Definition emissions (t : list Event) : list OutputMessage := omap emittedOf t.

Definition callOf (ev : Event) : option EngineCall :=
  match ev with Call c => Some c | _ => None end.

Definition engineCalls (t : list Event) : list EngineCall := omap callOf t.

(** ** [SQLocalProcessor] ([src/processor.ts]) *)

Module SQLocalProcessor.

(** The locals of [init] that are live across its [await]. *)
Record InitFrame := {
  frame_databasePath : option string;
  frame_storage : option Storage;
  frame_flags : string;
}.

(** [{type: 'callback', name, handler}]: the handler is the relay closure
    built in [createCallbackFunction], determined by the name. *)
Record UserFunction := { fn_name : string }.

(** A JavaScript [Map] with string keys: insertion order, one entry per key. *)
Definition map_has {V} (k : string) (m : list (string * V)) : bool :=
  existsb (fun kv => String.eqb k kv.1) m.

Fixpoint map_set {V} (k : string) (v : V) (m : list (string * V)) : list (string * V) :=
  match m with
  | [] => [(k, v)]
  | kv :: rest => if String.eqb k kv.1 then (k, v) :: rest else kv :: map_set k v rest
  end.

(** [this.config.databasePath || ['local', 'session'].includes(this.config.storage ?? '')] *)
Definition configValid (c : ProcessorConfig) : bool :=
  truthy (databasePath c)
  || match storage c with
     | Some LocalStorage | Some SessionStorage => true
     | _ => false
     end.

Definition flagsOf (c : ProcessorConfig) : string :=
  (match create c with None | Some true => "c" | Some false => "" end)
  +:+ (match readonly c with Some true => "r" | _ => "w" end)
  +:+ (match verbose c with Some true => "t" | _ => "" end).

Definition frameOf (c : ProcessorConfig) : InitFrame :=
  {| frame_databasePath := databasePath c;
     frame_storage := storage c;
     frame_flags := flagsOf c |}.

(** The double quote character. *)
Definition quote : string := String (Ascii.ascii_of_nat 34) "".

Definition functionExists (functionName : string) : JsError :=
  Error ("A user-defined function with the name " +:+ quote +:+ functionName +:+ quote
         +:+ " has already been created for this SQLocal instance.").

(** Calling a method of [this.db] while it is [undefined]. *)
Definition noConnection : JsError := Error "TypeError: this.db is undefined".

Section Processor.
Context {E : Engine} {H : Type}.
(** The listener installed on [onmessage]: it runs on the state [H] of
    whoever listens, and may throw. *)
Variable onmessage : option (OutputMessage -> H -> H * option JsError).

Record Processor := {
  sqlite3 : option Sqlite3;
  db : option (Db E);
  config : ProcessorConfig;
  queuedMessages : list InputMessage;
  userFunctions : list (string * UserFunction);
  (** ghost: the calls of [init] suspended at their [await] *)
  parked : list InitFrame;
  (** ghost: engine calls, emissions and warnings so far *)
  trace : list Event;
  (** the state of the listener *)
  host : H;
}.

Definition set_sqlite3 v p :=
  {| sqlite3 := v; db := db p; config := config p;
     queuedMessages := queuedMessages p; userFunctions := userFunctions p;
     parked := parked p; trace := trace p; host := host p |}.
Definition set_db v p :=
  {| sqlite3 := sqlite3 p; db := v; config := config p;
     queuedMessages := queuedMessages p; userFunctions := userFunctions p;
     parked := parked p; trace := trace p; host := host p |}.
Definition set_config v p :=
  {| sqlite3 := sqlite3 p; db := db p; config := v;
     queuedMessages := queuedMessages p; userFunctions := userFunctions p;
     parked := parked p; trace := trace p; host := host p |}.
Definition set_queuedMessages v p :=
  {| sqlite3 := sqlite3 p; db := db p; config := config p;
     queuedMessages := v; userFunctions := userFunctions p;
     parked := parked p; trace := trace p; host := host p |}.
Definition set_userFunctions v p :=
  {| sqlite3 := sqlite3 p; db := db p; config := config p;
     queuedMessages := queuedMessages p; userFunctions := v;
     parked := parked p; trace := trace p; host := host p |}.
Definition set_parked v p :=
  {| sqlite3 := sqlite3 p; db := db p; config := config p;
     queuedMessages := queuedMessages p; userFunctions := userFunctions p;
     parked := v; trace := trace p; host := host p |}.
Definition set_trace v p :=
  {| sqlite3 := sqlite3 p; db := db p; config := config p;
     queuedMessages := queuedMessages p; userFunctions := userFunctions p;
     parked := parked p; trace := v; host := host p |}.
Definition set_host v p :=
  {| sqlite3 := sqlite3 p; db := db p; config := config p;
     queuedMessages := queuedMessages p; userFunctions := userFunctions p;
     parked := parked p; trace := trace p; host := v |}.

(** [!this.db] *)
Definition noDb (p : Processor) : bool :=
  match db p with None => true | Some _ => false end.

Definition log (ev : Event) (p : Processor) : Processor :=
  set_trace (trace p ++ [ev]) p.

(** The state right after [new SQLocalProcessor()]: the constructor's
    [init()] returns at once because the empty config is not valid. *)
Definition newProcessor (h : H) : Processor :=
  {| sqlite3 := None; db := None; config := emptyConfig;
     queuedMessages := []; userFunctions := []; parked := [];
     trace := []; host := h |}.

Definition emitMessage (message : OutputMessage) : Comp Processor unit :=
  fun p =>
    match onmessage with
    | None => Normal tt p
    | Some listener =>
        let '(h, thrown) := listener message (host p) in
        let p' := set_host h (log (Emitted message) p) in
        match thrown with
        | None => Normal tt p'
        | Some e => Thrown e p'
        end
    end.

(** A call [this.db.f(...)] that mutates the connection and may throw. *)
Definition onDb (c : EngineCall) (f : Db E -> Db E * option JsError)
  : Comp Processor unit :=
  fun p =>
    match db p with
    | None => Thrown noConnection p
    | Some d =>
        let '(d', thrown) := f d in
        let p' := set_db (Some d') (log (Call c) p) in
        match thrown with
        | None => Normal tt p'
        | Some e => Thrown e p'
        end
    end.

(** [this.db?.close(); this.db = undefined] *)
Definition closeDb : Comp Processor unit :=
  fun p =>
    match db p with
    | None => Normal tt p
    | Some _ => Normal tt (set_db None (log (Call Close) p))
    end.

(** [db.exec(...)]: while the statement runs, each user function it
    invokes runs its relay handler, which emits a callback message. *)
Definition dbExec (s : Statement)
  : Comp Processor (list (list JsVal) * list string) :=
  fun p =>
    match db p with
    | None => Thrown noConnection p
    | Some d =>
        let r := db_exec E d (sql s) (params s) in
        (for_of (exec_invoked r)
                (fun call => emitMessage (CallbackMessage call.1 call.2)) ;;
         match exec_result r with
         | inl e => throw e
         | inr v => ret v
         end)
          (set_db (Some (exec_db r)) (log (Call (Exec (sql s) (params s))) p))
    end.

(** [db.transaction(callback)]: BEGIN, the callback, COMMIT; when the
    callback or COMMIT throws, ROLLBACK and rethrow. *)
Definition dbTransaction (callback : Comp Processor unit) : Comp Processor unit :=
  onDb Begin (db_begin E) ;;
  try_catch (callback ;; onDb Commit (db_commit E))
            (fun e => onDb Rollback (db_rollback E) ;; throw e).

(** The [switch (message.method)] of [exec]. *)
Definition shapeRows (method : Sqlite3Method) (rows : list (list JsVal)) : JsVal :=
  match method with
  | Run => JsArr []
  | Get => js_first rows
  | All | OtherMethod => js_rows rows
  end.

(** [exec]; its parameter type admits query and transaction messages only. *)
Definition exec (message : InputMessage) : Comp Processor unit :=
  fun p =>
    match db p with
    | None => Normal tt p
    | Some _ =>
        match message with
        | QueryMessage queryKey statement method =>
            try_catch
              (result <- dbExec statement ;;
               emitMessage (DataMessage queryKey (shapeRows method result.1) result.2))
              (fun error => emitMessage (ErrorMessage (Some queryKey) error)) p
        | TransactionMessage queryKey statements =>
            try_catch
              (dbTransaction
                 (for_of statements (fun statement => _ <- dbExec statement ;; ret tt)) ;;
               emitMessage (DataMessage queryKey (JsArr []) []))
              (fun error => emitMessage (ErrorMessage (Some queryKey) error)) p
        | _ => Normal tt p
        end
    end.

Definition initUserFunction (fn : UserFunction) : Comp Processor unit :=
  fun p =>
    match db p with
    | None => Normal tt p
    | Some _ =>
        onDb (CreateFunction (fn_name fn))
             (fun d => db_createFunction E d (fn_name fn)) p
    end.

Definition createCallbackFunction (queryKey : QueryKey) (functionName : string)
  : Comp Processor unit :=
  fun p =>
    if map_has functionName (userFunctions p)
    then emitMessage (ErrorMessage (Some queryKey) (functionExists functionName)) p
    else
      try_catch
        (let callbackFunction := {| fn_name := functionName |} in
         initUserFunction callbackFunction ;;
         modify (fun p => set_userFunctions
                            (map_set functionName callbackFunction (userFunctions p)) p) ;;
         emitMessage (SuccessMessage queryKey))
        (fun error => emitMessage (ErrorMessage (Some queryKey) error)) p.

Definition destroy (queryKey : QueryKey) : Comp Processor unit :=
  closeDb ;;
  emitMessage (SuccessMessage queryKey).

(** [this.db = new ...(...)]: the constructor may throw. *)
Definition construct (c : EngineCall) (made : JsError + Db E) : Comp Processor unit :=
  fun p =>
    match made with
    | inl e => Thrown e (log (Call c) p)
    | inr d => Normal tt (set_db (Some d) (log (Call c) p))
    end.

Definition warn (w : Warning) : Comp Processor unit := modify (log (Warned w)).

Definition isOpfsOrUnset (storage : option Storage) : bool :=
  match storage with None | Some Opfs => true | _ => false end.

(** Lines 50-69 of [init]: drop the old connection, open the new one. *)
Definition connect (module : Sqlite3) (fr : InitFrame) : Comp Processor unit :=
  closeDb ;;
  let flags := frame_flags fr in
  if isOpfsOrUnset (frame_storage fr) && truthy (frame_databasePath fr) then
    let databasePath := default "" (frame_databasePath fr) in
    if opfs module then
      construct (NewOpfsDb databasePath flags) (OpfsDb E databasePath flags)
    else
      construct (NewDB (Some databasePath) flags) (DB E (Some databasePath) flags) ;;
      warn (OpfsUnavailable databasePath)
  else
    match frame_storage fr with
    | Some (LocalStorage as scope) | Some (SessionStorage as scope) =>
        construct (NewJsStorageDb scope) (JsStorageDb E scope)
    | _ =>
        let databasePath := frame_databasePath fr in
        construct (NewDB databasePath flags) (DB E databasePath flags) ;;
        warn InMemory
    end.

(** Lines 46-69 of [init] when it resumes from [await sqlite3InitModule()]. *)
Definition loadAndConnect (fr : InitFrame) : Comp Processor unit :=
  match sqlite3InitModule E with
  | inl e => throw e
  | inr module =>
      modify (set_sqlite3 (Some module)) ;;
      connect module fr
  end.

Section Dispatch.
(** [this.flushQueue()], tied to [flushQueue] below. *)
Variable flush : Comp Processor unit.

(** The [try]/[catch] of [init] around [attempt], then lines 82-83. *)
Definition initFrom (attempt : Comp Processor unit) : Comp Processor unit :=
  connected <-
    try_catch
      (attempt ;; ret true)
      (fun error =>
         emitMessage (ErrorMessage None error) ;;
         closeDb ;;
         ret false) ;;
  if connected then
    fns <- gets userFunctions ;;
    for_of fns (fun entry => initUserFunction entry.2) ;;
    flush
  else ret tt.

(** [init] up to its [await]; with the module already loaded there is
    no suspension and the call runs to its end. *)
Definition init : Comp Processor unit :=
  fun p =>
    if negb (configValid (config p)) then Normal tt p
    else
      let fr := frameOf (config p) in
      match sqlite3 p with
      | Some module => initFrom (connect module fr) p
      | None => Normal tt (set_parked (parked p ++ [fr]) (log (Call InitModule) p))
      end.

(** [sqlite3InitModule()] has settled: the oldest parked [init]
    continues from its [await]; nobody awaits its promise. *)
Definition moduleLoaded : Comp Processor unit :=
  fun p =>
    match parked p with
    | [] => Normal tt p
    | fr :: rest => detached (initFrom (loadAndConnect fr)) (set_parked rest p)
    end.

Definition editConfig (c : ProcessorConfig) : Comp Processor unit :=
  modify (set_config c) ;;
  detached init.

Definition postMessage (message : InputMessage) : Comp Processor unit :=
  fun p =>
    if noDb p && negb (isConfig message)
    then Normal tt (set_queuedMessages (queuedMessages p ++ [message]) p)
    else
      match message with
      | ConfigMessage c => editConfig c p
      | QueryMessage _ _ _ | TransactionMessage _ _ => exec message p
      | FunctionMessage queryKey functionName =>
          createCallbackFunction queryKey functionName p
      | DestroyMessage queryKey => destroy queryKey p
      end.
End Dispatch.

Fixpoint flushQueue (fuel : nat) : Comp Processor unit :=
  fun p =>
    match fuel with
    | O => Exhausted
    | S fuel' =>
        match queuedMessages p with
        | [] => Normal tt p
        | message :: rest =>
            (postMessage (flushQueue fuel') message ;; flushQueue fuel')
              (set_queuedMessages rest p)
        end
    end.

(** One turn of the event loop: a message arrives. *)
Definition receive (fuel : nat) (message : InputMessage) : Comp Processor unit :=
  postMessage (flushQueue fuel) message.

(** One turn of the event loop: the module promise settles. *)
Definition resume (fuel : nat) : Comp Processor unit :=
  moduleLoaded (flushQueue fuel).
End Processor.

Arguments Processor E H : clear implicits.
Arguments newProcessor E {H} h.
End SQLocalProcessor.

(** ** A small engine to run the protocol on

    A connection remembers the statements applied to it and the functions
    attached to it.  ["SELECT"] returns one row per remembered statement,
    ["CALL"] invokes the attached function ["notify"], a statement that
    starts with ["INSERT INT "] is a syntax error, anything else is
    remembered.  BEGIN takes a snapshot that ROLLBACK restores. *)
Module Toy.
Record Conn := {
  applied : list string;
  snapshot : option (list string);
  attached : list string;
}.

Definition fresh : Conn := {| applied := []; snapshot := None; attached := [] |}.

Definition syntaxError : JsError := Error "SQLITE_ERROR: syntax error".

Definition exec (d : Conn) (sql : string) (bind : list JsVal) : Executed Conn :=
  if String.eqb sql "SELECT" then
    {| exec_db := d; exec_invoked := [];
       exec_result := inr ((fun s => [JsStr s]) <$> applied d, ["name"]) |}
  else if String.eqb sql "CALL" then
    {| exec_db := d;
       exec_invoked := if existsb (String.eqb "notify") (attached d)
                       then [("notify", bind)] else [];
       exec_result := inr ([], []) |}
  else if String.prefix "INSERT INT " sql then
    {| exec_db := d; exec_invoked := []; exec_result := inl syntaxError |}
  else
    {| exec_db := {| applied := applied d ++ [sql]; snapshot := snapshot d;
                     attached := attached d |};
       exec_invoked := []; exec_result := inr ([], []) |}.

Definition begin (d : Conn) : Conn * option JsError :=
  ({| applied := applied d; snapshot := Some (applied d); attached := attached d |}, None).

Definition commit (d : Conn) : Conn * option JsError :=
  ({| applied := applied d; snapshot := None; attached := attached d |}, None).

Definition rollback (d : Conn) : Conn * option JsError :=
  ({| applied := default (applied d) (snapshot d); snapshot := None;
      attached := attached d |}, None).

Definition createFunction (d : Conn) (name : string) : Conn * option JsError :=
  ({| applied := applied d; snapshot := snapshot d; attached := attached d ++ [name] |},
   None).

Definition open (path : option string) : JsError + Conn :=
  if bool_decide (path = Some "/locked") then inl (Error "SQLITE_CANTOPEN") else inr fresh.

(** The engine; [module] is how loading the WebAssembly module ends. *)
Definition engine (module : JsError + Sqlite3) : Engine :=
  {| Db := Conn;
     sqlite3InitModule := module;
     OpfsDb := fun path _ => open (Some path);
     DB := fun path _ => open path;
     JsStorageDb := fun _ => inr fresh;
     db_exec := exec;
     db_begin := begin;
     db_commit := commit;
     db_rollback := rollback;
     db_createFunction := createFunction |}.

Definition sqlite : Engine := engine (inr {| opfs := true |}).
End Toy.

(** ** [SQLocal] ([src/client.ts]) *)

Module SQLocal.
Import SQLocalProcessor.

(** [OmitQueryKey<QueryMessage | TransactionMessage | DestroyMessage |
    FunctionMessage>] *)
Inductive Request :=
  | QueryRequest (statement : Statement) (method : Sqlite3Method)
  | TransactionRequest (statements : list Statement)
  | DestroyRequest
  | FunctionRequest (functionName : string).

(** [{...message, queryKey}] *)
Definition withKey (message : Request) (queryKey : QueryKey) : InputMessage :=
  match message with
  | QueryRequest statement method => QueryMessage queryKey statement method
  | TransactionRequest statements => TransactionMessage queryKey statements
  | DestroyRequest => DestroyMessage queryKey
  | FunctionRequest functionName => FunctionMessage queryKey functionName
  end.

(** The promise [createQuery] returns on its n-th successful call is
    promise [n]; [resolve]/[reject] append to the ghost list [settled]. *)
Definition Promise := nat.

Inductive Settlement :=
  | Resolved (message : OutputMessage)
  | Rejected (error : JsError).

(** A caller-supplied callback, known by a tag; calling it is recorded. *)
Definition Handler := nat.

Record Client := {
  client_databasePath : option string;
  isDestroyed : bool;
  userCallbacks : gmap string Handler;
  queriesInProgress : gmap QueryKey Promise;
  (** ghost: how many keys [nanoid()] has handed out *)
  drawn : nat;
  (** ghost: the settlements of the promises, in order *)
  settled : list (Promise * Settlement);
  (** ghost: the calls made to user callbacks, in order *)
  invoked : list (Handler * list JsVal);
}.

Definition set_isDestroyed v c :=
  {| client_databasePath := client_databasePath c; isDestroyed := v;
     userCallbacks := userCallbacks c; queriesInProgress := queriesInProgress c;
     drawn := drawn c; settled := settled c; invoked := invoked c |}.
Definition set_userCallbacks v c :=
  {| client_databasePath := client_databasePath c; isDestroyed := isDestroyed c;
     userCallbacks := v; queriesInProgress := queriesInProgress c;
     drawn := drawn c; settled := settled c; invoked := invoked c |}.
Definition set_queriesInProgress v c :=
  {| client_databasePath := client_databasePath c; isDestroyed := isDestroyed c;
     userCallbacks := userCallbacks c; queriesInProgress := v;
     drawn := drawn c; settled := settled c; invoked := invoked c |}.
Definition set_drawn v c :=
  {| client_databasePath := client_databasePath c; isDestroyed := isDestroyed c;
     userCallbacks := userCallbacks c; queriesInProgress := queriesInProgress c;
     drawn := v; settled := settled c; invoked := invoked c |}.
Definition set_settled v c :=
  {| client_databasePath := client_databasePath c; isDestroyed := isDestroyed c;
     userCallbacks := userCallbacks c; queriesInProgress := queriesInProgress c;
     drawn := drawn c; settled := v; invoked := invoked c |}.
Definition set_invoked v c :=
  {| client_databasePath := client_databasePath c; isDestroyed := isDestroyed c;
     userCallbacks := userCallbacks c; queriesInProgress := queriesInProgress c;
     drawn := drawn c; settled := settled c; invoked := v |}.

Definition newClient (path : option string) : Client :=
  {| client_databasePath := path; isDestroyed := false; userCallbacks := ∅;
     queriesInProgress := ∅; drawn := 0; settled := []; invoked := [] |}.

Definition clientDestroyed : JsError :=
  Error ("This SQLocal client has been destroyed. You will need to initialize "
         +:+ "a new client in order to make further queries.").

(** [message.queryKey] of a success, data or error message. *)
Definition responseKey (message : OutputMessage) : option QueryKey :=
  match message with
  | DataMessage queryKey _ _ | SuccessMessage queryKey => Some queryKey
  | ErrorMessage queryKey _ => queryKey
  | CallbackMessage _ _ => None
  end.

(** [message.queryKey && queries.has(message.queryKey)], with the entry. *)
Definition pendingFor (message : OutputMessage) (c : Client)
  : option (QueryKey * Promise) :=
  if truthy (responseKey message) then
    queryKey ← responseKey message;
    promise ← queriesInProgress c !! queryKey;
    Some (queryKey, promise)
  else None.

(** The result pairs the state with the value thrown, if any. *)
Definition processMessageEvent (message : OutputMessage) (c : Client)
  : Client * option JsError :=
  match message with
  | CallbackMessage name args =>
      match userCallbacks c !! name with
      | Some userCallback => (set_invoked (invoked c ++ [(userCallback, args)]) c, None)
      | None => (c, None)
      end
  | _ =>
      match pendingFor message c with
      | Some (queryKey, promise) =>
          let outcome :=
            match message with
            | ErrorMessage _ error => Rejected error
            | _ => Resolved message
            end in
          (set_queriesInProgress (delete queryKey (queriesInProgress c))
             (set_settled (settled c ++ [(promise, outcome)]) c),
           None)
      | None =>
          match message with
          | ErrorMessage _ error => (c, Some error)
          | _ => (c, None)
          end
      end
  end.

(** [new Worker(...)] as the client sees it: what was posted to it,
    whether the client still listens, whether it was terminated. *)
Record Worker := {
  posted : list InputMessage;
  listening : bool;
  terminated : bool;
}.

Definition convertSqlTemplate (queryTemplate : list string) (params : list JsVal)
  : Statement :=
  {| sql := String.concat "?" queryTemplate; params := params |}.

(** The value [exec] returns. *)
Record Data := { rows : JsVal; columns : list string }.

Section Facade.
Context (E : Engine).
(** [nanoid()]: the key handed out by its n-th call. *)
Variable nanoid : nat -> QueryKey.
(** Bounds the loop of [flushQueue] when the processor runs in-process. *)
Variable fuel : nat.

(** The client together with its [processor] field.  With an
    in-process [SQLocalProcessor] the processor's listener is the
    client's own [processMessageEvent], so the client state is the
    processor's [host]. *)
Inductive State :=
  | OverWorker (c : Client) (w : Worker)
  | InProcess (p : Processor E Client).

Definition client (s : State) : Client :=
  match s with
  | OverWorker c _ => c
  | InProcess p => host p
  end.

Definition update (f : Client -> Client) (s : State) : State :=
  match s with
  | OverWorker c w => OverWorker (f c) w
  | InProcess p => InProcess (set_host (f (host p)) p)
  end.

(** [this.processor.onmessage = (message) => this.processMessageEvent(message)] *)
Definition listener : option (OutputMessage -> Client -> Client * option JsError) :=
  Some processMessageEvent.

(** [this.processor.postMessage(message)] *)
Definition post (message : InputMessage) : Comp State unit :=
  fun s =>
    match s with
    | OverWorker c w =>
        Normal tt
          (OverWorker c {| posted := posted w ++ [message];
                           listening := listening w;
                           terminated := terminated w |})
    | InProcess p =>
        match receive listener fuel message p with
        | Normal _ p' => Normal tt (InProcess p')
        | Thrown e p' => Thrown e (InProcess p')
        | Exhausted => Exhausted
        end
    end.

Definition usesProcessor (config : string + ProcessorConfig) : bool :=
  match config with
  | inl _ => false
  | inr c =>
      match storage c with
      | Some LocalStorage | Some SessionStorage => true
      | _ => false
      end
  end.

Definition configOf (config : string + ProcessorConfig) : ProcessorConfig :=
  match config with
  | inl path =>
      {| databasePath := Some path; storage := None;
         create := None; readonly := None; verbose := None |}
  | inr c => c
  end.

(** [new SQLocal(config)] *)
Definition constructor (config : string + ProcessorConfig) : Completion State unit :=
  let c := newClient (databasePath (configOf config)) in
  post (ConfigMessage (configOf config))
       (if usesProcessor config
        then InProcess (newProcessor E c)
        else OverWorker c {| posted := []; listening := true; terminated := false |}).

(** The worker posted [message] back: the listener runs, unless it was
    removed. An exception leaves the listener uncaught. *)
Definition deliver (message : OutputMessage) : Comp State unit :=
  fun s =>
    match s with
    | OverWorker c w =>
        if listening w then
          let '(c', thrown) := processMessageEvent message c in
          match thrown with
          | None => Normal tt (OverWorker c' w)
          | Some e => Thrown e (OverWorker c' w)
          end
        else Normal tt s
    | InProcess _ => Normal tt s
    end.

(** The module promise of an in-process processor settles. *)
Definition moduleSettles : Comp State unit :=
  fun s =>
    match s with
    | OverWorker _ _ => Normal tt s
    | InProcess p =>
        match resume listener fuel p with
        | Normal _ p' => Normal tt (InProcess p')
        | Thrown e p' => Thrown e (InProcess p')
        | Exhausted => Exhausted
        end
    end.

Definition createQuery (message : Request) : Comp State Promise :=
  fun s =>
    if isDestroyed (client s) then Thrown clientDestroyed s
    else
      let promise := drawn (client s) in
      let queryKey := nanoid promise in
      (modify (update (set_drawn (S promise))) ;;
       post (withKey message queryKey) ;;
       modify (update (fun c => set_queriesInProgress
                                  (<[queryKey := promise]> (queriesInProgress c)) c)) ;;
       ret promise) s.

(** [exec] up to its [await] ... *)
Definition exec (sql : string) (params : list JsVal) (method : Sqlite3Method)
  : Comp State Promise :=
  createQuery (QueryRequest {| sql := sql; params := params |} method).

(** ... and from the [await] on, once [createQuery] resolved with [message]. *)
Definition exec_then (message : OutputMessage) : Data :=
  match message with
  | DataMessage _ rows columns => {| rows := rows; columns := columns |}
  | _ => {| rows := JsArr []; columns := [] |}
  end.

(** [sql] up to the [await] inside [exec]. *)
Definition sql (queryTemplate : list string) (values : list JsVal)
  : Comp State Promise :=
  let statement := convertSqlTemplate queryTemplate values in
  exec (sql statement) (params statement) All.

(** [transaction] up to its [await]; [statements] is what the caller's
    builder returned. *)
Definition transaction (statements : list Statement) : Comp State Promise :=
  createQuery (TransactionRequest statements).

Definition createCallbackFunction (functionName : string) : Comp State Promise :=
  createQuery (FunctionRequest functionName).

Definition createCallbackFunction_then (functionName : string) (handler : Handler)
  : Comp State unit :=
  modify (update (fun c => set_userCallbacks
                             (<[functionName := handler]> (userCallbacks c)) c)).

Definition destroy : Comp State Promise :=
  createQuery DestroyRequest.

Definition destroy_then : Comp State unit :=
  modify (fun s =>
            match s with
            | OverWorker c w =>
                OverWorker c {| posted := posted w; listening := false;
                                terminated := true |}
            | InProcess _ => s
            end) ;;
  modify (update (set_queriesInProgress ∅)) ;;
  modify (update (set_userCallbacks ∅)) ;;
  modify (update (set_isDestroyed true)).
End Facade.

(** *** [convertRowsToObjects] and the tail of [sql] *)

(** What an object made by [{}] can have as its prototype once values
    were assigned to its properties: [Object.prototype] as at its
    creation, an array it was given, or nothing. *)
Inductive Prototype :=
  | ObjectPrototype
  | ArrayPrototype (items : list JsVal)
  | NullPrototype.

(** A JavaScript object used as a record: its own properties, name to
    value, and its prototype. *)
Record JsObject := {
  fields : gmap string JsVal;
  prototype : Prototype;
}.

(** [{}] *)
Definition emptyObject : JsObject := {| fields := ∅; prototype := ObjectPrototype |}.

Definition notIndexable : JsError :=
  Error "TypeError: Cannot read properties of undefined".

Definition notAnArray : JsError := Error "TypeError: rows.map is not a function".

(** [row[columnIndex]]: an element of an array, a character of a
    string, [undefined] past the end or on a number, a [TypeError] on
    [undefined] and [null]. *)
Definition js_get (row : JsVal) (columnIndex : nat) : JsError + JsVal :=
  match row with
  | JsArr items => inr (default JsUndefined (items !! columnIndex))
  | JsStr text =>
      inr (match String.get columnIndex text with
           | Some ch => JsStr (String ch "")
           | None => JsUndefined
           end)
  | JsNum _ => inr JsUndefined
  | JsUndefined | JsNull => inl notIndexable
  end.

(** [rowObj[column] = value] on an object that began as [{}], with the
    built-in objects as the language defines them. Every name but
    ["__proto__"] becomes or stays an own property: whatever the
    prototype chain holds under the name is a writable data property.
    ["__proto__"] is the accessor of [Object.prototype]; while the object
    inherits it, its setter runs instead: [null] and an array replace the
    prototype, any other value is ignored. Once the prototype is [null]
    the accessor is out of reach and ["__proto__"] is a name like any
    other. *)
Definition js_set (column : string) (value : JsVal) (rowObj : JsObject) : JsObject :=
  let assigned :=
    {| fields := <[column := value]> (fields rowObj); prototype := prototype rowObj |} in
  if String.eqb column "__proto__" then
    match prototype rowObj with
    | NullPrototype => assigned
    | ObjectPrototype | ArrayPrototype _ =>
        match value with
        | JsNull => {| fields := fields rowObj; prototype := NullPrototype |}
        | JsArr items => {| fields := fields rowObj; prototype := ArrayPrototype items |}
        | JsUndefined | JsNum _ | JsStr _ => rowObj
        end
    end
  else assigned.

(** [columns.forEach((column, columnIndex) => rowObj[column] = row[columnIndex])],
    from the column with index [columnIndex] on. *)
Fixpoint fillRow (row : JsVal) (columns : list string) (columnIndex : nat)
    (rowObj : JsObject) : JsError + JsObject :=
  match columns with
  | [] => inr rowObj
  | column :: rest =>
      match js_get row columnIndex with
      | inl e => inl e
      | inr value => fillRow row rest (S columnIndex) (js_set column value rowObj)
      end
  end.

(** [rows.map((row) => ...)] *)
Fixpoint convertRowsToObjects (rows : list JsVal) (columns : list string)
  : JsError + list JsObject :=
  match rows with
  | [] => inr []
  | row :: rest =>
      match fillRow row columns 0 emptyObject with
      | inl e => inl e
      | inr rowObj =>
          match convertRowsToObjects rest columns with
          | inl e => inl e
          | inr objects => inr (rowObj :: objects)
          end
      end
  end.

(** [sql] from the [await] on: [exec] returned the data of [message],
    whose rows are whatever the message carried. *)
Definition sql_then (message : OutputMessage) : JsError + list JsObject :=
  let data := exec_then message in
  match rows data with
  | JsArr items => convertRowsToObjects items (columns data)
  | JsUndefined | JsNull => inl notIndexable
  | _ => inl notAnArray
  end.

(** *** [getDatabaseFile] and [overwriteDatabaseFile] *)

Definition noFileToRetrieve : JsError :=
  Error ("This database is stored in localStorage or sessionStorage, "
         +:+ "so there is no file to retrieve.").

Definition noFileToOverwrite : JsError :=
  Error ("This database is stored in localStorage or sessionStorage, "
         +:+ "so it cannot be overwritten with a file.").

Section Files.
(** The origin private file system as the two methods use it: reading
    the file of a name ([getDirectory], [getFileHandle], [getFile]) and
    replacing its content ([getFileHandle] with [create], [createWritable],
    [truncate], [write], [close]). *)
Context {File Chunk : Type}.
Variable readFile : string -> JsError + File.
Variable replaceFile : string -> Chunk -> option JsError.

Definition getDatabaseFile (c : Client) : JsError + File :=
  match client_databasePath c with
  | None => inl noFileToRetrieve
  | Some path => readFile path
  end.

Definition overwriteDatabaseFile (databaseFile : Chunk) (c : Client) : option JsError :=
  match client_databasePath c with
  | None => Some noFileToOverwrite
  | Some path => replaceFile path databaseFile
  end.
End Files.
End SQLocal.

(** ** Vocabulary of the statements below *)

Import SQLocalProcessor.

(** A listener that is installed and never throws into the processor, as
    the one of a worker, which only forwards the message. *)
Definition forwarding {H} (step : OutputMessage -> H -> H)
  : option (OutputMessage -> H -> H * option JsError) :=
  Some (fun m h => (step m h, None)).

(** The callback message the relay handler of a user function emits. *)
Definition relayed (call : string * list JsVal) : Event :=
  Emitted (CallbackMessage call.1 call.2).

(** What one [db.exec] leaves in the trace. *)
Definition executing {E : Engine} (d : Db E) (s : Statement) : list Event :=
  Call (Exec (sql s) (params s))
  :: (relayed <$> exec_invoked (db_exec E d (sql s) (params s))).

(** [Batch d statements d' events failure]: the statements are executed
    one after the other, in the order of the list, starting on connection
    [d]; execution stops at the first statement that throws. *)
Inductive Batch {E : Engine} : Db E -> list Statement -> Db E -> list Event -> option JsError -> Prop :=
  | Batch_done d :
      Batch d [] d [] None
  | Batch_next d s rest d' events failure v :
      exec_result (db_exec E d (sql s) (params s)) = inr v ->
      Batch (exec_db (db_exec E d (sql s) (params s))) rest d' events failure ->
      Batch d (s :: rest) d' (executing d s ++ events) failure
  | Batch_throw d s rest e :
      exec_result (db_exec E d (sql s) (params s)) = inl e ->
      Batch d (s :: rest) (exec_db (db_exec E d (sql s) (params s))) (executing d s) (Some e).

(** [Atomic d statements events failure]: one use of the engine's
    transaction primitive around the batch. [failure] is what the
    primitive throws, if it throws. *)
Inductive Atomic {E : Engine} (d : Db E) (statements : list Statement)
  : list Event -> option JsError -> Prop :=
  | Atomic_not_begun d0 e :
      db_begin E d = (d0, Some e) ->
      Atomic d statements [Call Begin] (Some e)
  | Atomic_committed d0 d1 d2 events :
      db_begin E d = (d0, None) ->
      Batch d0 statements d1 events None ->
      db_commit E d1 = (d2, None) ->
      Atomic d statements (Call Begin :: events ++ [Call Commit]) None
  | Atomic_commit_throws d0 d1 d2 d3 events e undone :
      db_begin E d = (d0, None) ->
      Batch d0 statements d1 events None ->
      db_commit E d1 = (d2, Some e) ->
      db_rollback E d2 = (d3, undone) ->
      Atomic d statements (Call Begin :: events ++ [Call Commit; Call Rollback])
             (Some (default e undone))
  | Atomic_rolled_back d0 d1 d2 events e undone :
      db_begin E d = (d0, None) ->
      Batch d0 statements d1 events (Some e) ->
      db_rollback E d1 = (d2, undone) ->
      Atomic d statements (Call Begin :: events ++ [Call Rollback])
             (Some (default e undone)).

(** The single response to a transaction. *)
Definition transactionResponse (queryKey : QueryKey) (failure : option JsError)
  : OutputMessage :=
  match failure with
  | None => DataMessage queryKey (JsArr []) []
  | Some e => ErrorMessage (Some queryKey) e
  end.

(** The responses among the events: every emitted message that is not a
    callback notification. *)
Definition responseOf (ev : Event) : option OutputMessage :=
  match ev with
  | Emitted (CallbackMessage _ _) => None
  | Emitted m => Some m
  | _ => None
  end.

Definition responses (t : list Event) : list OutputMessage := omap responseOf t.

(** [message.queryKey] of an input message; config messages have none. *)
Definition requestKey (m : InputMessage) : option QueryKey :=
  match m with
  | ConfigMessage _ => None
  | QueryMessage queryKey _ _ | TransactionMessage queryKey _
  | FunctionMessage queryKey _ | DestroyMessage queryKey => Some queryKey
  end.

(** The fields that only [postMessage], [editConfig], [init] and
    [createCallbackFunction] write. *)
Definition settings {E : Engine} {H : Type} (p : Processor E H) :=
  (sqlite3 p, config p, queuedMessages p, userFunctions p, parked p).

(** A computation that leaves the [settings] alone, however it ends. *)
Definition Steady {E : Engine} {H A : Type} (m : Comp (Processor E H) A) : Prop :=
  forall p,
    match m p with
    | Normal _ p' | Thrown _ p' => settings p' = settings p
    | Exhausted => True
    end.

(** [db.createFunction] for each function in turn, unless one throws. *)
Fixpoint attachAll {E : Engine} (d : Db E) (fns : list UserFunction) : option (Db E) :=
  match fns with
  | [] => Some d
  | fn :: rest =>
      match db_createFunction E d (fn_name fn) with
      | (d', None) => attachAll d' rest
      | (_, Some _) => None
      end
  end.

Definition attaching (fns : list UserFunction) : list Event :=
  (fun fn => Call (CreateFunction (fn_name fn))) <$> fns.

(** Connection setup fails in the turn [turn] taken from [p]: the [try]
    block of [init] throws [e] and leaves the processor as [p1].  Either
    a config message arrives while the module is loaded, or the module
    promise settles for a parked [init]. *)
Inductive SetupFails {E : Engine} {H : Type}
    (onmessage : option (OutputMessage -> H -> H * option JsError)) (fuel : nat)
    (p : Processor E H)
  : Comp (Processor E H) unit -> JsError -> Processor E H -> Prop :=
  | fails_on_config c module e p1 :
      sqlite3 p = Some module ->
      configValid c = true ->
      connect module (frameOf c) (set_config c p) = Thrown e p1 ->
      SetupFails onmessage fuel p (receive onmessage fuel (ConfigMessage c)) e p1
  | fails_on_resume fr rest e p1 :
      parked p = fr :: rest ->
      loadAndConnect fr (set_parked rest p) = Thrown e p1 ->
      SetupFails onmessage fuel p (resume onmessage fuel) e p1.

(** ** Concrete runs on the small engine *)

Definition stateOf {S A} (fallback : S) (c : Completion S A) : S :=
  match c with
  | Normal _ s | Thrown _ s => s
  | Exhausted => fallback
  end.

(** The listener of a worker-side processor, with nothing to remember. *)
Definition worker : option (OutputMessage -> unit -> unit * option JsError) :=
  forwarding (fun _ _ => tt).

Definition fileConfig : ProcessorConfig :=
  {| databasePath := Some "database.sqlite3"; storage := None;
     create := None; readonly := None; verbose := None |}.

Definition localConfig : ProcessorConfig :=
  {| databasePath := None; storage := Some LocalStorage;
     create := None; readonly := None; verbose := None |}.

Definition select (queryKey : QueryKey) (method : Sqlite3Method) : InputMessage :=
  QueryMessage queryKey {| sql := "SELECT"; params := [] |} method.

Definition insertApples : Statement :=
  {| sql := "INSERT INTO groceries (name) VALUES ('apples')"; params := [] |}.

Definition insertCarrots : Statement :=
  {| sql := "INSERT INTO groceries (name) VALUES ('carrots')"; params := [] |}.

(** The misspelt statement of [test/transaction.test.ts]. *)
Definition insertLettuce : Statement :=
  {| sql := "INSERT INT groceries (name) VALUES ('lettuce')"; params := [] |}.

(** A worker-side processor after its config message and the module load. *)
Definition readyProcessor : Processor Toy.sqlite unit :=
  stateOf (newProcessor Toy.sqlite tt)
    ((receive worker 1 (ConfigMessage fileConfig) ;; resume worker 1)
       (newProcessor Toy.sqlite tt)).

(** The same processor with the function ["notify"] registered. *)
Definition notifyingProcessor : Processor Toy.sqlite unit :=
  stateOf readyProcessor (receive worker 1 (FunctionMessage "k0" "notify") readyProcessor).

(** A key supply for the runs: ["q0"], ["q1"], ... *)
Definition keys (n : nat) : QueryKey := "q" +:+ pretty n.

(** [new SQLocal({storage: 'local'})] once the module has loaded: the
    client with its in-process processor, connected. *)
Definition localClient (fuel : nat) : SQLocal.State Toy.sqlite :=
  stateOf (SQLocal.InProcess Toy.sqlite (newProcessor Toy.sqlite (SQLocal.newClient None)))
    (match SQLocal.constructor Toy.sqlite fuel (inr localConfig) with
     | Normal _ s => SQLocal.moduleSettles Toy.sqlite fuel s
     | other => other
     end).

(** How [processMessageEvent] settles the promise of a response. *)
Definition settlementOf (message : OutputMessage) : SQLocal.Settlement :=
  match message with
  | ErrorMessage _ error => SQLocal.Rejected error
  | _ => SQLocal.Resolved message
  end.

(** What a client does after [destroy()] has completed: it calls the
    public API, or a message reaches [processMessageEvent]. *)
Inductive Afterwards :=
  | CallsSql (queryTemplate : list string) (values : list JsVal)
  | CallsExec (text : string) (values : list JsVal) (method : Sqlite3Method)
  | CallsTransaction (statements : list Statement)
  | CallsCreateCallbackFunction (functionName : string)
  | CallsDestroy
  | Receives (message : OutputMessage).

(** One such step; an exception ends the step, not the client. *)
Definition afterwards (E : Engine) (nanoid : nat -> QueryKey) (fuel : nat)
    (step : Afterwards) (s : SQLocal.State E) : SQLocal.State E :=
  match step with
  | CallsSql queryTemplate values =>
      stateOf s (SQLocal.sql E nanoid fuel queryTemplate values s)
  | CallsExec text values method =>
      stateOf s (SQLocal.exec E nanoid fuel text values method s)
  | CallsTransaction statements =>
      stateOf s (SQLocal.transaction E nanoid fuel statements s)
  | CallsCreateCallbackFunction functionName =>
      stateOf s (SQLocal.createCallbackFunction E nanoid fuel functionName s)
  | CallsDestroy =>
      stateOf s (SQLocal.destroy E nanoid fuel s)
  | Receives message =>
      SQLocal.update E (fun c => (SQLocal.processMessageEvent message c).1) s
  end.


(** ** Invariants of the processor and of the client *)

(** What every processor satisfies: the registry holds one entry per
    name, filed under the function's own name; no config message waits in
    the buffer; a connection exists only once the module is loaded. *)
Definition WellFormed {E : Engine} {H : Type} (p : Processor E H) : Prop :=
  NoDup (userFunctions p).*1
  /\ Forall (fun entry => fn_name entry.2 = entry.1) (userFunctions p)
  /\ Forall (fun m => isConfig m = false) (queuedMessages p)
  /\ (is_Some (db p) -> is_Some (sqlite3 p)).

(** [m] keeps the property [I], however it ends. *)
Definition Keeps {E : Engine} {H A : Type} (I : Processor E H -> Prop)
    (m : Comp (Processor E H) A) : Prop :=
  forall p,
    I p ->
    match m p with
    | Normal _ p' | Thrown _ p' => I p'
    | Exhausted => True
    end.

(** [I] survives every kind of write the processor makes to its state. *)
Record Stable {E : Engine} {H : Type}
    (onmessage : option (OutputMessage -> H -> H * option JsError))
    (I : Processor E H -> Prop) : Prop := {
  stable_log : forall ev p, I p -> I (log ev p);
  stable_host : forall listener m p,
    onmessage = Some listener -> I p -> I (set_host (listener m (host p)).1 p);
  stable_db : forall d p, I p -> is_Some (db p) -> I (set_db (Some d) p);
  stable_close : forall p, I p -> I (set_db None p);
  stable_open : forall d p,
    I p -> is_Some (sqlite3 p) -> db p = None -> I (set_db (Some d) p);
  stable_module : forall module p, I p -> I (set_sqlite3 (Some module) p);
  stable_parked : forall frames p, I p -> I (set_parked frames p);
  stable_config : forall c p, I p -> I (set_config c p);
  stable_push : forall m p,
    I p -> isConfig m = false -> db p = None ->
    I (set_queuedMessages (queuedMessages p ++ [m]) p);
  stable_shift : forall m rest p,
    I p -> queuedMessages p = m :: rest -> I (set_queuedMessages rest p);
  stable_register : forall name p,
    I p -> map_has name (userFunctions p) = false ->
    I (set_userFunctions (map_set name {| fn_name := name |} (userFunctions p)) p);
}.

(** A turn of the processor's event loop. *)
Inductive Turn :=
  | Arrives (message : InputMessage)
  | ModuleSettles.

Definition turn {E : Engine} {H : Type}
    (onmessage : option (OutputMessage -> H -> H * option JsError)) (fuel : nat)
    (p : Processor E H) (t : Turn) : Processor E H :=
  match t with
  | Arrives message => stateOf p (receive onmessage fuel message p)
  | ModuleSettles => stateOf p (resume onmessage fuel p)
  end.

(** The same turn as a step that may throw or run out of fuel. *)
Definition takeTurn {E : Engine} {H : Type}
    (onmessage : option (OutputMessage -> H -> H * option JsError)) (fuel : nat)
    (t : Turn) : Comp (Processor E H) unit :=
  match t with
  | Arrives message => receive onmessage fuel message
  | ModuleSettles => resume onmessage fuel
  end.

(** The messages that arrive in [turns], in their order. *)
Definition arrivals (turns : list Turn) : list InputMessage :=
  omap (fun t => match t with
                 | Arrives message => Some message
                 | ModuleSettles => None
                 end) turns.

(** What every client satisfies. A pending entry filed under a key holds
    the promise of the request that drew the key; the promise of a
    pending entry is not settled; no promise is settled twice; only
    promises of requests made so far occur. *)
Definition Sound (nanoid : nat -> QueryKey) (c : SQLocal.Client) : Prop :=
  NoDup (SQLocal.settled c).*1
  /\ (forall promise, promise ∈ (SQLocal.settled c).*1 -> promise < SQLocal.drawn c)
  /\ (forall queryKey promise,
        SQLocal.queriesInProgress c !! queryKey = Some promise ->
        queryKey = nanoid promise
        /\ promise < SQLocal.drawn c
        /\ promise ∉ (SQLocal.settled c).*1).

(** A step in the life of a client. *)
Inductive ClientStep :=
  | Requests (request : SQLocal.Request)
  | Delivered (message : OutputMessage)
  | ModuleLoads
  | CallbackCreated (functionName : string) (handler : SQLocal.Handler)
  | DestroyCompletes.

Definition clientStep (E : Engine) (nanoid : nat -> QueryKey) (fuel : nat)
    (s : SQLocal.State E) (step : ClientStep) : SQLocal.State E :=
  match step with
  | Requests request => stateOf s (SQLocal.createQuery E nanoid fuel request s)
  | Delivered message => stateOf s (SQLocal.deliver E message s)
  | ModuleLoads => stateOf s (SQLocal.moduleSettles E fuel s)
  | CallbackCreated functionName handler =>
      stateOf s (SQLocal.createCallbackFunction_then E functionName handler s)
  | DestroyCompletes => stateOf s (SQLocal.destroy_then E s)
  end.

(** The index of the last column called [column], if there is one. *)
Fixpoint lastIndexOf (column : string) (columns : list string) : option nat :=
  match columns with
  | [] => None
  | first :: rest =>
      match lastIndexOf column rest with
      | Some i => Some (S i)
      | None => if String.eqb column first then Some 0 else None
      end
  end.

(** The separator of [queryTemplate.join('?')] as a character. *)
Definition questionMark : Ascii.ascii := Ascii.ascii_of_nat 63.

(** How often the character [ch] occurs in [text]. *)
Fixpoint occurrences (ch : Ascii.ascii) (text : string) : nat :=
  match text with
  | EmptyString => 0
  | String first rest =>
      (if Ascii.eqb first ch then 1 else 0) + occurrences ch rest
  end.

(** The field a record made of the array [row] has under a column name:
    the element at the last index of that name. *)
Definition fieldOf (row : list JsVal) (columns : list string) (column : string)
  : option JsVal :=
  (fun columnIndex => default JsUndefined (row !! columnIndex))
    <$> lastIndexOf column columns.

(** The processor of a client that runs it in-process. *)
Definition localProcessorOf (s : SQLocal.State Toy.sqlite)
  : Processor Toy.sqlite SQLocal.Client :=
  match s with
  | SQLocal.InProcess _ p => p
  | SQLocal.OverWorker _ c _ => newProcessor Toy.sqlite c
  end.

Definition localProcessor (fuel : nat) : Processor Toy.sqlite SQLocal.Client :=
  localProcessorOf (localClient fuel).

(** ** Stepping through completions *)

Section CompFacts.
Context {S A B : Type}.

Lemma bind_normal (m : Comp S A) (k : A -> Comp S B) s a s' :
  m s = Normal a s' -> bind m k s = k a s'.
Proof. unfold bind. by intros ->. Qed.

Lemma bind_thrown (m : Comp S A) (k : A -> Comp S B) s e s' :
  m s = Thrown e s' -> bind m k s = Thrown e s'.
Proof. unfold bind. by intros ->. Qed.

Lemma bind_exhausted (m : Comp S A) (k : A -> Comp S B) s :
  m s = Exhausted -> bind m k s = Exhausted.
Proof. unfold bind. by intros ->. Qed.

Lemma try_normal (m : Comp S A) handler s a s' :
  m s = Normal a s' -> try_catch m handler s = Normal a s'.
Proof. unfold try_catch. by intros ->. Qed.

Lemma try_thrown (m : Comp S A) handler s e s' :
  m s = Thrown e s' -> try_catch m handler s = handler e s'.
Proof. unfold try_catch. by intros ->. Qed.
End CompFacts.

Lemma for_of_snd {S K V} (entries : list (K * V)) (body : V -> Comp S unit) s :
  for_of entries (fun entry => body entry.2) s = for_of entries.*2 body s.
Proof.
  revert s. induction entries as [|entry rest IH]; intros s; [done|].
  simpl. unfold bind. destruct (body entry.2 s); auto.
Qed.

(** ** The buffer of the processor, whoever listens *)

Section BufferFacts.
Context {E : Engine} {H : Type}.
Variable onmessage : option (OutputMessage -> H -> H * option JsError).
Implicit Types (p : Processor E H).

Lemma receive_query_dispatched fuel queryKey statement method p d :
  db p = Some d ->
  receive onmessage fuel (QueryMessage queryKey statement method) p
  = try_catch
      (result <- dbExec onmessage statement ;;
       emitMessage onmessage
                   (DataMessage queryKey (shapeRows method result.1) result.2))
      (fun error => emitMessage onmessage (ErrorMessage (Some queryKey) error)) p.
Proof.
  intros Hdb. unfold receive, postMessage, noDb. rewrite Hdb. simpl.
  unfold exec. by rewrite Hdb.
Qed.

Lemma dbExec_connected s p d :
  db p = Some d ->
  dbExec onmessage s p
  = (for_of (exec_invoked (db_exec E d (sql s) (params s)))
            (fun call => emitMessage onmessage (CallbackMessage call.1 call.2)) ;;
     match exec_result (db_exec E d (sql s) (params s)) with
     | inl e => throw e
     | inr v => ret v
     end)
      (set_db (Some (exec_db (db_exec E d (sql s) (params s))))
         (log (Call (Exec (sql s) (params s))) p)).
Proof. intros Hdb. unfold dbExec. by rewrite Hdb. Qed.

Lemma postMessage_buffers flush message p :
  db p = None ->
  isConfig message = false ->
  postMessage onmessage flush message p
  = Normal tt (set_queuedMessages (queuedMessages p ++ [message]) p).
Proof. intros Hdb Hm. unfold postMessage, noDb. by rewrite Hdb, Hm. Qed.

Lemma Steady_ret {A} (a : A) : Steady (ret a : Comp (Processor E H) A).
Proof. by intros p. Qed.

Lemma Steady_throw {A} e : Steady (throw e : Comp (Processor E H) A).
Proof. by intros p. Qed.

Lemma Steady_bind {A B} (m : Comp (Processor E H) A) (k : A -> Comp (Processor E H) B) :
  Steady m -> (forall a, Steady (k a)) -> Steady (E:=E) (bind m k).
Proof.
  intros Hm Hk p. unfold bind. specialize (Hm p).
  destruct (m p) as [a p1|e p1|]; try done.
  specialize (Hk a p1). destruct (k a p1); congruence.
Qed.

Lemma Steady_try {A} (m : Comp (Processor E H) A) handler :
  Steady m -> (forall e, Steady (handler e)) -> Steady (E:=E) (try_catch m handler).
Proof.
  intros Hm Hh p. unfold try_catch. specialize (Hm p).
  destruct (m p) as [a p1|e p1|]; try done.
  specialize (Hh e p1). destruct (handler e p1); congruence.
Qed.

Lemma Steady_for_of {A} (xs : list A) (body : A -> Comp (Processor E H) unit) :
  (forall x, Steady (body x)) -> Steady (E:=E) (for_of xs body).
Proof.
  intros Hbody. induction xs as [|x xs IH]; simpl.
  - apply Steady_ret.
  - apply Steady_bind; auto.
Qed.

Lemma Steady_emitMessage m : Steady (E:=E) (emitMessage onmessage m).
Proof.
  intros p. unfold emitMessage. destruct onmessage as [listener|]; [|done].
  by destruct (listener m (host p)) as [h [e|]].
Qed.

Lemma Steady_onDb c f : Steady (onDb c f : Comp (Processor E H) unit).
Proof.
  intros p. unfold onDb. destruct (db p) as [d|]; [|done].
  by destruct (f d) as [d' [e|]].
Qed.

Lemma Steady_closeDb : Steady (closeDb : Comp (Processor E H) unit).
Proof. intros p. unfold closeDb. by destruct (db p). Qed.

Lemma Steady_dbExec s : Steady (E:=E) (dbExec onmessage s).
Proof.
  intros p. unfold dbExec. destruct (db p) as [d|]; [|done].
  set (p0 := set_db _ _).
  change (settings p) with (settings p0).
  apply Steady_bind.
  - apply Steady_for_of. intros call. apply Steady_emitMessage.
  - intros _. destruct (exec_result _); [apply Steady_throw|apply Steady_ret].
Qed.

Lemma Steady_dbTransaction (callback : Comp (Processor E H) unit) :
  Steady callback -> Steady (dbTransaction callback).
Proof.
  intros Hc. unfold dbTransaction. apply Steady_bind; [apply Steady_onDb|].
  intros _. apply Steady_try.
  - apply Steady_bind; [done|]. intros _. apply Steady_onDb.
  - intros e. apply Steady_bind; [apply Steady_onDb|]. intros _. apply Steady_throw.
Qed.

Lemma Steady_exec message : Steady (E:=E) (exec onmessage message).
Proof.
  intros p. unfold exec. destruct (db p) as [d|]; [|done].
  destruct message as [c|k s m|k ss|k n|k]; try done.
  - apply Steady_try.
    + apply Steady_bind; [apply Steady_dbExec|]. intros r. apply Steady_emitMessage.
    + intros e. apply Steady_emitMessage.
  - apply Steady_try.
    + apply Steady_bind; [|intros _; apply Steady_emitMessage].
      apply Steady_dbTransaction, Steady_for_of. intros s.
      apply Steady_bind; [apply Steady_dbExec|]. intros _. apply Steady_ret.
    + intros e. apply Steady_emitMessage.
Qed.

Lemma Steady_destroy queryKey : Steady (E:=E) (destroy onmessage queryKey).
Proof.
  apply Steady_bind; [apply Steady_closeDb|]. intros _. apply Steady_emitMessage.
Qed.

Lemma construct_outcome c (made : JsError + Db E) p :
  match construct c made p with
  | Normal _ p1 =>
      is_Some (db p1) /\ settings p1 = settings p /\ host p1 = host p
      /\ emissions (trace p1) = emissions (trace p)
  | Thrown _ p1 =>
      db p1 = db p /\ settings p1 = settings p /\ host p1 = host p
      /\ emissions (trace p1) = emissions (trace p)
  | Exhausted => False
  end.
Proof.
  unfold construct, emissions. destruct made as [e|d]; simpl;
    rewrite omap_app, app_nil_r; eauto.
Qed.

(** [connect] emits nothing; when it returns there is a connection, and
    when it throws there is none. *)
Lemma connect_outcome module fr p :
  match connect module fr p with
  | Normal _ p1 =>
      is_Some (db p1) /\ settings p1 = settings p /\ host p1 = host p
      /\ emissions (trace p1) = emissions (trace p)
  | Thrown _ p1 =>
      db p1 = None /\ settings p1 = settings p /\ host p1 = host p
      /\ emissions (trace p1) = emissions (trace p)
  | Exhausted => False
  end.
Proof.
  assert (Hclose : exists p0, closeDb p = Normal tt p0 /\ db p0 = None
                              /\ settings p0 = settings p /\ host p0 = host p
                              /\ emissions (trace p0) = emissions (trace p)).
  { unfold closeDb. destruct (db p) eqn:Hdb; eexists; (split; [reflexivity|]); simpl;
      rewrite ?Hdb; unfold emissions; rewrite ?omap_app, ?app_nil_r; auto. }
  destruct Hclose as (p0 & Hclose & Hdb0 & Hset0 & Hhost0 & Hem0).
  unfold connect. erewrite bind_normal by exact Hclose.
  rewrite <- Hdb0, <- Hset0, <- Hhost0, <- Hem0.
  assert (Hwarn : forall c made w,
    match (construct c made ;; warn w) p0 with
    | Normal _ p1 =>
        is_Some (db p1) /\ settings p1 = settings p0 /\ host p1 = host p0
        /\ emissions (trace p1) = emissions (trace p0)
    | Thrown _ p1 =>
        db p1 = db p0 /\ settings p1 = settings p0 /\ host p1 = host p0
        /\ emissions (trace p1) = emissions (trace p0)
    | Exhausted => False
    end).
  { intros c made w. unfold bind. pose proof (construct_outcome c made p0) as Hc.
    destruct (construct c made p0) as [[] p1|e p1|]; [|done|done].
    unfold warn, modify. simpl. unfold emissions in *.
    rewrite omap_app, app_nil_r. exact Hc. }
  destruct (isOpfsOrUnset (frame_storage fr) && truthy (frame_databasePath fr)).
  - destruct (opfs module); [apply construct_outcome|apply Hwarn].
  - destruct (frame_storage fr) as [[| |]|];
      first [apply construct_outcome|apply Hwarn].
Qed.

(** Without a connection, messages other than config messages are
    appended to the buffer in arrival order, and nothing else happens. *)
Lemma buffered_in_arrival_order flush messages : forall p,
  db p = None ->
  Forall (fun m => isConfig m = false) messages ->
  for_of messages (postMessage onmessage flush) p
  = Normal tt (set_queuedMessages (queuedMessages p ++ messages) p).
Proof.
  induction messages as [|m rest IH]; intros p Hdb Hall.
  - simpl. unfold ret. rewrite app_nil_r. by destruct p.
  - inversion Hall as [|? ? Hm Hrest]; subst. simpl.
    erewrite bind_normal by (by apply postMessage_buffers).
    rewrite IH by done. simpl. by rewrite <- app_assoc.
Qed.

(** Without a connection the turns of the event loop only fill the
    buffer, as long as no config message arrives and no suspended [init]
    is there to resume. *)
Lemma turns_wait fuel turns : forall p,
  db p = None ->
  Forall (fun m => isConfig m = false) (arrivals turns) ->
  parked p = [] \/ ModuleSettles ∉ turns ->
  for_of turns (takeTurn onmessage fuel) p
  = Normal tt (set_queuedMessages (queuedMessages p ++ arrivals turns) p).
Proof.
  induction turns as [|t rest IH]; intros p Hdb Hall Hidle.
  - simpl. unfold ret. rewrite app_nil_r. by destruct p.
  - destruct t as [m|]; simpl in *.
    + inversion Hall as [|? ? Hm Hrest]; subst.
      erewrite bind_normal by (by apply postMessage_buffers).
      rewrite IH; [|done|done|].
      * simpl. by rewrite <- app_assoc.
      * destruct Hidle as [Hparked|Hnone]; [by left|right].
        by apply not_elem_of_cons in Hnone as [_ Hnone].
    + destruct Hidle as [Hparked|Hnone].
      * erewrite bind_normal
          by (unfold resume, moduleLoaded; by rewrite Hparked).
        apply IH; [done|done|by left].
      * exfalso. apply Hnone. by left.
Qed.

(** Once the connection is gone while the buffer still holds a message,
    the loop of [flushQueue] moves that message from the front of the
    buffer to its back, again and again: no amount of fuel lets it return. *)
Lemma flushQueue_spins_without_connection fuel : forall p,
  db p = None ->
  queuedMessages p <> [] ->
  Forall (fun m => isConfig m = false) (queuedMessages p) ->
  flushQueue onmessage fuel p = Exhausted.
Proof.
  induction fuel as [|fuel IH]; intros p Hdb Hne Hall; [done|].
  simpl. destruct (queuedMessages p) as [|m rest] eqn:Hq; [done|].
  inversion Hall as [|? ? Hm Hrest]; subst.
  erewrite bind_normal by (by apply postMessage_buffers).
  apply IH; simpl.
  - exact Hdb.
  - by destruct rest.
  - apply Forall_app. split; [done|]. by constructor.
Qed.
End BufferFacts.

(** ** The processor behind a listener that does not throw *)

Section ProcessorFacts.
Context {E : Engine} {H : Type} (step : OutputMessage -> H -> H).
Implicit Types (p : Processor E H) (d : Db E).

Lemma emitMessage_forwarding m p :
  emitMessage (forwarding step) m p
  = Normal tt (set_host (step m (host p)) (log (Emitted m) p)).
Proof. reflexivity. Qed.

Lemma relay_all calls p :
  exists p',
    for_of calls (fun call => emitMessage (forwarding step) (CallbackMessage call.1 call.2)) p
    = Normal tt p'
    /\ db p' = db p
    /\ trace p' = trace p ++ (relayed <$> calls).
Proof.
  revert p. induction calls as [|call calls IH]; intros p.
  - exists p. simpl. by rewrite app_nil_r.
  - destruct (IH (set_host (step (CallbackMessage call.1 call.2) (host p))
                     (log (Emitted (CallbackMessage call.1 call.2)) p)))
      as (p' & Hrun & Hdb & Htr).
    exists p'. split; [|split].
    + simpl. unfold bind at 1. rewrite emitMessage_forwarding. exact Hrun.
    + rewrite Hdb. reflexivity.
    + rewrite Htr. simpl. rewrite <- app_assoc. reflexivity.
Qed.

Lemma dbExec_forwarding s p d :
  db p = Some d ->
  exists p',
    dbExec (forwarding step) s p
    = match exec_result (db_exec E d (sql s) (params s)) with
      | inl e => Thrown e p'
      | inr v => Normal v p'
      end
    /\ db p' = Some (exec_db (db_exec E d (sql s) (params s)))
    /\ trace p' = trace p ++ executing d s.
Proof.
  intros Hdb. unfold dbExec. rewrite Hdb.
  set (r := db_exec E d (sql s) (params s)).
  set (p0 := set_db _ _).
  destruct (relay_all (exec_invoked r) p0) as (p' & Hrun & Hdb' & Htr).
  exists p'. split; [|split].
  - unfold bind. rewrite Hrun. destruct (exec_result r); reflexivity.
  - rewrite Hdb'. reflexivity.
  - rewrite Htr. unfold executing. fold r. subst p0. simpl.
    rewrite <- app_assoc. reflexivity.
Qed.

Lemma batch_forwarding statements : forall p d,
  db p = Some d ->
  exists d' events failure p',
    Batch d statements d' events failure
    /\ for_of statements (fun s => _ <- dbExec (forwarding step) s ;; ret tt) p
       = match failure with
         | None => Normal tt p'
         | Some e => Thrown e p'
         end
    /\ db p' = Some d'
    /\ trace p' = trace p ++ events.
Proof.
  induction statements as [|s rest IH]; intros p d Hdb.
  - exists d, [], None, p. split; [constructor|]. simpl. by rewrite app_nil_r.
  - destruct (dbExec_forwarding s p d Hdb) as (p1 & Hrun & Hdb1 & Htr1).
    destruct (exec_result (db_exec E d (sql s) (params s))) as [e|v] eqn:Hres.
    + exists (exec_db (db_exec E d (sql s) (params s))), (executing d s), (Some e), p1.
      split; [by apply Batch_throw|]. split; [|done].
      simpl. unfold bind. rewrite Hrun. reflexivity.
    + destruct (IH p1 _ Hdb1) as (d' & events & failure & p' & HB & Hrun' & Hdb' & Htr').
      exists d', (executing d s ++ events), failure, p'.
      split; [by eapply Batch_next|]. split; [|split; [done|]].
      * simpl. unfold bind at 1 2. rewrite Hrun. unfold ret at 1. exact Hrun'.
      * rewrite Htr', Htr1, <- app_assoc. reflexivity.
Qed.

Lemma onDb_run c (f : Db E -> Db E * option JsError) p d :
  db p = Some d ->
  onDb c f p
  = match (f d).2 with
    | None => Normal tt (set_db (Some (f d).1) (log (Call c) p))
    | Some e => Thrown e (set_db (Some (f d).1) (log (Call c) p))
    end.
Proof. intros Hdb. unfold onDb. rewrite Hdb. by destruct (f d) as [d' [e|]]. Qed.

Lemma responses_app (t1 t2 : list Event) :
  responses (t1 ++ t2) = responses t1 ++ responses t2.
Proof. apply omap_app. Qed.

Lemma responses_relayed calls : responses (relayed <$> calls) = [].
Proof. induction calls as [|call calls IH]; [done|]. simpl. exact IH. Qed.

Lemma responses_executing d s : responses (executing d s) = [].
Proof. unfold executing. simpl. apply responses_relayed. Qed.

Lemma Batch_responses d statements d' events failure :
  Batch d statements d' events failure -> responses events = [].
Proof.
  induction 1 as [| d s rest d' events failure v Hres _ IH | d s rest e Hres].
  - reflexivity.
  - by rewrite responses_app, responses_executing, IH.
  - apply responses_executing.
Qed.

Lemma Batch_failure_unique d statements d1 events1 failure1 :
  Batch d statements d1 events1 failure1 ->
  forall d2 events2 failure2,
    Batch d statements d2 events2 failure2 -> failure1 = failure2.
Proof.
  induction 1 as [| d s rest d' events failure v Hres _ IH | d s rest e Hres];
    intros d2 events2 failure2 Hother; inversion Hother; subst;
    try reflexivity; try congruence.
  eapply IH. eassumption.
Qed.

Lemma Atomic_responses d statements events failure :
  Atomic d statements events failure -> responses events = [].
Proof.
  destruct 1 as [d0 e _ | d0 d1 d2 events _ HB _ | d0 d1 d2 d3 events e undone _ HB _ _
                | d0 d1 d2 events e undone _ HB _];
    try reflexivity;
    change (Call Begin :: ?l) with ([Call Begin] ++ l);
    rewrite !responses_app, (Batch_responses _ _ _ _ _ HB); reflexivity.
Qed.

Lemma dbTransaction_forwarding statements p d :
  db p = Some d ->
  exists events failure p',
    Atomic d statements events failure
    /\ dbTransaction (for_of statements (fun s => _ <- dbExec (forwarding step) s ;; ret tt)) p
       = match failure with
         | None => Normal tt p'
         | Some e => Thrown e p'
         end
    /\ trace p' = trace p ++ events
    /\ is_Some (db p').
Proof.
  intros Hdb. unfold dbTransaction, bind at 1.
  rewrite (onDb_run _ _ _ _ Hdb).
  destruct (db_begin E d) as [d0 [e|]] eqn:Hbegin; simpl.
  { eexists [Call Begin], (Some e), _. split; [by eapply Atomic_not_begun|].
    split; [reflexivity|]. split; [reflexivity|]. by eexists. }
  set (p0 := set_db (Some d0) (log (Call Begin) p)).
  destruct (batch_forwarding statements p0 d0 eq_refl)
    as (d1 & events & failure & p1 & HB & Hrun & Hdb1 & Htr1).
  assert (Htr0 : forall more, trace p1 ++ more = trace p ++ Call Begin :: events ++ more).
  { intros more. rewrite Htr1. subst p0. simpl. by rewrite <- !app_assoc. }
  destruct failure as [e|].
  - erewrite try_thrown by (erewrite bind_thrown; [reflexivity|exact Hrun]).
    cbv beta. unfold bind. rewrite (onDb_run _ _ _ _ Hdb1).
    destruct (db_rollback E d1) as [d2 undone] eqn:Hroll; simpl.
    eexists (Call Begin :: events ++ [Call Rollback]), (Some (default e undone)), _.
    split; [by eapply Atomic_rolled_back|].
    split; [destruct undone; reflexivity|].
    split; [apply Htr0|by eexists].
  - pose proof (onDb_run Commit (db_commit E) p1 d1 Hdb1) as Hcommit.
    destruct (db_commit E d1) as [d2 [e|]] eqn:Hc; simpl in Hcommit.
    + erewrite try_thrown
        by (erewrite bind_normal; [exact Hcommit|exact Hrun]).
      set (p2 := set_db (Some d2) (log (Call Commit) p1)).
      cbv beta. unfold bind. rewrite (onDb_run _ _ p2 d2 eq_refl).
      destruct (db_rollback E d2) as [d3 undone] eqn:Hroll; simpl.
      eexists (Call Begin :: events ++ [Call Commit; Call Rollback]),
        (Some (default e undone)), _.
      split; [by eapply Atomic_commit_throws|].
      split; [destruct undone; reflexivity|].
      split; [|by eexists].
      simpl. rewrite <- (app_assoc (trace p1)). apply Htr0.
    + erewrite try_normal
        by (erewrite bind_normal; [exact Hcommit|exact Hrun]).
      eexists (Call Begin :: events ++ [Call Commit]), None, _.
      split; [by eapply Atomic_committed|].
      split; [reflexivity|].
      split; [apply Htr0|by eexists].
Qed.

Lemma receive_transaction fuel queryKey statements p d :
  db p = Some d ->
  exists events failure p',
    receive (forwarding step) fuel (TransactionMessage queryKey statements) p
    = Normal tt p'
    /\ Atomic d statements events failure
    /\ trace p' = trace p ++ events ++ [Emitted (transactionResponse queryKey failure)]
    /\ is_Some (db p').
Proof.
  intros Hdb.
  destruct (dbTransaction_forwarding statements p d Hdb)
    as (events & failure & p1 & HA & Hrun & Htr & Hdb1).
  exists events, failure.
  unfold receive, postMessage, noDb. rewrite Hdb. simpl.
  unfold exec. rewrite Hdb.
  destruct failure as [e|].
  - erewrite try_thrown by (erewrite bind_thrown; [reflexivity|exact Hrun]).
    rewrite emitMessage_forwarding. eexists. split; [reflexivity|].
    split; [done|]. simpl. by rewrite Htr, <- app_assoc.
  - erewrite try_normal
      by (erewrite bind_normal; [apply emitMessage_forwarding|exact Hrun]).
    eexists. split; [reflexivity|].
    split; [done|]. simpl. by rewrite Htr, <- app_assoc.
Qed.

(** C1. A transaction message that is dispatched runs all of its
    statements, in the order given, inside one use of the engine's
    transaction primitive, and is answered by exactly one response: the
    data message when the primitive returns, and, when a statement (or
    BEGIN/COMMIT) throws, one error message carrying the batch's key and
    no data message. *)
Theorem transaction_runs_in_order_and_answers_once
    fuel queryKey statements p d :
  db p = Some d ->
  exists events failure p',
    receive (forwarding step) fuel (TransactionMessage queryKey statements) p
    = Normal tt p'
    /\ Atomic d statements events failure
    /\ trace p' = trace p ++ events ++ [Emitted (transactionResponse queryKey failure)]
    /\ responses (trace p')
       = responses (trace p) ++ [transactionResponse queryKey failure]
    /\ (forall d0 d1 executed e,
          db_begin E d = (d0, None) ->
          Batch d0 statements d1 executed (Some e) ->
          exists e', failure = Some e'
                     /\ responses (trace p')
                        = responses (trace p) ++ [ErrorMessage (Some queryKey) e']).
Proof.
  intros Hdb.
  destruct (receive_transaction fuel queryKey statements p d Hdb)
    as (events & failure & p' & Hrecv & HA & Htr' & _).
  assert (Hresp : responses (trace p')
                  = responses (trace p) ++ [transactionResponse queryKey failure]).
  { rewrite Htr', !responses_app, (Atomic_responses _ _ _ _ HA).
    by destruct failure. }
  exists events, failure, p'. repeat split; try done.
  intros d0 d1 executed e Hbegin HB.
  inversion HA as [d0' e' Hb | d0' d1' d2' ev' Hb HB' _ | d0' d1' d2' d3' ev' e' u' Hb HB' _ _
                  | d0' d1' d2' ev' e' u' Hb HB' _]; subst;
    rewrite Hbegin in Hb; inversion Hb; subst;
    try (pose proof (Batch_failure_unique _ _ _ _ _ HB _ _ _ HB'); discriminate).
  eexists. split; [reflexivity|]. exact Hresp.
Qed.

Lemma receive_query fuel queryKey statement method p d :
  db p = Some d ->
  receive (forwarding step) fuel (QueryMessage queryKey statement method) p
  = try_catch
      (result <- dbExec (forwarding step) statement ;;
       emitMessage (forwarding step)
                   (DataMessage queryKey (shapeRows method result.1) result.2))
      (fun error => emitMessage (forwarding step) (ErrorMessage (Some queryKey) error)) p.
Proof.
  intros Hdb. unfold receive, postMessage, noDb. rewrite Hdb. simpl.
  unfold exec. by rewrite Hdb.
Qed.

(** C8. The data message that answers a query is shaped by the method:
    no rows for ['run'], the first row of the engine result for ['get'],
    every row for ['all'] (and for any other tag), each time with the
    column names as the engine reported them. *)
Theorem query_response_shaped_by_method
    fuel queryKey statement method p d rows columns :
  db p = Some d ->
  exec_result (db_exec E d (sql statement) (params statement)) = inr (rows, columns) ->
  let shaped :=
    match method with
    | Run => JsArr []
    | Get => match rows with [] => JsUndefined | first :: _ => JsArr first end
    | All | OtherMethod => JsArr (JsArr <$> rows)
    end in
  exists p',
    receive (forwarding step) fuel (QueryMessage queryKey statement method) p
    = Normal tt p'
    /\ trace p'
       = trace p ++ executing d statement
         ++ [Emitted (DataMessage queryKey shaped columns)]
    /\ responses (trace p')
       = responses (trace p) ++ [DataMessage queryKey shaped columns].
Proof.
  intros Hdb Hres shaped. rewrite (receive_query _ _ _ _ _ _ Hdb).
  destruct (dbExec_forwarding statement p d Hdb) as (p1 & Hrun & _ & Htr).
  rewrite Hres in Hrun.
  erewrite try_normal
    by (erewrite bind_normal; [apply emitMessage_forwarding|exact Hrun]).
  eexists. split; [reflexivity|].
  assert (Hshape : shapeRows method rows = shaped) by by destruct method.
  simpl. rewrite Hshape, Htr, <- app_assoc. split; [reflexivity|].
  by rewrite !responses_app, responses_executing.
Qed.

Lemma receive_query_answers fuel queryKey statement method p d :
  db p = Some d ->
  exists p' r,
    receive (forwarding step) fuel (QueryMessage queryKey statement method) p
    = Normal tt p'
    /\ trace p' = trace p ++ executing d statement ++ [Emitted r]
    /\ SQLocal.responseKey r = Some queryKey
    /\ is_Some (db p').
Proof.
  intros Hdb. rewrite (receive_query _ _ _ _ _ _ Hdb).
  destruct (dbExec_forwarding statement p d Hdb) as (p1 & Hrun & Hdb1 & Htr).
  destruct (exec_result _) as [e|v].
  - erewrite try_thrown by (erewrite bind_thrown; [reflexivity|exact Hrun]).
    rewrite emitMessage_forwarding. eexists _, (ErrorMessage (Some queryKey) e).
    split; [reflexivity|]. simpl. rewrite Htr, <- app_assoc, Hdb1. eauto.
  - erewrite try_normal
      by (erewrite bind_normal; [apply emitMessage_forwarding|exact Hrun]).
    eexists _, (DataMessage queryKey _ _).
    split; [reflexivity|]. simpl. rewrite Htr, <- app_assoc, Hdb1. eauto.
Qed.

Lemma receive_function fuel queryKey functionName p d :
  db p = Some d ->
  exists p' r,
    receive (forwarding step) fuel (FunctionMessage queryKey functionName) p
    = Normal tt p'
    /\ trace p'
       = trace p
         ++ (if map_has functionName (userFunctions p)
             then [] else [Call (CreateFunction functionName)])
         ++ [Emitted r]
    /\ SQLocal.responseKey r = Some queryKey
    /\ is_Some (db p')
    /\ queuedMessages p' = queuedMessages p
    /\ (map_has functionName (userFunctions p) = true ->
        r = ErrorMessage (Some queryKey) (functionExists functionName)
        /\ userFunctions p' = userFunctions p /\ db p' = Some d).
Proof.
  intros Hdb. unfold receive, postMessage, noDb. rewrite Hdb. simpl.
  unfold createCallbackFunction.
  destruct (map_has functionName (userFunctions p)) eqn:Hhas.
  - rewrite emitMessage_forwarding. eexists _, _. split; [reflexivity|].
    simpl. rewrite Hdb. eauto 10.
  - pose proof (onDb_run (CreateFunction functionName)
                  (fun d => db_createFunction E d functionName) p d Hdb) as Hattach.
    assert (Hinit : initUserFunction {| fn_name := functionName |} p
                    = onDb (CreateFunction functionName)
                        (fun d => db_createFunction E d functionName) p).
    { unfold initUserFunction. by rewrite Hdb. }
    destruct (db_createFunction E d functionName) as [d' [e|]]; simpl in Hattach.
    + erewrite try_thrown
        by (erewrite bind_thrown; [reflexivity|by rewrite Hinit]).
      rewrite emitMessage_forwarding. eexists _, (ErrorMessage (Some queryKey) e).
      split; [reflexivity|]. simpl. rewrite <- app_assoc.
      repeat split; eauto; done.
    + erewrite try_normal
        by (erewrite bind_normal; [|by rewrite Hinit];
            erewrite bind_normal; [apply emitMessage_forwarding|reflexivity]).
      eexists _, (SuccessMessage queryKey).
      split; [reflexivity|]. simpl. rewrite <- app_assoc.
      repeat split; eauto; done.
Qed.

Lemma receive_destroy fuel queryKey p d :
  db p = Some d ->
  exists p',
    receive (forwarding step) fuel (DestroyMessage queryKey) p = Normal tt p'
    /\ db p' = None
    /\ trace p' = trace p ++ [Call Close; Emitted (SuccessMessage queryKey)]
    /\ queuedMessages p' = queuedMessages p
    /\ userFunctions p' = userFunctions p.
Proof.
  intros Hdb. unfold receive, postMessage, noDb. rewrite Hdb. simpl.
  unfold destroy. erewrite bind_normal by (unfold closeDb; by rewrite Hdb).
  rewrite emitMessage_forwarding. eexists. split; [reflexivity|].
  simpl. by rewrite <- app_assoc.
Qed.

(** One response per request: a dispatched message other than a config
    message is answered by exactly one response, which carries its key. *)
Lemma dispatch_answers_once fuel message p d :
  db p = Some d ->
  isConfig message = false ->
  exists p' r,
    receive (forwarding step) fuel message p = Normal tt p'
    /\ responses (trace p') = responses (trace p) ++ [r]
    /\ SQLocal.responseKey r = requestKey message
    /\ queuedMessages p' = queuedMessages p
    /\ (isDestroy message = false -> is_Some (db p')).
Proof.
  intros Hdb Hm. destruct message as [c|k s m|k ss|k n|k]; [done| | | |].
  - destruct (receive_query_answers fuel k s m p d Hdb) as (p' & r & Hrun & Htr & Hk & Hdb').
    exists p', r. split; [done|].
    split; [|split; [done|split; [|done]]].
    + rewrite Htr, !responses_app, responses_executing. by destruct r.
    + pose proof (Steady_exec (forwarding step) (QueryMessage k s m) p) as Hs.
      unfold receive, postMessage, noDb in Hrun. rewrite Hdb in Hrun. simpl in Hrun.
      rewrite Hrun in Hs. by inversion Hs.
  - destruct (receive_transaction fuel k ss p d Hdb)
      as (events & failure & p' & Hrun & HA & Htr & Hdb').
    exists p', (transactionResponse k failure). split; [done|].
    split; [|split; [by destruct failure|split; [|done]]].
    + rewrite Htr, !responses_app, (Atomic_responses _ _ _ _ HA). by destruct failure.
    + pose proof (Steady_exec (forwarding step) (TransactionMessage k ss) p) as Hs.
      unfold receive, postMessage, noDb in Hrun. rewrite Hdb in Hrun. simpl in Hrun.
      rewrite Hrun in Hs. by inversion Hs.
  - destruct (receive_function fuel k n p d Hdb)
      as (p' & r & Hrun & Htr & Hk & Hdb' & Hq & _).
    exists p', r. split; [done|]. split; [|done].
    rewrite Htr, !responses_app.
    destruct (map_has n (userFunctions p)); by destruct r.
  - destruct (receive_destroy fuel k p d Hdb) as (p' & Hrun & Hdb' & Htr & Hq & _).
    exists p', (SuccessMessage k). split; [done|]. split; [|done].
    by rewrite Htr, !responses_app.
Qed.

(** FIFO, as far as it holds: with a connection, and with no destroy
    message in the buffer, [flushQueue] returns with the buffer empty
    after answering the buffered messages one by one in arrival order. *)
Lemma flushQueue_answers_in_arrival_order fuel : forall p d,
  db p = Some d ->
  Forall (fun m => isConfig m = false /\ isDestroy m = false) (queuedMessages p) ->
  length (queuedMessages p) < fuel ->
  exists p' answers,
    flushQueue (forwarding step) fuel p = Normal tt p'
    /\ queuedMessages p' = []
    /\ responses (trace p') = responses (trace p) ++ answers
    /\ SQLocal.responseKey <$> answers = requestKey <$> queuedMessages p.
Proof.
  induction fuel as [|fuel IH]; intros p d Hdb Hall Hlen; [lia|].
  simpl. destruct (queuedMessages p) as [|m rest] eqn:Hq.
  - exists p, []. by rewrite app_nil_r.
  - inversion Hall as [|? ? [Hm Hd] Hrest]; subst.
    destruct (dispatch_answers_once fuel m (set_queuedMessages rest p) d Hdb Hm)
      as (p1 & r & Hrun & Hresp & Hkey & Hq1 & Hdb1).
    destruct (Hdb1 Hd) as [d1 Hd1].
    unfold receive in Hrun. erewrite bind_normal by exact Hrun.
    simpl in Hq1, Hlen.
    destruct (IH p1 d1 Hd1) as (p' & answers & Hflush & Hempty & Hresp' & Hkeys).
    { by rewrite Hq1. }
    { rewrite Hq1. lia. }
    exists p', (r :: answers). split; [done|]. split; [done|].
    split.
    + rewrite Hresp', Hresp. simpl. by rewrite <- app_assoc.
    + rewrite Hq1 in Hkeys. rewrite !fmap_cons. by f_equal.
Qed.

Lemma receive_destroy_parked fuel queryKey p d p' :
  db p = Some d ->
  receive (forwarding step) fuel (DestroyMessage queryKey) p = Normal tt p' ->
  parked p' = parked p.
Proof.
  intros Hdb. unfold receive, postMessage, noDb. rewrite Hdb. simpl.
  unfold destroy. erewrite bind_normal by (unfold closeDb; by rewrite Hdb).
  rewrite emitMessage_forwarding. by intros [= <-].
Qed.

(** C4 (as amended). When a destroy message is dispatched the processor
    closes the connection and emits the success message with the same
    key. From then on, through every sequence of turns of the event loop
    in which the connection is not opened again, every message is put
    into the buffer, in arrival order, without any effect on the engine
    or any emission. Only two things open the connection again: a later
    config message, and an [init] that an earlier config message started
    and that still waits for the module; the turns are those in which no
    config message arrives and no such [init] resumes. *)
Theorem destroy_closes_and_followers_wait fuel queryKey p d turns :
  db p = Some d ->
  Forall (fun m => isConfig m = false) (arrivals turns) ->
  parked p = [] \/ ModuleSettles ∉ turns ->
  exists p',
    receive (forwarding step) fuel (DestroyMessage queryKey) p = Normal tt p'
    /\ db p' = None
    /\ trace p' = trace p ++ [Call Close; Emitted (SuccessMessage queryKey)]
    /\ for_of turns (takeTurn (forwarding step) fuel) p'
       = Normal tt (set_queuedMessages (queuedMessages p ++ arrivals turns) p').
Proof.
  intros Hdb Hlater Hidle.
  destruct (receive_destroy fuel queryKey p d Hdb) as (p' & Hrun & Hdb' & Htr & Hq & _).
  pose proof (receive_destroy_parked fuel queryKey p d p' Hdb Hrun) as Hparked.
  exists p'. repeat split; try done.
  rewrite <- Hq.
  apply (turns_wait (forwarding step) fuel turns p' Hdb' Hlater).
  by rewrite Hparked.
Qed.

Lemma attach_registry fns : forall p d d',
  db p = Some d ->
  attachAll d fns = Some d' ->
  exists p',
    for_of fns (fun fn => initUserFunction fn) p = Normal tt p'
    /\ db p' = Some d'
    /\ trace p' = trace p ++ attaching fns
    /\ settings p' = settings p.
Proof.
  induction fns as [|fn rest IH]; intros p d d' Hdb Hall; simpl in *.
  - inversion Hall; subst. exists p. by rewrite app_nil_r.
  - pose proof (onDb_run (CreateFunction (fn_name fn))
                  (fun d => db_createFunction E d (fn_name fn)) p d Hdb) as Hattach.
    destruct (db_createFunction E d (fn_name fn)) as [d1 [e|]]; [done|].
    simpl in Hattach.
    destruct (IH (set_db (Some d1) (log (Call (CreateFunction (fn_name fn))) p))
                d1 d' eq_refl Hall) as (p' & Hrun & Hdb' & Htr & Hset).
    exists p'. split; [|split; [done|split]].
    + erewrite bind_normal; [exact Hrun|].
      unfold initUserFunction. rewrite Hdb. exact Hattach.
    + rewrite Htr. simpl. by rewrite <- app_assoc.
    + by rewrite Hset.
Qed.

Lemma init_loaded flush module p :
  sqlite3 p = Some module ->
  configValid (config p) = true ->
  init (forwarding step) flush p
  = initFrom (forwarding step) flush (connect module (frameOf (config p))) p.
Proof. intros Hmod Hvalid. unfold init. by rewrite Hvalid, Hmod. Qed.

Lemma receive_config fuel c p :
  receive (forwarding step) fuel (ConfigMessage c) p
  = detached (init (forwarding step) (flushQueue (forwarding step) fuel))
      (set_config c p).
Proof.
  unfold receive, postMessage. simpl. by rewrite andb_false_r.
Qed.

(** C6. A function message that names a function already in the registry
    is answered by an error message and leaves the registry and the
    connection as they were, so the first registration stays attached.
    When a config message re-creates the connection, the registry is
    kept, and every entry is attached to the new connection, in
    registration order, before [flushQueue] starts. *)
Theorem duplicate_rejected_and_registry_reattached fuel p :
  (forall d queryKey functionName,
     db p = Some d ->
     map_has functionName (userFunctions p) = true ->
     exists p',
       receive (forwarding step) fuel (FunctionMessage queryKey functionName) p
       = Normal tt p'
       /\ userFunctions p' = userFunctions p
       /\ db p' = Some d
       /\ trace p'
          = trace p
            ++ [Emitted (ErrorMessage (Some queryKey) (functionExists functionName))])
  /\ (forall c module p1 d1 d2,
        sqlite3 p = Some module ->
        configValid c = true ->
        connect module (frameOf c) (set_config c p) = Normal tt p1 ->
        db p1 = Some d1 ->
        attachAll d1 (userFunctions p).*2 = Some d2 ->
        exists p2,
          receive (forwarding step) fuel (ConfigMessage c) p
          = detached (flushQueue (forwarding step) fuel) p2
          /\ userFunctions p2 = userFunctions p
          /\ queuedMessages p2 = queuedMessages p
          /\ db p2 = Some d2
          /\ trace p2 = trace p1 ++ attaching (userFunctions p).*2).
Proof.
  split.
  - intros d queryKey functionName Hdb Hhas.
    destruct (receive_function fuel queryKey functionName p d Hdb)
      as (p' & r & Hrun & Htr & _ & _ & _ & Hdup).
    destruct (Hdup Hhas) as (-> & Hfns & Hdb').
    exists p'. rewrite Hhas in Htr. by repeat split.
  - intros c module p1 d1 d2 Hmod Hvalid Hconnect Hdb1 Hattach.
    pose proof (connect_outcome module (frameOf c) (set_config c p))
      as Hout.
    rewrite Hconnect in Hout. destruct Hout as (_ & Hset1 & _).
    assert (Hfns1 : userFunctions p1 = userFunctions p) by by inversion Hset1.
    rewrite <- Hfns1 in Hattach.
    destruct (attach_registry (userFunctions p1).*2 p1 d1 d2 Hdb1 Hattach)
      as (p2 & Hrun & Hdb2 & Htr2 & Hset2).
    exists p2. split; [|split; [|split; [|split]]].
    + rewrite receive_config.
      assert (Hinit : init (forwarding step) (flushQueue (forwarding step) fuel)
                        (set_config c p)
                      = flushQueue (forwarding step) fuel p2).
      { rewrite (init_loaded _ module) by done. simpl config.
        unfold initFrom.
        erewrite bind_normal
          by (erewrite try_normal; [reflexivity|];
              erewrite bind_normal; [reflexivity|exact Hconnect]).
        simpl. unfold bind at 1, gets at 1.
        erewrite bind_normal; [reflexivity|].
        by rewrite for_of_snd. }
      unfold detached, try_catch. by rewrite Hinit.
    + rewrite <- Hfns1. by inversion Hset2.
    + transitivity (queuedMessages p1); [by inversion Hset2|by inversion Hset1].
    + exact Hdb2.
    + by rewrite Hfns1 in Htr2.
Qed.

Lemma setup_caught e p1 :
  exists p2,
    (emitMessage (forwarding step) (ErrorMessage None e) ;; closeDb ;; ret false) p1
    = Normal false p2
    /\ db p2 = None
    /\ emissions (trace p2) = emissions (trace p1) ++ [ErrorMessage None e]
    /\ engineCalls (trace p2)
       = engineCalls (trace p1) ++ match db p1 with Some _ => [Close] | None => [] end
    /\ queuedMessages p2 = queuedMessages p1.
Proof.
  erewrite bind_normal by apply emitMessage_forwarding.
  unfold bind, closeDb, ret, emissions, engineCalls. simpl.
  destruct (db p1) eqn:Hdb; eexists; (split; [reflexivity|]); simpl;
    rewrite ?omap_app; simpl; rewrite ?app_nil_r; by rewrite ?Hdb.
Qed.

Lemma loadAndConnect_thrown fr p e p1 :
  loadAndConnect fr p = Thrown e p1 ->
  emissions (trace p1) = emissions (trace p)
  /\ queuedMessages p1 = queuedMessages p.
Proof.
  unfold loadAndConnect. destruct (sqlite3InitModule E) as [e'|module].
  - unfold throw. by inversion 1.
  - unfold bind, modify.
    pose proof (connect_outcome module fr (set_sqlite3 (Some module) p))
      as Hout.
    intros Hrun. rewrite Hrun in Hout. destruct Hout as (_ & Hset & _ & Hem).
    split; [done|]. by inversion Hset.
Qed.

(** C7. When connection setup fails, the processor emits exactly one
    message, an error message whose key is null, closes the connection
    if one is left, and ends without a connection and without flushing
    the buffer.  At the client such a message matches no pending request:
    [processMessageEvent] throws its error and changes nothing. *)
Theorem setup_failure_reports_unrouted_error fuel p turn e p1 :
  SetupFails (forwarding step) fuel p turn e p1 ->
  exists p2,
    turn p = Normal tt p2
    /\ db p2 = None
    /\ emissions (trace p2) = emissions (trace p) ++ [ErrorMessage None e]
    /\ engineCalls (trace p2)
       = engineCalls (trace p1) ++ match db p1 with Some _ => [Close] | None => [] end
    /\ queuedMessages p2 = queuedMessages p
    /\ forall c, SQLocal.processMessageEvent (ErrorMessage None e) c = (c, Some e).
Proof.
  intros Hfails.
  destruct (setup_caught e p1) as (p2 & Hcatch & Hdb2 & Hem2 & Hcalls2 & Hq2).
  exists p2.
  assert (Hinit : forall flush attempt p0,
            attempt p0 = Thrown e p1 ->
            detached (initFrom (forwarding step) flush attempt) p0 = Normal tt p2).
  { intros flush attempt p0 Hattempt. unfold detached, initFrom.
    erewrite try_normal; [reflexivity|].
    erewrite bind_normal
      by (erewrite try_thrown; [exact Hcatch|];
          erewrite bind_thrown; [reflexivity|exact Hattempt]).
    reflexivity. }
  destruct Hfails as [c module e p1 Hmod Hvalid Hconnect | fr rest e p1 Hparked Hload].
  - pose proof (connect_outcome module (frameOf c) (set_config c p))
      as Hout.
    rewrite Hconnect in Hout. destruct Hout as (_ & Hset & _ & Hem).
    split; [|split; [done|split; [|split; [done|split; [|done]]]]].
    + rewrite receive_config.
      rewrite <- (Hinit (flushQueue (forwarding step) fuel) _ _ Hconnect).
      unfold detached, try_catch. by rewrite (init_loaded _ module).
    + by rewrite Hem2, Hem.
    + rewrite Hq2. by inversion Hset.
  - destruct (loadAndConnect_thrown _ _ _ _ Hload) as [Hem Hq].
    split; [|split; [done|split; [|split; [done|split; [|done]]]]].
    + unfold resume, moduleLoaded. rewrite Hparked.
      exact (Hinit _ _ _ Hload).
    + by rewrite Hem2, Hem.
    + by rewrite Hq2, Hq.
Qed.

(** A destroy message that is flushed with another message behind it
    takes the connection away in the middle of the loop. *)
Lemma flushQueue_spins_after_destroy fuel p d queryKey message rest :
  db p = Some d ->
  queuedMessages p = DestroyMessage queryKey :: message :: rest ->
  Forall (fun m => isConfig m = false) (message :: rest) ->
  flushQueue (forwarding step) fuel p = Exhausted.
Proof.
  intros Hdb Hq Hall. destruct fuel as [|fuel]; [done|].
  simpl. rewrite Hq.
  destruct (receive_destroy fuel queryKey (set_queuedMessages (message :: rest) p) d Hdb)
    as (p' & Hrun & Hdb' & _ & Hq' & _).
  unfold receive in Hrun. erewrite bind_normal by exact Hrun.
  apply flushQueue_spins_without_connection; [done| |]; by rewrite Hq'.
Qed.
End ProcessorFacts.

(** ** Runs of the worker-side processor *)

Lemma transaction_runs_in_order_and_answers_once_witness :
  db readyProcessor = Some Toy.fresh
  /\ exists events failure p',
      receive worker 0 (TransactionMessage "k1" [insertCarrots; insertLettuce])
              readyProcessor
      = Normal tt p'
      /\ Atomic (E:=Toy.sqlite) Toy.fresh [insertCarrots; insertLettuce] events failure
      /\ responses (trace p')
         = responses (trace readyProcessor) ++ [transactionResponse "k1" failure].
Proof.
  split; [reflexivity|].
  destruct (transaction_runs_in_order_and_answers_once (fun _ _ => tt) 0 "k1"
              [insertCarrots; insertLettuce] readyProcessor Toy.fresh eq_refl)
    as (events & failure & p' & Hrun & Hatomic & _ & Hresp & _).
  by exists events, failure, p'.
Defined.

(** The two transaction tests of [test/transaction.test.ts]. *)
Example successful_transaction :
  exists p',
    (receive worker 0 (TransactionMessage "k1" [insertApples; insertCarrots]) ;;
     receive worker 0 (select "k2" All)) readyProcessor
    = Normal tt p'
    /\ emissions (trace p')
       = [DataMessage "k1" (JsArr []) [];
          DataMessage "k2"
            (JsArr [JsArr [JsStr (sql insertApples)]; JsArr [JsStr (sql insertCarrots)]])
            ["name"]].
Proof. eexists. by vm_compute. Qed.

Example failed_transaction_is_rolled_back :
  exists p',
    (receive worker 0 (TransactionMessage "k1" [insertCarrots; insertLettuce]) ;;
     receive worker 0 (select "k2" All)) readyProcessor
    = Normal tt p'
    /\ emissions (trace p')
       = [ErrorMessage (Some "k1") Toy.syntaxError; DataMessage "k2" (JsArr []) ["name"]]
    /\ engineCalls (trace p')
       = engineCalls (trace readyProcessor)
         ++ [Begin; Exec (sql insertCarrots) []; Exec (sql insertLettuce) [];
             Rollback; Exec "SELECT" []].
Proof. eexists. by vm_compute. Qed.

Lemma query_response_shaped_by_method_witness :
  db readyProcessor = Some Toy.fresh
  /\ exec_result (db_exec Toy.sqlite Toy.fresh "SELECT" []) = inr ([], ["name"])
  /\ exists p',
      receive worker 0 (select "k1" Get) readyProcessor = Normal tt p'
      /\ responses (trace p') = [DataMessage "k1" JsUndefined ["name"]].
Proof.
  split; [reflexivity|]. split; [reflexivity|].
  destruct (query_response_shaped_by_method (fun _ _ => tt) 0 "k1"
              {| sql := "SELECT"; params := [] |} Get readyProcessor Toy.fresh
              [] ["name"] eq_refl eq_refl)
    as (p' & Hrun & _ & Hresp).
  exists p'. split; [exact Hrun|exact Hresp].
Defined.

(** C2. The buffered messages are not always drained: when a destroy
    message was buffered and another message arrived after it, the loop
    of [flushQueue] closes the connection on the destroy message and then
    moves the later message from the front of the buffer to its back for
    ever.  Here: a config message, then a destroy and a query while the
    module is still loading; when the module has loaded, the turn never
    ends, whatever the fuel. *)
Theorem flush_never_ends_after_buffered_destroy : forall fuel,
  (receive worker fuel (ConfigMessage fileConfig) ;;
   receive worker fuel (DestroyMessage "k1") ;;
   receive worker fuel (select "k2" All) ;;
   resume worker fuel) (newProcessor Toy.sqlite tt)
  = Exhausted.
Proof.
  intros fuel.
  set (buffered :=
         set_queuedMessages [DestroyMessage "k1"; select "k2" All]
           (stateOf (newProcessor Toy.sqlite tt)
              (receive worker 0 (ConfigMessage fileConfig)
                 (newProcessor Toy.sqlite tt)))).
  assert (Hbuffered :
            (receive worker fuel (ConfigMessage fileConfig) ;;
             receive worker fuel (DestroyMessage "k1") ;;
             receive worker fuel (select "k2" All))
              (newProcessor Toy.sqlite tt)
            = Normal tt buffered) by reflexivity.
  change ((receive worker fuel (ConfigMessage fileConfig) ;;
           receive worker fuel (DestroyMessage "k1") ;;
           receive worker fuel (select "k2" All) ;;
           resume worker fuel) (newProcessor Toy.sqlite tt))
    with (match (receive worker fuel (ConfigMessage fileConfig) ;;
                 receive worker fuel (DestroyMessage "k1") ;;
                 receive worker fuel (select "k2" All))
                  (newProcessor Toy.sqlite tt) with
          | Normal _ p => resume worker fuel p
          | Thrown e p => Thrown e p
          | Exhausted => Exhausted
          end).
  rewrite Hbuffered.
  set (connected :=
         set_db (E:=Toy.sqlite) (Some Toy.fresh)
           (log (Call (NewOpfsDb "database.sqlite3" "cw"))
              (set_sqlite3 (Some {| opfs := true |}) (set_parked [] buffered)))).
  assert (Hspin : flushQueue worker fuel connected = Exhausted).
  { eapply (flushQueue_spins_after_destroy (fun _ _ => tt) fuel connected);
      [reflexivity|reflexivity|]. by repeat constructor. }
  change (resume worker fuel buffered)
    with (detached (fun p => flushQueue worker fuel p) connected).
  unfold detached, try_catch. by rewrite Hspin.
Qed.

(** C4, refuted as stated. A processor that has handled a destroy
    message dispatches again after a later config message: the query
    that arrived after the destroy message is answered with its data. *)
Lemma destroyed_processor_dispatches_again :
  exists p',
    (receive worker 2 (DestroyMessage "k1") ;;
     receive worker 2 (select "k2" All) ;;
     receive worker 2 (ConfigMessage fileConfig)) readyProcessor
    = Normal tt p'
    /\ emissions (trace p')
       = [SuccessMessage "k1"; DataMessage "k2" (JsArr []) ["name"]]
    /\ engineCalls (trace p')
       = engineCalls (trace readyProcessor)
         ++ [Close; NewOpfsDb "database.sqlite3" "cw"; Exec "SELECT" []].
Proof. eexists. by vm_compute. Qed.

(** The other way back to a connection: two config messages arrive
    before the module has loaded, so two calls of [init] wait for it. The
    first to resume opens the connection, the destroy message closes it,
    and the second, resuming afterwards, opens it again: the query that
    follows is dispatched although no config message came after the
    destroy message. *)
Example suspended_init_reopens_after_destroy :
  exists p',
    (receive worker 2 (ConfigMessage fileConfig) ;;
     receive worker 2 (ConfigMessage fileConfig) ;;
     resume worker 2 ;;
     receive worker 2 (DestroyMessage "k1") ;;
     resume worker 2 ;;
     receive worker 2 (select "k2" All)) (newProcessor Toy.sqlite tt)
    = Normal tt p'
    /\ emissions (trace p')
       = [SuccessMessage "k1"; DataMessage "k2" (JsArr []) ["name"]]
    /\ queuedMessages p' = []
    /\ engineCalls (trace p')
       = [InitModule; InitModule; NewOpfsDb "database.sqlite3" "cw"; Close;
          NewOpfsDb "database.sqlite3" "cw"; Exec "SELECT" []].
Proof. eexists. by vm_compute. Qed.

Lemma destroy_closes_and_followers_wait_witness :
  let turns := [Arrives (select "k2" All); ModuleSettles;
                Arrives (DestroyMessage "k3"); ModuleSettles] in
  db readyProcessor = Some Toy.fresh
  /\ Forall (fun m => isConfig m = false) (arrivals turns)
  /\ parked readyProcessor = []
  /\ exists p',
      receive worker 0 (DestroyMessage "k1") readyProcessor = Normal tt p'
      /\ db p' = None
      /\ trace p'
         = trace readyProcessor ++ [Call Close; Emitted (SuccessMessage "k1")]
      /\ for_of turns (takeTurn worker 0) p'
         = Normal tt (set_queuedMessages [select "k2" All; DestroyMessage "k3"] p').
Proof.
  intros turns. split; [reflexivity|]. split; [by repeat constructor|].
  split; [reflexivity|].
  apply (destroy_closes_and_followers_wait (fun _ _ => tt) 0 "k1" readyProcessor
           Toy.fresh turns);
    [reflexivity|by repeat constructor|by left].
Defined.

Lemma duplicate_rejected_and_registry_reattached_witness :
  map_has "notify" (userFunctions notifyingProcessor) = true
  /\ (exists p',
        receive worker 0 (FunctionMessage "k1" "notify") notifyingProcessor
        = Normal tt p'
        /\ userFunctions p' = userFunctions notifyingProcessor
        /\ trace p'
           = trace notifyingProcessor
             ++ [Emitted (ErrorMessage (Some "k1") (functionExists "notify"))])
  /\ (exists p2,
        receive worker 0 (ConfigMessage fileConfig) notifyingProcessor
        = detached (flushQueue worker 0) p2
        /\ userFunctions p2 = userFunctions notifyingProcessor
        /\ db p2 = Some {| Toy.applied := []; Toy.snapshot := None;
                            Toy.attached := ["notify"] |}
        /\ engineCalls (trace p2)
           = engineCalls (trace notifyingProcessor)
             ++ [Close; NewOpfsDb "database.sqlite3" "cw"; CreateFunction "notify"]).
Proof.
  destruct (duplicate_rejected_and_registry_reattached (fun _ _ => tt) 0
              notifyingProcessor) as [Hdup Hagain].
  split; [reflexivity|]. split.
  - destruct (Hdup _ "k1" "notify" eq_refl eq_refl) as (p' & Hrun & Hfns & _ & Htr).
    by exists p'.
  - destruct (Hagain fileConfig {| opfs := true |}
                (stateOf notifyingProcessor
                   (connect {| opfs := true |} (frameOf fileConfig)
                      (set_config fileConfig notifyingProcessor)))
                Toy.fresh
                {| Toy.applied := []; Toy.snapshot := None; Toy.attached := ["notify"] |}
                eq_refl eq_refl eq_refl eq_refl eq_refl)
      as (p2 & Hrun & Hfns & _ & Hdb & Htr).
    exists p2. repeat split; try done. by rewrite Htr.
Defined.

Lemma setup_failure_reports_unrouted_error_witness :
  let locked := {| databasePath := Some "/locked"; storage := None;
                   create := None; readonly := None; verbose := None |} in
  exists p1 p2,
    SetupFails worker 0 readyProcessor (receive worker 0 (ConfigMessage locked))
               (Error "SQLITE_CANTOPEN") p1
    /\ receive worker 0 (ConfigMessage locked) readyProcessor = Normal tt p2
    /\ db p2 = None
    /\ emissions (trace p2) = [ErrorMessage None (Error "SQLITE_CANTOPEN")].
Proof.
  intros locked.
  assert (Hfails :
    SetupFails worker 0 readyProcessor (receive worker 0 (ConfigMessage locked))
      (Error "SQLITE_CANTOPEN")
      (stateOf readyProcessor
         (connect {| opfs := true |} (frameOf locked) (set_config locked readyProcessor)))).
  { by eapply (fails_on_config worker 0 readyProcessor locked {| opfs := true |}). }
  destruct (setup_failure_reports_unrouted_error (fun _ _ => tt) 0 readyProcessor
              _ _ _ Hfails) as (p2 & Hrun & Hdb & Hem & _).
  eexists _, p2. split; [exact Hfails|]. by repeat split.
Defined.

(** ** The client *)

Section FacadeFacts.
Context (E : Engine) (nanoid : nat -> QueryKey) (fuel : nat).
Implicit Types (c : SQLocal.Client) (s : SQLocal.State E).

Lemma createQuery_destroyed request s :
  SQLocal.isDestroyed (SQLocal.client E s) = true ->
  SQLocal.createQuery E nanoid fuel request s = Thrown SQLocal.clientDestroyed s.
Proof. intros Hd. unfold SQLocal.createQuery. by rewrite Hd. Qed.

Lemma destroy_then_run s :
  exists s',
    SQLocal.destroy_then E s = Normal tt s'
    /\ SQLocal.isDestroyed (SQLocal.client E s') = true
    /\ SQLocal.queriesInProgress (SQLocal.client E s') = ∅
    /\ SQLocal.userCallbacks (SQLocal.client E s') = ∅
    /\ SQLocal.settled (SQLocal.client E s') = SQLocal.settled (SQLocal.client E s).
Proof. destruct s as [c w|p]; by eexists. Qed.

Lemma processMessageEvent_idle message c :
  SQLocal.queriesInProgress c = ∅ ->
  SQLocal.queriesInProgress (SQLocal.processMessageEvent message c).1 = ∅
  /\ SQLocal.settled (SQLocal.processMessageEvent message c).1 = SQLocal.settled c
  /\ SQLocal.isDestroyed (SQLocal.processMessageEvent message c).1 = SQLocal.isDestroyed c.
Proof.
  intros Hq. unfold SQLocal.processMessageEvent, SQLocal.pendingFor.
  destruct message as [k r cs|k|[k|] e|n a]; simpl;
    try destruct (negb (String.eqb k "")); simpl;
    try destruct (SQLocal.userCallbacks c !! n); simpl;
    rewrite ?Hq, ?lookup_empty; simpl; by rewrite ?Hq.
Qed.

Lemma processMessageEvent_routes message c queryKey promise :
  SQLocal.responseKey message = Some queryKey ->
  truthy (Some queryKey) = true ->
  SQLocal.queriesInProgress c !! queryKey = Some promise ->
  SQLocal.processMessageEvent message c
  = (SQLocal.set_queriesInProgress (delete queryKey (SQLocal.queriesInProgress c))
       (SQLocal.set_settled (SQLocal.settled c ++ [(promise, settlementOf message)]) c),
     None).
Proof.
  intros Hkey Htruthy Hpending.
  unfold SQLocal.processMessageEvent, SQLocal.pendingFor.
  destruct message as [k r cs|k|[k|] e|n a]; simpl in *; try done;
    injection Hkey as ->; rewrite Htruthy; simpl; by rewrite Hpending.
Qed.

Lemma processMessageEvent_unrouted message c queryKey :
  SQLocal.responseKey message = Some queryKey ->
  SQLocal.queriesInProgress c !! queryKey = None ->
  (SQLocal.processMessageEvent message c).1 = c.
Proof.
  intros Hkey Hpending. unfold SQLocal.processMessageEvent, SQLocal.pendingFor.
  destruct message as [k r cs|k|[k|] e|n a]; simpl in *; try done;
    injection Hkey as ->; destruct (negb (String.eqb queryKey "")); simpl;
    by rewrite ?Hpending.
Qed.

(** Over a worker a request gets a pending entry before any response can
    arrive; its terminal message settles the promise once and removes the
    entry, and a second message with the same key is not routed. *)
Lemma worker_request_settles_once request c w message :
  SQLocal.isDestroyed c = false ->
  SQLocal.listening w = true ->
  let queryKey := nanoid (SQLocal.drawn c) in
  truthy (Some queryKey) = true ->
  SQLocal.responseKey message = Some queryKey ->
  exists s1 s2,
    SQLocal.createQuery E nanoid fuel request (SQLocal.OverWorker E c w) = Normal (SQLocal.drawn c) s1
    /\ SQLocal.queriesInProgress (SQLocal.client E s1) !! queryKey = Some (SQLocal.drawn c)
    /\ SQLocal.deliver E message s1 = Normal tt s2
    /\ SQLocal.settled (SQLocal.client E s2) = SQLocal.settled c ++ [(SQLocal.drawn c, settlementOf message)]
    /\ SQLocal.queriesInProgress (SQLocal.client E s2) !! queryKey = None
    /\ forall again,
         SQLocal.responseKey again = Some queryKey ->
         (SQLocal.processMessageEvent again (SQLocal.client E s2)).1 = SQLocal.client E s2.
Proof.
  intros Hd Hl queryKey Htruthy Hkey.
  unfold SQLocal.createQuery. simpl. rewrite Hd. simpl.
  eexists _, _. split; [reflexivity|]. simpl.
  split; [by rewrite lookup_insert_eq|].
  rewrite Hl.
  erewrite (processMessageEvent_routes message _ queryKey (SQLocal.drawn c));
    [|done|done|by simpl; rewrite lookup_insert_eq].
  split; [reflexivity|]. simpl.
  split; [done|]. split; [by rewrite lookup_delete_eq|].
  intros again Hagain. apply (processMessageEvent_unrouted again _ queryKey Hagain).
  simpl. by rewrite lookup_delete_eq.
Qed.

(** With an injective key supply, the key of a request was handed to no
    earlier request. *)
Lemma key_is_fresh c earlier :
  Inj (=) (=) nanoid ->
  earlier < SQLocal.drawn c ->
  nanoid earlier <> nanoid (SQLocal.drawn c).
Proof. intros Hinj Hlt Heq. apply Hinj in Heq. lia. Qed.

Lemma callback_keeps_pending name args c :
  SQLocal.queriesInProgress (SQLocal.processMessageEvent (CallbackMessage name args) c).1
  = SQLocal.queriesInProgress c
  /\ SQLocal.settled (SQLocal.processMessageEvent (CallbackMessage name args) c).1 = SQLocal.settled c
  /\ (SQLocal.processMessageEvent (CallbackMessage name args) c).2 = None.
Proof. simpl. by destruct (SQLocal.userCallbacks c !! name). Qed.

Lemma relay_in_process calls : forall (p : Processor E SQLocal.Client),
  exists p',
    for_of calls (fun call => emitMessage SQLocal.listener (CallbackMessage call.1 call.2)) p
    = Normal tt p'
    /\ db p' = db p
    /\ emissions (trace p') = emissions (trace p) ++ omap emittedOf (relayed <$> calls)
    /\ SQLocal.queriesInProgress (host p') = SQLocal.queriesInProgress (host p)
    /\ SQLocal.settled (host p') = SQLocal.settled (host p).
Proof.
  induction calls as [|call calls IH]; intros p.
  - exists p. simpl. by rewrite app_nil_r.
  - destruct (callback_keeps_pending call.1 call.2 (host p)) as (Hq & Hs & Hnone).
    assert (Hemit : exists p1,
      emitMessage SQLocal.listener (CallbackMessage call.1 call.2) p = Normal tt p1
      /\ db p1 = db p
      /\ trace p1 = trace p ++ [relayed call]
      /\ host p1 = (SQLocal.processMessageEvent (CallbackMessage call.1 call.2) (host p)).1).
    { unfold emitMessage, SQLocal.listener.
      destruct (SQLocal.processMessageEvent (CallbackMessage call.1 call.2) (host p))
        as [h thrown] eqn:Hpme.
      simpl in Hnone. subst thrown. by eexists. }
    destruct Hemit as (p1 & Hrun1 & Hdb1 & Htr1 & Hhost1).
    destruct (IH p1) as (p' & Hrun & Hdb & Hem & Hq' & Hs').
    exists p'. split; [|split; [|split; [|split]]].
    + simpl. by erewrite bind_normal by exact Hrun1.
    + by rewrite Hdb.
    + rewrite Hem, Htr1. unfold emissions. rewrite omap_app. simpl.
      by rewrite <- app_assoc.
    + by rewrite Hq', Hhost1.
    + by rewrite Hs', Hhost1.
Qed.

(** With an in-process processor that has its connection, no query is
    ever answered to its caller: the data message is emitted, and so
    received, before the pending entry exists. *)
Lemma in_process_query_is_never_settled
    (p : Processor E SQLocal.Client) d statement method rows columns :
  db p = Some d ->
  SQLocal.isDestroyed (host p) = false ->
  exec_result (db_exec E d (sql statement) (params statement)) = inr (rows, columns) ->
  let promise := SQLocal.drawn (host p) in
  let queryKey := nanoid promise in
  SQLocal.queriesInProgress (host p) !! queryKey = None ->
  exists p',
    SQLocal.createQuery E nanoid fuel (SQLocal.QueryRequest statement method) (SQLocal.InProcess E p)
    = Normal promise (SQLocal.InProcess E p')
    /\ last (emissions (trace p'))
       = Some (DataMessage queryKey (shapeRows method rows) columns)
    /\ SQLocal.settled (host p') = SQLocal.settled (host p)
    /\ SQLocal.queriesInProgress (host p') !! queryKey = Some promise.
Proof.
  intros Hdb Hd Hres promise queryKey Hfresh.
  unfold SQLocal.createQuery. simpl. rewrite Hd.
  set (p0 := set_host (SQLocal.set_drawn (S promise) (host p)) p).
  erewrite bind_normal by reflexivity.
  assert (Hpost : exists p1,
    receive SQLocal.listener fuel (QueryMessage queryKey statement method) p0 = Normal tt p1
    /\ last (emissions (trace p1))
       = Some (DataMessage queryKey (shapeRows method rows) columns)
    /\ SQLocal.settled (host p1) = SQLocal.settled (host p)
    /\ SQLocal.queriesInProgress (host p1) = SQLocal.queriesInProgress (host p)).
  { rewrite (receive_query_dispatched _ _ _ _ _ p0 d Hdb).
    set (r := db_exec E d (sql statement) (params statement)) in *.
    set (p1 := set_db (Some (exec_db r))
                 (log (Call (Exec (sql statement) (params statement))) p0)).
    destruct (relay_in_process (exec_invoked r) p1) as (p2 & Hrun & Hdb2 & Hem & Hq & Hs).
    assert (Hexec : dbExec SQLocal.listener statement p0 = Normal (rows, columns) p2).
    { rewrite (dbExec_connected _ _ p0 d Hdb). fold r p1.
      erewrite bind_normal by exact Hrun. by rewrite Hres. }
    set (response := DataMessage queryKey (shapeRows method rows) columns).
    assert (Hdrop : SQLocal.processMessageEvent response (host p2) = (host p2, None)).
    { unfold SQLocal.processMessageEvent, SQLocal.pendingFor. simpl.
      destruct (negb (String.eqb queryKey "")); simpl; [|done].
      rewrite Hq. subst p1 p0. simpl. by rewrite Hfresh. }
    assert (Hemit : emitMessage SQLocal.listener response p2
                    = Normal tt (set_host (host p2) (log (Emitted response) p2))).
    { unfold emitMessage, SQLocal.listener. by rewrite Hdrop. }
    eexists. split.
    - erewrite try_normal; [reflexivity|].
      erewrite bind_normal by exact Hexec. exact Hemit.
    - simpl. split; [|by rewrite Hs, Hq].
      unfold emissions. rewrite omap_app. simpl. by rewrite last_snoc. }
  destruct Hpost as (p1 & Hrun & Hlast & Hs & Hq).
  change (SQLocal.update E _ (SQLocal.InProcess E p)) with (SQLocal.InProcess E p0).
  erewrite bind_normal
    by (unfold SQLocal.post, queryKey, promise in *; by rewrite Hrun).
  eexists. split; [reflexivity|]. simpl.
  split; [done|]. split; [done|]. by rewrite lookup_insert_eq.
Qed.

(** C5. Once [destroy()] has completed, each of [sql], [exec],
    [transaction], [createCallbackFunction] and [destroy] throws the
    "client destroyed" error before anything is posted: the state, and
    with it the list of posted messages or the in-process processor, is
    left as it was. The error differs from the one a duplicate
    registration is answered with. *)
Theorem calls_after_destroy_fail_locally s :
  exists s',
    SQLocal.destroy_then E s = Normal tt s'
    /\ SQLocal.isDestroyed (SQLocal.client E s') = true
    /\ (forall queryTemplate values,
          SQLocal.sql E nanoid fuel queryTemplate values s' = Thrown SQLocal.clientDestroyed s')
    /\ (forall text values method,
          SQLocal.exec E nanoid fuel text values method s' = Thrown SQLocal.clientDestroyed s')
    /\ (forall statements,
          SQLocal.transaction E nanoid fuel statements s' = Thrown SQLocal.clientDestroyed s')
    /\ (forall functionName,
          SQLocal.createCallbackFunction E nanoid fuel functionName s'
          = Thrown SQLocal.clientDestroyed s')
    /\ SQLocal.destroy E nanoid fuel s' = Thrown SQLocal.clientDestroyed s'
    /\ (forall functionName, SQLocal.clientDestroyed <> functionExists functionName).
Proof.
  destruct (destroy_then_run s) as (s' & Hrun & Hd & _).
  exists s'. repeat split; try done; intros;
    by apply createQuery_destroyed.
Qed.

Lemma afterwards_stays_destroyed step s :
  SQLocal.isDestroyed (SQLocal.client E s) = true ->
  SQLocal.queriesInProgress (SQLocal.client E s) = ∅ ->
  SQLocal.isDestroyed (SQLocal.client E (afterwards E nanoid fuel step s)) = true
  /\ SQLocal.queriesInProgress (SQLocal.client E (afterwards E nanoid fuel step s)) = ∅
  /\ SQLocal.settled (SQLocal.client E (afterwards E nanoid fuel step s)) = SQLocal.settled (SQLocal.client E s).
Proof.
  intros Hd Hq.
  destruct step as [t v|t v m|ss|n| |message]; simpl;
    try (unfold SQLocal.sql, SQLocal.exec, SQLocal.transaction, SQLocal.createCallbackFunction, SQLocal.destroy;
         by rewrite createQuery_destroyed).
  destruct (processMessageEvent_idle message (SQLocal.client E s) Hq) as (Hq' & Hs' & Hd').
  destruct s as [c w|p]; simpl in *; by rewrite ?Hd' in *.
Qed.

(** C9. When [destroy()] completes, the map of pending requests is
    emptied and no promise is settled by it; whatever the client does or
    receives afterwards, no further promise is ever settled, so the calls
    that were still waiting never complete. *)
Theorem destroy_abandons_pending_requests s :
  exists s',
    SQLocal.destroy_then E s = Normal tt s'
    /\ SQLocal.queriesInProgress (SQLocal.client E s') = ∅
    /\ SQLocal.settled (SQLocal.client E s') = SQLocal.settled (SQLocal.client E s)
    /\ (forall message, SQLocal.deliver E message s' = Normal tt s')
    /\ (forall steps,
          SQLocal.settled (SQLocal.client E (foldl (fun s step => afterwards E nanoid fuel step s) s' steps))
          = SQLocal.settled (SQLocal.client E s)).
Proof.
  destruct (destroy_then_run s) as (s' & Hrun & Hd & Hq & _ & Hs).
  exists s'. split; [done|]. split; [done|]. split; [done|]. split.
  - intros message. destruct s as [c w|p]; by inversion Hrun.
  - intros steps. rewrite <- Hs. clear Hrun Hs.
    revert s' Hd Hq. induction steps as [|step steps IH]; intros s' Hd Hq; [done|].
    simpl. destruct (afterwards_stays_destroyed step s' Hd Hq) as (Hd' & Hq' & Hs').
    by rewrite IH.
Qed.
End FacadeFacts.

(** C3. With an in-process processor that has its connection, the
    response to a request reaches [processMessageEvent] while
    [postMessage] is still running, that is before [createQuery] has put
    the pending entry into the map: the data message finds no entry and
    is dropped, the entry is made afterwards, and its promise is never
    settled.  Here: [new SQLocal({storage: 'local'})], the module loads,
    then a first query. *)
Theorem inprocess_response_precedes_registration :
  exists p,
    SQLocal.exec Toy.sqlite keys 1 "SELECT" [] All (localClient 1)
    = Normal 0 (SQLocal.InProcess Toy.sqlite p)
    /\ emissions (trace p) = [DataMessage "q0" (JsArr []) ["name"]]
    /\ SQLocal.settled (host p) = []
    /\ SQLocal.queriesInProgress (host p) !! "q0" = Some 0
    /\ queuedMessages p = []
    /\ parked p = [].
Proof. eexists. split; [by vm_compute|]. by vm_compute. Qed.

(** The same request over a worker: the entry is made first, and the
    same data message settles it. *)
Example worker_response_follows_registration :
  exists s1 s2,
    SQLocal.exec Toy.sqlite keys 1 "SELECT" [] All
      (SQLocal.OverWorker Toy.sqlite (SQLocal.newClient None)
         {| SQLocal.posted := []; SQLocal.listening := true;
            SQLocal.terminated := false |})
    = Normal 0 s1
    /\ SQLocal.deliver Toy.sqlite (DataMessage "q0" (JsArr []) ["name"]) s1
       = Normal tt s2
    /\ SQLocal.settled (SQLocal.client Toy.sqlite s2)
       = [(0, SQLocal.Resolved (DataMessage "q0" (JsArr []) ["name"]))]
    /\ SQLocal.queriesInProgress (SQLocal.client Toy.sqlite s2) !! "q0" = None.
Proof. eexists _, _. split; [by vm_compute|]. split; by vm_compute. Qed.

Section UndefinedRows.
Context {E : Engine} {H : Type} (step : OutputMessage -> H -> H).

(** C10. A ['get'] query whose statement yields no row is answered with a
    data message whose rows are [undefined], the out-of-bounds element
    [rows[0]], not an empty array; the client resolves the pending
    promise with that message, and [exec] returns the [undefined] as its
    rows instead of the empty default. *)
Theorem get_without_rows_yields_undefined
    fuel queryKey statement (p : Processor E H) d columns :
  db p = Some d ->
  exec_result (db_exec E d (sql statement) (params statement)) = inr ([], columns) ->
  let response := DataMessage queryKey JsUndefined columns in
  (exists p',
     receive (forwarding step) fuel (QueryMessage queryKey statement Get) p
     = Normal tt p'
     /\ responses (trace p') = responses (trace p) ++ [response])
  /\ (forall c promise,
        truthy (Some queryKey) = true ->
        SQLocal.queriesInProgress c !! queryKey = Some promise ->
        exists c',
          SQLocal.processMessageEvent response c = (c', None)
          /\ SQLocal.settled c'
             = SQLocal.settled c ++ [(promise, SQLocal.Resolved response)])
  /\ SQLocal.exec_then response
     = {| SQLocal.rows := JsUndefined; SQLocal.columns := columns |}
  /\ SQLocal.rows (SQLocal.exec_then response) <> JsArr [].
Proof.
  intros Hdb Hres response.
  split; [|split; [|split; [reflexivity|discriminate]]].
  - rewrite (receive_query _ _ _ _ _ _ _ Hdb).
    destruct (dbExec_forwarding step statement p d Hdb) as (p1 & Hrun & _ & Htr).
    rewrite Hres in Hrun.
    erewrite try_normal
      by (erewrite bind_normal; [apply emitMessage_forwarding|exact Hrun]).
    eexists. split; [reflexivity|].
    simpl. rewrite Htr, !responses_app, responses_executing.
    by rewrite app_nil_r.
  - intros c promise Htruthy Hpending.
    rewrite (processMessageEvent_routes response c queryKey promise) by done.
    eexists. split; reflexivity.
Qed.
End UndefinedRows.

Lemma get_without_rows_yields_undefined_witness :
  db readyProcessor = Some Toy.fresh
  /\ exec_result (db_exec Toy.sqlite Toy.fresh "SELECT" []) = inr ([], ["name"])
  /\ (exists p',
        receive worker 0 (select "q0" Get) readyProcessor = Normal tt p'
        /\ responses (trace p') = [DataMessage "q0" JsUndefined ["name"]])
  /\ SQLocal.rows (SQLocal.exec_then (DataMessage "q0" JsUndefined ["name"]))
     = JsUndefined.
Proof.
  split; [reflexivity|]. split; [reflexivity|].
  destruct (get_without_rows_yields_undefined (fun _ _ => tt) 0 "q0"
              {| sql := "SELECT"; params := [] |} readyProcessor Toy.fresh ["name"]
              eq_refl eq_refl) as (Hproc & _ & Hexec & _).
  split; [exact Hproc|]. by rewrite Hexec.
Defined.

(** ** Properties that every turn of the processor keeps *)

Section KeepsFacts.
Context {E : Engine} {H : Type}.
Variable onmessage : option (OutputMessage -> H -> H * option JsError).
Variable I : Processor E H -> Prop.
Hypothesis HI : Stable onmessage I.
Implicit Types (p : Processor E H).

Lemma Keeps_ret {A} (a : A) : Keeps I (ret a).
Proof. by intros p Hp. Qed.

Lemma Keeps_throw {A} e : Keeps I (throw e : Comp (Processor E H) A).
Proof. by intros p Hp. Qed.

Lemma Keeps_bind {A B} (m : Comp (Processor E H) A) (k : A -> Comp (Processor E H) B) :
  Keeps I m -> (forall a, Keeps I (k a)) -> Keeps I (bind m k).
Proof.
  intros Hm Hk p Hp. unfold bind. specialize (Hm p Hp).
  destruct (m p) as [a p1|e p1|]; try done. by apply Hk.
Qed.

Lemma Keeps_try {A} (m : Comp (Processor E H) A) handler :
  Keeps I m -> (forall e, Keeps I (handler e)) -> Keeps I (try_catch m handler).
Proof.
  intros Hm Hh p Hp. unfold try_catch. specialize (Hm p Hp).
  destruct (m p) as [a p1|e p1|]; try done. by apply Hh.
Qed.

Lemma Keeps_detached (m : Comp (Processor E H) unit) :
  Keeps I m -> Keeps I (detached m).
Proof. intros Hm. apply Keeps_try; [done|]. intros e. apply Keeps_ret. Qed.

Lemma Keeps_for_of {A} (xs : list A) (body : A -> Comp (Processor E H) unit) :
  (forall x, Keeps I (body x)) -> Keeps I (for_of xs body).
Proof.
  intros Hbody. induction xs as [|x xs IH]; simpl.
  - apply Keeps_ret.
  - apply Keeps_bind; auto.
Qed.

Lemma Keeps_emitMessage m : Keeps I (emitMessage onmessage m).
Proof.
  intros p Hp. unfold emitMessage.
  pose proof (fun listener => stable_host onmessage I HI listener m
                (log (Emitted m) p)) as Hhost.
  pose proof (stable_log onmessage I HI (Emitted m) p Hp) as Hlog.
  destruct onmessage as [listener|]; [|done].
  specialize (Hhost listener eq_refl Hlog). simpl in Hhost.
  by destruct (listener m (host p)) as [h [e|]].
Qed.

Lemma Keeps_onDb c f : Keeps I (onDb c f).
Proof.
  intros p Hp. unfold onDb. destruct (db p) as [d|] eqn:Hdb; [|done].
  assert (Hafter : forall d', I (set_db (Some d') (log (Call c) p))).
  { intros d'. apply (stable_db onmessage I HI).
    - by apply (stable_log onmessage I HI).
    - simpl. rewrite Hdb. by eexists. }
  destruct (f d) as [d' [e|]]; apply Hafter.
Qed.

Lemma Keeps_closeDb : Keeps I closeDb.
Proof.
  intros p Hp. unfold closeDb. destruct (db p); [|done].
  apply (stable_close onmessage I HI). by apply (stable_log onmessage I HI).
Qed.

Lemma Keeps_dbExec s : Keeps I (dbExec onmessage s).
Proof.
  intros p Hp. unfold dbExec. destruct (db p) as [d|] eqn:Hdb; [|done].
  apply Keeps_bind.
  - apply Keeps_for_of. intros call. apply Keeps_emitMessage.
  - intros _. destruct (exec_result _); [apply Keeps_throw|apply Keeps_ret].
  - apply (stable_db onmessage I HI).
    + by apply (stable_log onmessage I HI).
    + simpl. rewrite Hdb. by eexists.
Qed.

Lemma Keeps_dbTransaction (callback : Comp (Processor E H) unit) :
  Keeps I callback -> Keeps I (dbTransaction callback).
Proof.
  intros Hc. unfold dbTransaction. apply Keeps_bind; [apply Keeps_onDb|].
  intros _. apply Keeps_try.
  - apply Keeps_bind; [done|]. intros _. apply Keeps_onDb.
  - intros e. apply Keeps_bind; [apply Keeps_onDb|]. intros _. apply Keeps_throw.
Qed.

Lemma Keeps_exec message : Keeps I (exec onmessage message).
Proof.
  intros p Hp. unfold exec. destruct (db p) as [d|]; [|done].
  destruct message as [c|k s m|k ss|k n|k]; try done.
  - apply Keeps_try; [|intros e; apply Keeps_emitMessage|done].
    apply Keeps_bind; [apply Keeps_dbExec|]. intros r. apply Keeps_emitMessage.
  - apply Keeps_try; [|intros e; apply Keeps_emitMessage|done].
    apply Keeps_bind; [|intros _; apply Keeps_emitMessage].
    apply Keeps_dbTransaction, Keeps_for_of. intros s.
    apply Keeps_bind; [apply Keeps_dbExec|]. intros _. apply Keeps_ret.
Qed.

Lemma Keeps_initUserFunction fn : Keeps I (initUserFunction fn).
Proof.
  intros p Hp. unfold initUserFunction. destruct (db p); [|done].
  by apply Keeps_onDb.
Qed.

Lemma Keeps_destroy queryKey : Keeps I (destroy onmessage queryKey).
Proof.
  apply Keeps_bind; [apply Keeps_closeDb|]. intros _. apply Keeps_emitMessage.
Qed.

Lemma Keeps_createCallbackFunction queryKey functionName :
  Keeps I (createCallbackFunction onmessage queryKey functionName).
Proof.
  intros p Hp. unfold createCallbackFunction.
  destruct (map_has functionName (userFunctions p)) eqn:Hhas;
    [by apply Keeps_emitMessage|].
  pose proof (Keeps_initUserFunction {| fn_name := functionName |} p Hp) as Hkept.
  assert (Hsame : match initUserFunction {| fn_name := functionName |} p with
                  | Normal _ q | Thrown _ q => userFunctions q = userFunctions p
                  | Exhausted => True
                  end).
  { unfold initUserFunction. destruct (db p); [|done].
    pose proof (Steady_onDb (CreateFunction functionName)
                  (fun d => db_createFunction E d functionName) p) as Hs.
    simpl in *. destruct (onDb _ _ p); try done; by inversion Hs. }
  unfold try_catch, bind at 1.
  destruct (initUserFunction {| fn_name := functionName |} p) as [[] q|e q|];
    [|by apply Keeps_emitMessage|done].
  unfold bind, modify.
  assert (Hreg : I (set_userFunctions
                      (map_set functionName {| fn_name := functionName |}
                         (userFunctions q)) q)).
  { apply (stable_register onmessage I HI); [done|by rewrite Hsame]. }
  pose proof (Keeps_emitMessage (SuccessMessage queryKey) _ Hreg) as Hemit.
  destruct (emitMessage onmessage (SuccessMessage queryKey) _) as [[] q'|e q'|];
    [done| |done].
  by apply Keeps_emitMessage.
Qed.

Lemma Keeps_connect module fr p :
  I p ->
  is_Some (sqlite3 p) ->
  match connect module fr p with
  | Normal _ p' | Thrown _ p' => I p'
  | Exhausted => True
  end.
Proof.
  intros Hp Hmod.
  assert (Hclose : exists p0, closeDb p = Normal tt p0 /\ I p0 /\ db p0 = None
                              /\ is_Some (sqlite3 p0)).
  { pose proof (Keeps_closeDb p Hp) as Hk. unfold closeDb in *.
    destruct (db p) eqn:Hdb; eexists; (split; [reflexivity|]); by simpl. }
  destruct Hclose as (p0 & Hclose & Hp0 & Hdb0 & Hmod0).
  unfold connect. erewrite bind_normal by exact Hclose.
  assert (Hmake : forall c made,
    match construct c made p0 with
    | Normal _ p' | Thrown _ p' => I p'
    | Exhausted => True
    end).
  { intros c made. unfold construct. destruct made as [e|d].
    - by apply (stable_log onmessage I HI).
    - apply (stable_open onmessage I HI); [by apply (stable_log onmessage I HI)|done|done]. }
  assert (Hwarn : forall c made w,
    match (construct c made ;; warn w) p0 with
    | Normal _ p' | Thrown _ p' => I p'
    | Exhausted => True
    end).
  { intros c made w. unfold bind. specialize (Hmake c made).
    destruct (construct c made p0) as [[] p1|e p1|]; try done.
    by apply (stable_log onmessage I HI). }
  destruct (isOpfsOrUnset (frame_storage fr) && truthy (frame_databasePath fr)).
  - destruct (opfs module); [apply Hmake|apply Hwarn].
  - destruct (frame_storage fr) as [[| |]|]; first [apply Hmake|apply Hwarn].
Qed.

Lemma Keeps_loadAndConnect fr : Keeps I (loadAndConnect fr).
Proof.
  intros p Hp. unfold loadAndConnect.
  destruct (sqlite3InitModule E) as [e|module]; [done|].
  unfold bind, modify. apply Keeps_connect.
  - by apply (stable_module onmessage I HI).
  - by eexists.
Qed.

Section Dispatch.
Variable flush : Comp (Processor E H) unit.
Hypothesis Hflush : Keeps I flush.

Lemma initFrom_keeps (attempt : Comp (Processor E H) unit) p :
  match attempt p with
  | Normal _ p' | Thrown _ p' => I p'
  | Exhausted => True
  end ->
  match initFrom onmessage flush attempt p with
  | Normal _ p' | Thrown _ p' => I p'
  | Exhausted => True
  end.
Proof.
  intros Hattempt. unfold initFrom, bind at 1, try_catch, bind at 1.
  destruct (attempt p) as [[] p1|e p1|]; [| |done].
  - unfold ret at 1.
    apply (Keeps_bind (gets userFunctions)); [by intros q Hq| |done].
    intros fns. apply Keeps_bind; [|by intros _].
    apply Keeps_for_of. intros entry. apply Keeps_initUserFunction.
  - pose proof (Keeps_bind (emitMessage onmessage (ErrorMessage None e))
                  (fun _ => closeDb ;; ret false)
                  (Keeps_emitMessage _)
                  (fun _ => Keeps_bind closeDb (fun _ => ret false) Keeps_closeDb
                              (fun _ => Keeps_ret false)) p1 Hattempt) as Hcatch.
    destruct ((emitMessage onmessage (ErrorMessage None e) ;; closeDb ;; ret false) p1)
      as [[|] p2|e' p2|]; try done.
    apply (Keeps_bind (gets userFunctions)); [by intros q Hq| |done].
    intros fns. apply Keeps_bind; [|by intros _].
    apply Keeps_for_of. intros entry. apply Keeps_initUserFunction.
Qed.

Lemma Keeps_init : Keeps I (init onmessage flush).
Proof.
  intros p Hp. unfold init. destruct (negb (configValid (config p))); [done|].
  destruct (sqlite3 p) as [module|] eqn:Hmod.
  - apply initFrom_keeps. apply Keeps_connect; [done|]. rewrite Hmod. by eexists.
  - apply (stable_parked onmessage I HI). by apply (stable_log onmessage I HI).
Qed.

Lemma Keeps_moduleLoaded : Keeps I (moduleLoaded onmessage flush).
Proof.
  intros p Hp. unfold moduleLoaded. destruct (parked p) as [|fr rest]; [done|].
  apply Keeps_detached; [|by apply (stable_parked onmessage I HI)].
  intros q Hq. apply initFrom_keeps. by apply Keeps_loadAndConnect.
Qed.

Lemma Keeps_postMessage message : Keeps I (postMessage onmessage flush message).
Proof.
  intros p Hp. unfold postMessage, noDb.
  destruct (db p) as [d|] eqn:Hdb; simpl.
  - destruct message as [c|k s m|k ss|k n|k].
    + apply Keeps_bind; [|intros _; apply Keeps_detached, Keeps_init|done].
      intros q Hq. by apply (stable_config onmessage I HI).
    + by apply Keeps_exec.
    + by apply Keeps_exec.
    + by apply Keeps_createCallbackFunction.
    + by apply Keeps_destroy.
  - destruct message as [c|k s m|k ss|k n|k]; simpl;
      try (by apply (stable_push onmessage I HI)).
    apply Keeps_bind; [|intros _; apply Keeps_detached, Keeps_init|done].
    intros q Hq. by apply (stable_config onmessage I HI).
Qed.
End Dispatch.

Lemma Keeps_flushQueue fuel : Keeps I (flushQueue onmessage fuel).
Proof.
  induction fuel as [|fuel IH]; intros p Hp; [done|].
  simpl. destruct (queuedMessages p) as [|message rest] eqn:Hq; [done|].
  apply Keeps_bind; [by apply Keeps_postMessage|by intros _|].
  by apply (stable_shift onmessage I HI message).
Qed.

Lemma Keeps_receive fuel message : Keeps I (receive onmessage fuel message).
Proof. apply Keeps_postMessage, Keeps_flushQueue. Qed.

Lemma Keeps_resume fuel : Keeps I (resume onmessage fuel).
Proof. apply Keeps_moduleLoaded, Keeps_flushQueue. Qed.

Lemma turns_keep fuel turns : forall p,
  I p -> I (foldl (turn onmessage fuel) p turns).
Proof.
  induction turns as [|t turns IH]; intros p Hp; [done|].
  simpl. apply IH. destruct t as [message|]; simpl.
  - pose proof (Keeps_receive fuel message p Hp) as Hk.
    by destruct (receive onmessage fuel message p).
  - pose proof (Keeps_resume fuel p Hp) as Hk.
    by destruct (resume onmessage fuel p).
Qed.
End KeepsFacts.

(** ** What the registry and the buffer of a processor always look like *)

Lemma map_has_false {V} (k : string) (m : list (string * V)) :
  map_has k m = false <-> k ∉ m.*1.
Proof.
  unfold map_has. induction m as [|[k' v] m IH]; simpl.
  - split; [intros _; apply not_elem_of_nil|done].
  - rewrite orb_false_iff, IH, not_elem_of_cons.
    destruct (String.eqb_spec k k'); intuition congruence.
Qed.

Lemma map_set_absent {V} (k : string) (v : V) (m : list (string * V)) :
  map_has k m = false -> map_set k v m = m ++ [(k, v)].
Proof.
  unfold map_has. induction m as [|[k' v'] m IH]; simpl; [done|].
  rewrite orb_false_iff. intros [Hne Hrest]. rewrite Hne. by rewrite IH.
Qed.

Lemma WellFormed_stable {E : Engine} {H : Type}
    (onmessage : option (OutputMessage -> H -> H * option JsError)) :
  Stable onmessage (WellFormed (E:=E) (H:=H)).
Proof.
  split; unfold WellFormed; simpl;
    try (intros; intuition eauto; fail).
  - intros p (Hnd & Hnames & Hq & Hdb). by repeat split.
  - intros m p (Hnd & Hnames & Hq & Hdb) Hm _. repeat split; try done.
    apply Forall_app. split; [done|]. by constructor.
  - intros m rest p (Hnd & Hnames & Hq & Hdb) Hrest. repeat split; try done.
    rewrite Hrest in Hq. by inversion Hq.
  - intros name p (Hnd & Hnames & Hq & Hdb) Hhas. rewrite (map_set_absent _ _ _ Hhas).
    repeat split; try done.
    + rewrite fmap_app. apply NoDup_app. split; [done|]. split.
      * intros k Hk Hin. apply map_has_false in Hhas. simpl in Hin.
        apply list_elem_of_singleton in Hin. by subst.
      * apply NoDup_singleton.
    + apply Forall_app. split; [done|]. by constructor.
Qed.

Lemma keys_inj : Inj (=) (=) keys.
Proof.
  intros n1 n2 Heq. unfold keys in Heq. simpl in Heq.
  injection Heq as Heq. by apply (inj pretty).
Qed.

(** X1. Whatever messages arrive and whenever the module promise
    settles, and whatever the listener does, the processor keeps its
    shape: the registry holds at most one function per name, each filed
    under its own name; no config message is ever buffered; and a
    connection exists only after the module has been loaded. *)
Theorem processor_stays_well_formed {E : Engine} {H : Type}
    (onmessage : option (OutputMessage -> H -> H * option JsError))
    (fuel : nat) (h : H) (turns : list Turn) :
  WellFormed (foldl (turn onmessage fuel) (newProcessor E h) turns).
Proof.
  apply (turns_keep onmessage WellFormed (WellFormed_stable onmessage)).
  unfold WellFormed. simpl. repeat split; try constructor.
  by intros [? ?].
Qed.

(** X2. No turn ever removes or replaces a registered function, not even
    a destroy message or a new configuration: the registry only grows at
    its end. *)
Theorem registered_functions_are_kept {E : Engine} {H : Type}
    (onmessage : option (OutputMessage -> H -> H * option JsError))
    (fuel : nat) (p : Processor E H) (turns : list Turn) :
  userFunctions p `prefix_of` userFunctions (foldl (turn onmessage fuel) p turns).
Proof.
  apply (turns_keep onmessage (fun q => userFunctions p `prefix_of` userFunctions q));
    [|done].
  split; simpl; try done.
  intros name q Hq Hhas. rewrite (map_set_absent _ _ _ Hhas). by apply prefix_app_r.
Qed.

(** ** More on the processor behind a listener that does not throw *)

Section DispatchFacts.
Context {E : Engine} {H : Type} (step : OutputMessage -> H -> H).
Implicit Types (p : Processor E H) (d : Db E).

Lemma initFrom_connected flush (attempt : Comp (Processor E H) unit) p p1 d1 d2 :
  attempt p = Normal tt p1 ->
  db p1 = Some d1 ->
  attachAll d1 (userFunctions p1).*2 = Some d2 ->
  exists p2,
    initFrom (forwarding step) flush attempt p = flush p2
    /\ db p2 = Some d2
    /\ trace p2 = trace p1 ++ attaching (userFunctions p1).*2
    /\ settings p2 = settings p1.
Proof.
  intros Hattempt Hdb1 Hattach.
  destruct (attach_registry (userFunctions p1).*2 p1 d1 d2 Hdb1 Hattach)
    as (p2 & Hrun & Hdb2 & Htr2 & Hset2).
  exists p2. split; [|done].
  unfold initFrom.
  erewrite bind_normal
    by (erewrite try_normal; [reflexivity|];
        erewrite bind_normal; [reflexivity|exact Hattempt]).
  simpl. unfold bind at 1, gets at 1.
  erewrite bind_normal; [reflexivity|]. by rewrite for_of_snd.
Qed.

Lemma loadAndConnect_returned fr p p1 :
  loadAndConnect fr p = Normal tt p1 ->
  is_Some (db p1)
  /\ userFunctions p1 = userFunctions p
  /\ queuedMessages p1 = queuedMessages p
  /\ emissions (trace p1) = emissions (trace p).
Proof.
  unfold loadAndConnect. destruct (sqlite3InitModule E) as [e|module]; [done|].
  unfold bind, modify. intros Hrun.
  pose proof (connect_outcome module fr (set_sqlite3 (Some module) p)) as Hout.
  rewrite Hrun in Hout. destruct Hout as (Hdb & Hset & _ & Hem).
  repeat split; try done; by inversion Hset.
Qed.

Lemma responses_attaching fns : responses (attaching fns) = [].
Proof. induction fns as [|fn fns IH]; [done|exact IH]. Qed.

(** X3. While the processor has no connection, every message other than
    a config message is put at the end of the buffer and nothing else
    happens: no engine call, no emission, whoever listens. *)
Theorem messages_wait_in_arrival_order
    (onmessage : option (OutputMessage -> H -> H * option JsError))
    fuel messages p :
  db p = None ->
  Forall (fun m => isConfig m = false) messages ->
  for_of messages (receive onmessage fuel) p
  = Normal tt (set_queuedMessages (queuedMessages p ++ messages) p).
Proof.
  intros Hdb Hall.
  exact (buffered_in_arrival_order onmessage (flushQueue onmessage fuel) messages p
           Hdb Hall).
Qed.

(** X4. One response per request: a message other than a config message
    that is dispatched is answered by exactly one response (data, success
    or error), and that response carries the key of the message; the
    buffer is not touched, and only a destroy message ends the
    connection. *)
Theorem every_dispatched_request_gets_one_response fuel message p d :
  db p = Some d ->
  isConfig message = false ->
  exists p' response,
    receive (forwarding step) fuel message p = Normal tt p'
    /\ responses (trace p') = responses (trace p) ++ [response]
    /\ SQLocal.responseKey response = requestKey message
    /\ queuedMessages p' = queuedMessages p
    /\ (isDestroy message = false -> is_Some (db p')).
Proof. apply dispatch_answers_once. Qed.

(** X5. When the module has loaded, the connection opens and the
    registered functions attach, the messages that were buffered in the
    meantime are answered one by one in their arrival order and the
    buffer ends empty, provided no destroy message is among them. *)
Theorem buffered_requests_are_answered_in_order_once_ready
    fuel p fr rest p1 d1 d2 :
  parked p = fr :: rest ->
  loadAndConnect fr (set_parked rest p) = Normal tt p1 ->
  db p1 = Some d1 ->
  attachAll d1 (userFunctions p).*2 = Some d2 ->
  Forall (fun m => isConfig m = false /\ isDestroy m = false) (queuedMessages p) ->
  length (queuedMessages p) < fuel ->
  exists p' answers,
    resume (forwarding step) fuel p = Normal tt p'
    /\ queuedMessages p' = []
    /\ responses (trace p') = responses (trace p1) ++ answers
    /\ SQLocal.responseKey <$> answers = requestKey <$> queuedMessages p.
Proof.
  intros Hparked Hload Hdb1 Hattach Hall Hlen.
  destruct (loadAndConnect_returned _ _ _ Hload) as (_ & Hfns & Hq & _).
  simpl in Hfns, Hq. rewrite <- Hfns in Hattach.
  destruct (initFrom_connected (flushQueue (forwarding step) fuel) _ _ _ _ _
              Hload Hdb1 Hattach) as (p2 & Hinit & Hdb2 & Htr2 & Hset2).
  assert (Hq2 : queuedMessages p2 = queuedMessages p).
  { rewrite <- Hq. by inversion Hset2. }
  destruct (flushQueue_answers_in_arrival_order step fuel p2 d2 Hdb2)
    as (p' & answers & Hflush & Hempty & Hresp & Hkeys).
  { by rewrite Hq2. }
  { by rewrite Hq2. }
  exists p', answers. split; [|split; [done|split]].
  - unfold resume, moduleLoaded. rewrite Hparked.
    unfold detached, try_catch. by rewrite Hinit, Hflush.
  - rewrite Hresp, Htr2, responses_app.
    by rewrite responses_attaching, app_nil_r.
  - by rewrite Hkeys, Hq2.
Qed.

(** X6. A query whose statement throws in the engine is answered by one
    error message with the key of the query and the engine's error, after
    the callbacks the statement made; no data message is emitted and the
    connection is kept. *)
Theorem failed_query_is_answered_with_its_error
    fuel queryKey statement method p d e :
  db p = Some d ->
  exec_result (db_exec E d (sql statement) (params statement)) = inl e ->
  exists p',
    receive (forwarding step) fuel (QueryMessage queryKey statement method) p
    = Normal tt p'
    /\ trace p'
       = trace p ++ executing d statement
         ++ [Emitted (ErrorMessage (Some queryKey) e)]
    /\ db p' = Some (exec_db (db_exec E d (sql statement) (params statement))).
Proof.
  intros Hdb Hres. rewrite (receive_query _ _ _ _ _ _ _ Hdb).
  destruct (dbExec_forwarding step statement p d Hdb) as (p1 & Hrun & Hdb1 & Htr).
  rewrite Hres in Hrun.
  erewrite try_thrown by (erewrite bind_thrown; [reflexivity|exact Hrun]).
  rewrite emitMessage_forwarding. eexists. split; [reflexivity|].
  simpl. by rewrite Htr, <- app_assoc.
Qed.

(** X7. A function message with a new name attaches the function to the
    connection. When the engine accepts it, the function is entered at
    the end of the registry and a success message answers; when the
    engine throws, the registry stays as it was and an error message with
    the engine's error answers. *)
Theorem registration_attaches_then_records fuel queryKey functionName p d :
  db p = Some d ->
  map_has functionName (userFunctions p) = false ->
  exists p',
    receive (forwarding step) fuel (FunctionMessage queryKey functionName) p
    = Normal tt p'
    /\ db p' = Some (db_createFunction E d functionName).1
    /\ match (db_createFunction E d functionName).2 with
       | None =>
           userFunctions p'
           = userFunctions p ++ [(functionName, {| fn_name := functionName |})]
           /\ trace p'
              = trace p ++ [Call (CreateFunction functionName);
                            Emitted (SuccessMessage queryKey)]
       | Some e =>
           userFunctions p' = userFunctions p
           /\ trace p'
              = trace p ++ [Call (CreateFunction functionName);
                            Emitted (ErrorMessage (Some queryKey) e)]
       end.
Proof.
  intros Hdb Hhas. unfold receive, postMessage, noDb. rewrite Hdb. simpl.
  unfold createCallbackFunction. rewrite Hhas.
  pose proof (onDb_run (CreateFunction functionName)
                (fun d => db_createFunction E d functionName) p d Hdb) as Hattach.
  assert (Hinit : initUserFunction {| fn_name := functionName |} p
                  = onDb (CreateFunction functionName)
                      (fun d => db_createFunction E d functionName) p).
  { unfold initUserFunction. by rewrite Hdb. }
  destruct (db_createFunction E d functionName) as [d' [e|]]; simpl in *.
  - erewrite try_thrown by (erewrite bind_thrown; [reflexivity|by rewrite Hinit]).
    rewrite emitMessage_forwarding. eexists. split; [reflexivity|].
    simpl. by rewrite <- app_assoc.
  - erewrite try_normal
      by (erewrite bind_normal; [|by rewrite Hinit];
          erewrite bind_normal; [apply emitMessage_forwarding|reflexivity]).
    eexists. split; [reflexivity|]. simpl.
    rewrite (map_set_absent _ _ _ Hhas). by rewrite <- app_assoc.
Qed.
End DispatchFacts.

Section ConfigFacts.
Context {E : Engine} {H : Type}.
Variable onmessage : option (OutputMessage -> H -> H * option JsError).
Implicit Types (p : Processor E H).

(** X8. For a valid configuration [connect] first closes the connection
    it has, then opens exactly one database: the browser-storage database
    when the storage is local or session (whether or not a path is
    given), otherwise the OPFS database of the path when the module
    offers OPFS, and otherwise a transient database of that path,
    followed by the warning that it will not be persisted.  The
    in-memory branch is never taken. *)
Theorem connect_opens_the_configured_database module c p :
  configValid c = true ->
  let closing := match db p with Some _ => [Call Close] | None => [] end in
  let path := default "" (databasePath c) in
  let opening :=
    match storage c with
    | Some LocalStorage => NewJsStorageDb LocalStorage
    | Some SessionStorage => NewJsStorageDb SessionStorage
    | _ => if opfs module then NewOpfsDb path (flagsOf c)
           else NewDB (Some path) (flagsOf c)
    end in
  let warning :=
    match storage c with
    | Some LocalStorage | Some SessionStorage => []
    | _ => if opfs module then [] else [Warned (OpfsUnavailable path)]
    end in
  match connect module (frameOf c) p with
  | Normal _ p' => trace p' = trace p ++ closing ++ [Call opening] ++ warning
  | Thrown _ p' => trace p' = trace p ++ closing ++ [Call opening]
  | Exhausted => False
  end.
Proof.
  intros Hvalid closing path opening warning.
  unfold connect, closeDb, bind at 1. subst closing path opening warning.
  unfold configValid in Hvalid. unfold frameOf; simpl.
  destruct (storage c) as [[| |]|]; simpl in *;
    destruct (databasePath c) as [text|]; simpl in *;
    try (destruct (negb (String.eqb text "")) eqn:Htext);
    simpl in *; try discriminate;
    destruct (db p); destruct (opfs module); unfold construct, bind, warn, modify;
    simpl;
    repeat match goal with
           | |- context [match ?made with inl _ => _ | inr _ => _ end] =>
               destruct made
           end;
    simpl; by rewrite <- ?app_assoc.
Qed.

End ConfigFacts.

(** ** Runs for the statements above *)

Lemma messages_wait_in_arrival_order_witness :
  db (newProcessor Toy.sqlite tt) = None
  /\ for_of [select "k1" All; DestroyMessage "k2"] (receive worker 0)
       (newProcessor Toy.sqlite tt)
     = Normal tt (set_queuedMessages [select "k1" All; DestroyMessage "k2"]
                    (newProcessor Toy.sqlite tt)).
Proof.
  split; [reflexivity|].
  apply (messages_wait_in_arrival_order worker 0
           [select "k1" All; DestroyMessage "k2"] (newProcessor Toy.sqlite tt));
    [reflexivity|by repeat constructor].
Defined.

Lemma every_dispatched_request_gets_one_response_witness :
  db notifyingProcessor
  = Some {| Toy.applied := []; Toy.snapshot := None; Toy.attached := ["notify"] |}
  /\ exists p' response,
      receive worker 0 (FunctionMessage "k1" "notify") notifyingProcessor
      = Normal tt p'
      /\ responses (trace p') = responses (trace notifyingProcessor) ++ [response]
      /\ SQLocal.responseKey response = Some "k1".
Proof.
  split; [reflexivity|].
  destruct (every_dispatched_request_gets_one_response (fun _ _ => tt) 0
              (FunctionMessage "k1" "notify") notifyingProcessor _ eq_refl eq_refl)
    as (p' & response & Hrun & Hresp & Hkey & _).
  by exists p', response.
Defined.

Lemma buffered_requests_are_answered_in_order_once_ready_witness :
  let waiting :=
    stateOf (newProcessor Toy.sqlite tt)
      ((receive worker 0 (ConfigMessage fileConfig) ;;
        receive worker 0 (select "k1" All) ;;
        receive worker 0 (TransactionMessage "k2" [insertApples]) ;;
        receive worker 0 (select "k3" Get))
         (newProcessor Toy.sqlite tt)) in
  parked waiting = [frameOf fileConfig]
  /\ exists p' answers,
      resume worker 4 waiting = Normal tt p'
      /\ queuedMessages p' = []
      /\ SQLocal.responseKey <$> answers = [Some "k1"; Some "k2"; Some "k3"]
      /\ responses (trace p') = answers.
Proof.
  intros waiting. split; [reflexivity|].
  destruct (buffered_requests_are_answered_in_order_once_ready (fun _ _ => tt) 4
              waiting (frameOf fileConfig) []
              (stateOf waiting (loadAndConnect (frameOf fileConfig) (set_parked [] waiting)))
              Toy.fresh Toy.fresh eq_refl eq_refl eq_refl eq_refl)
    as (p' & answers & Hrun & Hempty & Hresp & Hkeys).
  { by repeat constructor. }
  { simpl. lia. }
  by exists p', answers.
Defined.

Lemma failed_query_is_answered_with_its_error_witness :
  db readyProcessor = Some Toy.fresh
  /\ exec_result (db_exec Toy.sqlite Toy.fresh (sql insertLettuce) []) = inl Toy.syntaxError
  /\ exists p',
      receive worker 0 (QueryMessage "k1" insertLettuce Run) readyProcessor
      = Normal tt p'
      /\ emissions (trace p') = [ErrorMessage (Some "k1") Toy.syntaxError].
Proof.
  split; [reflexivity|]. split; [reflexivity|].
  destruct (failed_query_is_answered_with_its_error (fun _ _ => tt) 0 "k1"
              insertLettuce Run readyProcessor Toy.fresh Toy.syntaxError
              eq_refl eq_refl) as (p' & Hrun & Htr & _).
  exists p'. split; [exact Hrun|]. by rewrite Htr.
Defined.

Lemma registration_attaches_then_records_witness :
  db readyProcessor = Some Toy.fresh
  /\ map_has "notify" (userFunctions readyProcessor) = false
  /\ exists p',
      receive worker 0 (FunctionMessage "k1" "notify") readyProcessor = Normal tt p'
      /\ userFunctions p' = [("notify", {| fn_name := "notify" |})]
      /\ emissions (trace p') = [SuccessMessage "k1"].
Proof.
  split; [reflexivity|]. split; [reflexivity|].
  destruct (registration_attaches_then_records (fun _ _ => tt) 0 "k1" "notify"
              readyProcessor Toy.fresh eq_refl eq_refl)
    as (p' & Hrun & _ & Hfns & Htr).
  exists p'. split; [exact Hrun|]. split; [exact Hfns|]. by rewrite Htr.
Defined.

Lemma connect_opens_the_configured_database_witness :
  let c := {| databasePath := Some "groceries.sqlite3"; storage := Some LocalStorage;
              create := None; readonly := None; verbose := None |} in
  configValid c = true
  /\ exists p',
      connect {| opfs := true |} (frameOf c) readyProcessor = Normal tt p'
      /\ trace p'
         = trace readyProcessor ++ [Call Close; Call (NewJsStorageDb LocalStorage)].
Proof.
  intros c. split; [reflexivity|].
  pose proof (connect_opens_the_configured_database {| opfs := true |} c
                readyProcessor eq_refl) as Hopen.
  destruct (connect {| opfs := true |} (frameOf c) readyProcessor) as [[] p'|e p'|] eqn:Hrun.
  - by exists p'.
  - exfalso. vm_compute in Hrun. discriminate.
  - destruct Hopen.
Defined.


(** ** What the bookkeeping of a client always looks like *)

Section SoundFacts.
Context (E : Engine) (nanoid : nat -> QueryKey) (fuel : nat).
Implicit Types (c : SQLocal.Client) (s : SQLocal.State E).

Lemma pendingFor_lookup message c queryKey promise :
  SQLocal.pendingFor message c = Some (queryKey, promise) ->
  SQLocal.responseKey message = Some queryKey
  /\ queryKey <> ""
  /\ SQLocal.queriesInProgress c !! queryKey = Some promise.
Proof.
  unfold SQLocal.pendingFor, truthy.
  destruct (SQLocal.responseKey message) as [k|]; [|done].
  destruct (String.eqb_spec k "") as [->|Hne]; simpl; [done|].
  destruct (SQLocal.queriesInProgress c !! k) as [n|] eqn:Hk; simpl; [|done].
  intros [= <- <-]. by repeat split.
Qed.

(** What [processMessageEvent] does to the map and to the settlements. *)
Lemma processMessageEvent_cases message c :
  (SQLocal.queriesInProgress (SQLocal.processMessageEvent message c).1
   = SQLocal.queriesInProgress c
   /\ SQLocal.settled (SQLocal.processMessageEvent message c).1 = SQLocal.settled c)
  \/ (exists queryKey promise,
        SQLocal.pendingFor message c = Some (queryKey, promise)
        /\ SQLocal.queriesInProgress (SQLocal.processMessageEvent message c).1
           = delete queryKey (SQLocal.queriesInProgress c)
        /\ SQLocal.settled (SQLocal.processMessageEvent message c).1
           = SQLocal.settled c ++ [(promise, settlementOf message)]).
Proof.
  unfold SQLocal.processMessageEvent.
  destruct message as [k r cs|k|k e|n a];
    try (destruct (SQLocal.pendingFor _ c) as [[queryKey promise]|] eqn:Hp;
         [right; by exists queryKey, promise|left; by simpl]).
  left. by destruct (SQLocal.userCallbacks c !! n).
Qed.

Lemma processMessageEvent_fields message c :
  SQLocal.drawn (SQLocal.processMessageEvent message c).1 = SQLocal.drawn c
  /\ SQLocal.isDestroyed (SQLocal.processMessageEvent message c).1
     = SQLocal.isDestroyed c
  /\ SQLocal.client_databasePath (SQLocal.processMessageEvent message c).1
     = SQLocal.client_databasePath c.
Proof.
  unfold SQLocal.processMessageEvent.
  destruct message as [k r cs|k|k e|n a];
    try (by destruct (SQLocal.pendingFor _ c) as [[queryKey promise]|]).
  by destruct (SQLocal.userCallbacks c !! n).
Qed.

Lemma Sound_processMessageEvent message c :
  Sound nanoid c -> Sound nanoid (SQLocal.processMessageEvent message c).1.
Proof.
  intros (Hnd & Hlt & Hmap).
  destruct (processMessageEvent_fields message c) as (Hdrawn & _).
  destruct (processMessageEvent_cases message c)
    as [[Hq Hs]|(queryKey & promise & Hp & Hq & Hs)];
    unfold Sound; rewrite Hq, Hs, Hdrawn; [done|].
  apply pendingFor_lookup in Hp as (_ & _ & Hk).
  destruct (Hmap _ _ Hk) as (Hkey & Hpl & Hps).
  rewrite fmap_app. simpl. split; [|split].
  - apply NoDup_app. split; [done|]. split; [|apply NoDup_singleton].
    intros n Hn Hin. apply list_elem_of_singleton in Hin. by subst.
  - intros n Hn. apply elem_of_app in Hn as [Hn|Hn]; [by apply Hlt|].
    apply list_elem_of_singleton in Hn. by subst.
  - intros k n Hkn. apply lookup_delete_Some in Hkn as [Hne Hkn].
    destruct (Hmap _ _ Hkn) as (Hkey' & Hpl' & Hps'). split; [done|]. split; [done|].
    intros Hn. apply elem_of_app in Hn as [Hn|Hn]; [done|].
    apply list_elem_of_singleton in Hn. subst. congruence.
Qed.

(** While a request with promise [d] is being posted. *)
Lemma Posting_processMessageEvent d message c :
  Sound nanoid c /\ SQLocal.drawn c = S d /\ (d ∉ (SQLocal.settled c).*1)
  /\ (forall k n, SQLocal.queriesInProgress c !! k = Some n -> n <> d) ->
  let c' := (SQLocal.processMessageEvent message c).1 in
  Sound nanoid c' /\ SQLocal.drawn c' = S d /\ (d ∉ (SQLocal.settled c').*1)
  /\ (forall k n, SQLocal.queriesInProgress c' !! k = Some n -> n <> d).
Proof.
  intros (Hsound & Hdrawn & Hd & Hmap) c'. subst c'.
  split; [by apply Sound_processMessageEvent|].
  destruct (processMessageEvent_fields message c) as (Hdrawn' & _).
  destruct (processMessageEvent_cases message c)
    as [[Hq Hs]|(queryKey & promise & Hp & Hq & Hs)];
    rewrite Hq, Hs, Hdrawn'; [done|].
  apply pendingFor_lookup in Hp as (_ & _ & Hk).
  split; [done|]. split.
  - rewrite fmap_app. simpl. intros Hin.
    apply elem_of_app in Hin as [Hin|Hin]; [done|].
    apply list_elem_of_singleton in Hin. by apply (Hmap _ _ Hk).
  - intros k n Hkn. apply lookup_delete_Some in Hkn as [_ Hkn]. by apply (Hmap _ _ Hkn).
Qed.

Lemma host_stable {H : Type} (listener : OutputMessage -> H -> H * option JsError)
    (J : H -> Prop) :
  (forall m h, J h -> J (listener m h).1) ->
  Stable (E:=E) (Some listener) (fun p => J (host p)).
Proof.
  intros HJ. split; simpl; try done.
  intros listener' m p [= <-] Hp. by apply HJ.
Qed.

Lemma post_keeps (J : SQLocal.Client -> Prop) message s :
  (forall m c, J c -> J (SQLocal.processMessageEvent m c).1) ->
  J (SQLocal.client E s) ->
  match SQLocal.post E fuel message s with
  | Normal _ s' | Thrown _ s' => J (SQLocal.client E s')
  | Exhausted => True
  end.
Proof.
  intros HJ Hs. destruct s as [c w|p]; simpl; [done|].
  pose proof (Keeps_receive SQLocal.listener (fun p => J (host p))
                (host_stable SQLocal.processMessageEvent J HJ) fuel message p Hs) as Hk.
  by destruct (receive SQLocal.listener fuel message p).
Qed.

Lemma moduleSettles_keeps (J : SQLocal.Client -> Prop) s :
  (forall m c, J c -> J (SQLocal.processMessageEvent m c).1) ->
  J (SQLocal.client E s) ->
  match SQLocal.moduleSettles E fuel s with
  | Normal _ s' | Thrown _ s' => J (SQLocal.client E s')
  | Exhausted => True
  end.
Proof.
  intros HJ Hs. destruct s as [c w|p]; simpl; [done|].
  pose proof (Keeps_resume SQLocal.listener (fun p => J (host p))
                (host_stable SQLocal.processMessageEvent J HJ) fuel p Hs) as Hk.
  by destruct (resume SQLocal.listener fuel p).
Qed.

Lemma client_update f s :
  SQLocal.client E (SQLocal.update E f s) = f (SQLocal.client E s).
Proof. by destruct s. Qed.

Lemma Sound_createQuery request s :
  Sound nanoid (SQLocal.client E s) ->
  match SQLocal.createQuery E nanoid fuel request s with
  | Normal _ s' | Thrown _ s' => Sound nanoid (SQLocal.client E s')
  | Exhausted => True
  end.
Proof.
  intros Hsound. unfold SQLocal.createQuery.
  destruct (SQLocal.isDestroyed (SQLocal.client E s)); [done|].
  set (d := SQLocal.drawn (SQLocal.client E s)).
  unfold bind at 1, modify at 1.
  set (s0 := SQLocal.update E (SQLocal.set_drawn (S d)) s).
  set (P := fun c => Sound nanoid c /\ SQLocal.drawn c = S d
                     /\ (d ∉ (SQLocal.settled c).*1)
                     /\ (forall k n, SQLocal.queriesInProgress c !! k = Some n -> n <> d)).
  assert (HP0 : P (SQLocal.client E s0)).
  { subst s0 P. rewrite client_update. destruct Hsound as (Hnd & Hlt & Hmap).
    unfold Sound. simpl. repeat split; try done.
    - intros n Hn. specialize (Hlt n Hn). fold d in Hlt. lia.
    - by destruct (Hmap _ _ H).
    - destruct (Hmap _ _ H) as (_ & Hl & _). fold d in Hl. lia.
    - by destruct (Hmap _ _ H) as (_ & _ & Hs).
    - intros Hd. specialize (Hlt d Hd). fold d in Hlt. lia.
    - intros k n Hkn ->. destruct (Hmap _ _ Hkn) as (_ & Hl & _). fold d in Hl. lia. }
  pose proof (post_keeps P (SQLocal.withKey request (nanoid d)) s0
                (Posting_processMessageEvent d) HP0) as Hpost.
  unfold bind at 1.
  destruct (SQLocal.post E fuel (SQLocal.withKey request (nanoid d)) s0)
    as [[] s1|e s1|]; [|by destruct Hpost|done].
  unfold bind, modify, ret. rewrite client_update.
  destruct Hpost as ((Hnd & Hlt & Hmap) & Hdrawn & Hd & Hfree).
  unfold Sound. simpl. split; [done|]. split; [done|].
  intros k n Hkn. apply lookup_insert_Some in Hkn as [[<- <-]|[Hne Hkn]].
  - rewrite Hdrawn. split; [done|]. split; [lia|done].
  - by apply Hmap.
Qed.

Lemma Sound_clientStep s step :
  Sound nanoid (SQLocal.client E s) ->
  Sound nanoid (SQLocal.client E (clientStep E nanoid fuel s step)).
Proof.
  intros Hsound. destruct step as [request|message| |functionName handler|]; simpl.
  - pose proof (Sound_createQuery request s Hsound) as Hk.
    by destruct (SQLocal.createQuery E nanoid fuel request s).
  - destruct s as [c w|p]; simpl; [|done].
    destruct (SQLocal.listening w); [|done].
    pose proof (Sound_processMessageEvent message c Hsound) as Hk.
    by destruct (SQLocal.processMessageEvent message c) as [c' [e|]].
  - pose proof (moduleSettles_keeps (Sound nanoid) s
                  (fun m c => Sound_processMessageEvent m c) Hsound) as Hk.
    by destruct (SQLocal.moduleSettles E fuel s).
  - by destruct s.
  - destruct s as [c w|p]; destruct Hsound as (Hnd & Hlt & Hmap); by repeat split.
Qed.

Lemma constructor_runs config :
  exists s,
    SQLocal.constructor E fuel config = Normal tt s
    /\ SQLocal.client E s
       = SQLocal.newClient (databasePath (SQLocal.configOf config))
    /\ match s with
       | SQLocal.OverWorker _ c w =>
           SQLocal.usesProcessor config = false
           /\ SQLocal.posted w = [ConfigMessage (SQLocal.configOf config)]
           /\ SQLocal.listening w = true
       | SQLocal.InProcess _ p =>
           SQLocal.usesProcessor config = true
           /\ SQLocalProcessor.config p = SQLocal.configOf config
           /\ parked p = [frameOf (SQLocal.configOf config)]
           /\ db p = None
           /\ queuedMessages p = []
           /\ emissions (trace p) = []
       end.
Proof.
  unfold SQLocal.constructor.
  destruct (SQLocal.usesProcessor config) eqn:Huses.
  - assert (Hvalid : configValid (SQLocal.configOf config) = true).
    { destruct config as [path|c]; [done|]. simpl in *. unfold configValid.
      destruct (storage c) as [[| |]|]; try done; by rewrite orb_true_r. }
    eexists. simpl. unfold receive, postMessage. simpl.
    unfold editConfig, bind, modify, detached, try_catch, init. simpl.
    rewrite Hvalid. simpl. split; [reflexivity|]. by simpl.
  - eexists. split; [reflexivity|]. by simpl.
Qed.

(** X10. In every state a client can reach, over a worker or with an
    in-process processor, whatever it is asked and whatever it receives:
    no promise has been settled twice; a request that is still pending
    has not been settled; a pending entry holds the promise of the very
    request whose key it is filed under; and only keys and promises of
    requests made so far occur. *)
Theorem client_stays_sound config steps :
  exists s0,
    SQLocal.constructor E fuel config = Normal tt s0
    /\ Sound nanoid (SQLocal.client E (foldl (clientStep E nanoid fuel) s0 steps)).
Proof.
  destruct (constructor_runs config) as (s0 & Hrun & Hclient & _).
  exists s0. split; [done|].
  assert (Hs0 : Sound nanoid (SQLocal.client E s0)).
  { rewrite Hclient. unfold Sound. simpl. split; [constructor|]. split.
    - intros promise Hin. by apply elem_of_nil in Hin.
    - intros queryKey promise Hk. by rewrite lookup_empty in Hk. }
  clear Hrun Hclient. revert s0 Hs0.
  induction steps as [|step steps IH]; intros s0 Hs0; [done|].
  simpl. by apply IH, Sound_clientStep.
Qed.

(** X11. When [nanoid] never repeats a key, a new request over a worker
    never replaces a pending one: its key is not in the map, so every
    earlier entry stays and the map grows by exactly the new entry. *)
Theorem new_request_replaces_no_pending_one request c w :
  Inj (=) (=) nanoid ->
  Sound nanoid c ->
  SQLocal.isDestroyed c = false ->
  exists s',
    SQLocal.createQuery E nanoid fuel request (SQLocal.OverWorker E c w)
    = Normal (SQLocal.drawn c) s'
    /\ SQLocal.queriesInProgress c !! nanoid (SQLocal.drawn c) = None
    /\ SQLocal.queriesInProgress (SQLocal.client E s')
       = <[nanoid (SQLocal.drawn c) := SQLocal.drawn c]> (SQLocal.queriesInProgress c)
    /\ size (SQLocal.queriesInProgress (SQLocal.client E s'))
       = S (size (SQLocal.queriesInProgress c)).
Proof.
  intros Hinj (Hnd & Hlt & Hmap) Hd.
  assert (Hfresh : SQLocal.queriesInProgress c !! nanoid (SQLocal.drawn c) = None).
  { destruct (SQLocal.queriesInProgress c !! nanoid (SQLocal.drawn c)) as [n|] eqn:Hk;
      [|done].
    destruct (Hmap _ _ Hk) as (Hkey & Hl & _). apply Hinj in Hkey. lia. }
  unfold SQLocal.createQuery. simpl. rewrite Hd. simpl.
  eexists. split; [reflexivity|]. simpl. split; [done|]. split; [done|].
  by apply map_size_insert_None.
Qed.
End SoundFacts.

(** ** Responses, callbacks and records on the client *)

(** X12. Over a worker, a request is filed under its key before any
    response can arrive; the response with that key settles the promise
    of the request, once, and removes the entry, so that a second message
    with the same key changes nothing. *)
Theorem response_over_worker_settles_its_request
    (E : Engine) (nanoid : nat -> QueryKey) (fuel : nat) request c w message :
  SQLocal.isDestroyed c = false ->
  SQLocal.listening w = true ->
  truthy (Some (nanoid (SQLocal.drawn c))) = true ->
  SQLocal.responseKey message = Some (nanoid (SQLocal.drawn c)) ->
  exists s1 s2,
    SQLocal.createQuery E nanoid fuel request (SQLocal.OverWorker E c w)
    = Normal (SQLocal.drawn c) s1
    /\ SQLocal.queriesInProgress (SQLocal.client E s1) !! nanoid (SQLocal.drawn c)
       = Some (SQLocal.drawn c)
    /\ SQLocal.deliver E message s1 = Normal tt s2
    /\ SQLocal.settled (SQLocal.client E s2)
       = SQLocal.settled c ++ [(SQLocal.drawn c, settlementOf message)]
    /\ SQLocal.queriesInProgress (SQLocal.client E s2) !! nanoid (SQLocal.drawn c) = None
    /\ forall again,
         SQLocal.responseKey again = Some (nanoid (SQLocal.drawn c)) ->
         (SQLocal.processMessageEvent again (SQLocal.client E s2)).1
         = SQLocal.client E s2.
Proof. intros Hd Hl Ht Hk. by apply worker_request_settles_once. Qed.

(** X13. A message touches at most the pending entry filed under its own
    key: every other entry stays; either nothing is settled, or the
    promise of that entry is settled with the message and the entry is
    removed. A message with the empty key is never routed. The callbacks,
    the destroyed flag and the key supply are left alone. *)
Theorem response_touches_only_its_own_entry message c :
  let c' := (SQLocal.processMessageEvent message c).1 in
  (forall queryKey,
     SQLocal.responseKey message <> Some queryKey ->
     SQLocal.queriesInProgress c' !! queryKey = SQLocal.queriesInProgress c !! queryKey)
  /\ (SQLocal.settled c' = SQLocal.settled c
      \/ exists queryKey promise,
           SQLocal.responseKey message = Some queryKey
           /\ SQLocal.queriesInProgress c !! queryKey = Some promise
           /\ SQLocal.queriesInProgress c' !! queryKey = None
           /\ SQLocal.settled c'
              = SQLocal.settled c ++ [(promise, settlementOf message)])
  /\ (SQLocal.responseKey message = Some "" -> c' = c)
  /\ SQLocal.userCallbacks c' = SQLocal.userCallbacks c
  /\ SQLocal.isDestroyed c' = SQLocal.isDestroyed c
  /\ SQLocal.drawn c' = SQLocal.drawn c.
Proof.
  intros c'. subst c'.
  destruct (processMessageEvent_fields message c) as (Hdrawn & Hdestroyed & _).
  split; [|split; [|split; [|split; [|done]]]].
  - intros queryKey Hne.
    destruct (processMessageEvent_cases message c)
      as [[Hq _]|(k & promise & Hp & Hq & _)]; rewrite Hq; [done|].
    apply pendingFor_lookup in Hp as (Hk & _ & _).
    apply lookup_delete_ne. congruence.
  - destruct (processMessageEvent_cases message c)
      as [[_ Hs]|(k & promise & Hp & Hq & Hs)]; [by left|].
    right. exists k, promise.
    apply pendingFor_lookup in Hp as (Hk & _ & Hpending).
    rewrite Hq, Hs. split; [done|]. split; [done|]. split; [|done].
    apply lookup_delete_eq.
  - intros Hempty. unfold SQLocal.processMessageEvent, SQLocal.pendingFor.
    rewrite Hempty. simpl. by destruct message.
  - unfold SQLocal.processMessageEvent.
    destruct message as [k r cs|k|k e|n a];
      try (by destruct (SQLocal.pendingFor _ c) as [[queryKey promise]|]).
    by destruct (SQLocal.userCallbacks c !! n).
Qed.

(** X14. Once [createCallbackFunction] has stored the handler, a callback
    message with the function's name makes [processMessageEvent] call
    that handler, once, with the message's arguments (what the handler
    then does, and whether it throws, is the handler's own affair and is
    not stated here). A callback message with a name that has no handler
    calls nothing and throws nothing, and after [destroy] has completed
    the same holds for the name that had one. *)
Theorem callback_reaches_its_handler
    (E : Engine) (s : SQLocal.State E) functionName handler args :
  exists s1 s2,
    SQLocal.createCallbackFunction_then E functionName handler s = Normal tt s1
    /\ SQLocal.invoked
         (SQLocal.processMessageEvent (CallbackMessage functionName args)
            (SQLocal.client E s1)).1
       = SQLocal.invoked (SQLocal.client E s) ++ [(handler, args)]
    /\ (forall other,
          other <> functionName ->
          SQLocal.userCallbacks (SQLocal.client E s) !! other = None ->
          SQLocal.processMessageEvent (CallbackMessage other args) (SQLocal.client E s1)
          = (SQLocal.client E s1, None))
    /\ SQLocal.destroy_then E s1 = Normal tt s2
    /\ SQLocal.processMessageEvent (CallbackMessage functionName args)
         (SQLocal.client E s2)
       = (SQLocal.client E s2, None).
Proof.
  eexists _, _. split; [reflexivity|]. split; [|split; [|split; [reflexivity|]]].
  - destruct s as [c w|p]; simpl; by rewrite lookup_insert_eq.
  - intros other Hne Hnone.
    destruct s as [c w|p]; simpl in *; by rewrite lookup_insert_ne, Hnone.
  - destruct s as [c w|p]; simpl; by rewrite lookup_empty.
Qed.

Lemma occurrences_app ch (left right : string) :
  occurrences ch (left +:+ right) = occurrences ch left + occurrences ch right.
Proof.
  induction left as [|first left IH]; [done|].
  simpl. rewrite IH. lia.
Qed.

Lemma occurrences_concat (queryTemplate : list string) :
  Forall (fun fragment => occurrences questionMark fragment = 0) queryTemplate ->
  occurrences questionMark (String.concat "?" queryTemplate) = pred (length queryTemplate).
Proof.
  induction 1 as [|fragment rest Hfragment Hrest IH]; [done|].
  destruct rest as [|second rest]; [done|].
  change (String.concat "?" (fragment :: second :: rest))
    with (fragment +:+ "?" +:+ String.concat "?" (second :: rest)).
  rewrite !occurrences_app, Hfragment, IH. by simpl.
Qed.

(** X16. The statement [convertSqlTemplate] builds from a tagged template
    has exactly one placeholder per interpolated value, in the place of
    the value, and carries the values in their order, provided the
    literal fragments contain no question mark themselves. *)
Theorem template_has_one_placeholder_per_value queryTemplate values :
  length queryTemplate = S (length values) ->
  Forall (fun fragment => occurrences questionMark fragment = 0) queryTemplate ->
  occurrences questionMark (sql (SQLocal.convertSqlTemplate queryTemplate values))
  = length (params (SQLocal.convertSqlTemplate queryTemplate values))
  /\ params (SQLocal.convertSqlTemplate queryTemplate values) = values.
Proof.
  intros Hlen Hall. simpl. split; [|done].
  rewrite occurrences_concat by done. by rewrite Hlen.
Qed.

Lemma js_set_other column value rowObj other :
  other <> "__proto__" ->
  SQLocal.fields (SQLocal.js_set column value rowObj) !! other
  = if String.eqb other column then Some value else SQLocal.fields rowObj !! other.
Proof.
  intros Hother. unfold SQLocal.js_set.
  destruct (String.eqb_spec other column) as [<-|Hne].
  - destruct (String.eqb_spec other "__proto__") as [|_]; [done|].
    simpl. apply lookup_insert_eq.
  - destruct (String.eqb column "__proto__").
    + destruct (SQLocal.prototype rowObj); [| |simpl; apply lookup_insert_ne; congruence];
        by destruct value.
    + simpl. apply lookup_insert_ne. congruence.
Qed.

Lemma js_set_ordinary column value rowObj :
  column <> "__proto__" ->
  SQLocal.fields (SQLocal.js_set column value rowObj) !! "__proto__"
  = SQLocal.fields rowObj !! "__proto__"
  /\ SQLocal.prototype (SQLocal.js_set column value rowObj) = SQLocal.prototype rowObj.
Proof.
  intros Hne. unfold SQLocal.js_set.
  destruct (String.eqb_spec column "__proto__") as [|_]; [done|].
  simpl. split; [|done]. apply lookup_insert_ne. congruence.
Qed.

Lemma fillRow_array items columns : forall columnIndex rowObj,
  exists filled,
    SQLocal.fillRow (JsArr items) columns columnIndex rowObj = inr filled
    /\ (forall column,
          column <> "__proto__" ->
          SQLocal.fields filled !! column
          = match lastIndexOf column columns with
            | Some j => Some (default JsUndefined (items !! (columnIndex + j)))
            | None => SQLocal.fields rowObj !! column
            end)
    /\ ("__proto__" ∉ columns ->
        SQLocal.fields filled !! "__proto__" = SQLocal.fields rowObj !! "__proto__"
        /\ SQLocal.prototype filled = SQLocal.prototype rowObj).
Proof.
  induction columns as [|first columns IH]; intros columnIndex rowObj.
  - exists rowObj. by repeat split.
  - simpl.
    destruct (IH (S columnIndex)
                (SQLocal.js_set first (default JsUndefined (items !! columnIndex)) rowObj))
      as (filled & Hrun & Hlook & Hproto).
    exists filled. split; [done|]. split.
    + intros column Hcolumn. rewrite (Hlook column Hcolumn).
      rewrite (js_set_other _ _ _ _ Hcolumn).
      destruct (lastIndexOf column columns) as [j|].
      * by replace (columnIndex + S j) with (S columnIndex + j) by lia.
      * destruct (String.eqb column first); [|done]. by rewrite Nat.add_0_r.
    + intros Hnone. apply not_elem_of_cons in Hnone as [Hfirst Hrest].
      destruct (Hproto Hrest) as [Hfield Hprototype].
      destruct (js_set_ordinary first (default JsUndefined (items !! columnIndex)) rowObj)
        as [Hfield' Hprototype']; [congruence|].
      split; congruence.
Qed.

Lemma convertRowsToObjects_arrays columns : forall rows : list (list JsVal),
  exists objects,
    SQLocal.convertRowsToObjects (JsArr <$> rows) columns = inr objects
    /\ length objects = length rows
    /\ forall i row,
         rows !! i = Some row ->
         exists rowObj,
           objects !! i = Some rowObj
           /\ (forall column,
                 column <> "__proto__" ->
                 SQLocal.fields rowObj !! column = fieldOf row columns column)
           /\ ("__proto__" ∉ columns ->
               SQLocal.fields rowObj !! "__proto__" = None
               /\ SQLocal.prototype rowObj = SQLocal.ObjectPrototype).
Proof.
  induction rows as [|first rows IH].
  - exists []. by repeat split.
  - destruct IH as (objects & Hrun & Hlen & Hlook).
    destruct (fillRow_array first columns 0 SQLocal.emptyObject)
      as (filled & Hfill & Hfield & Hproto).
    exists (filled :: objects). rewrite fmap_cons.
    cbn [SQLocal.convertRowsToObjects]. rewrite Hfill, Hrun.
    split; [done|]. split; [by simpl; rewrite Hlen|].
    intros [|i] row Hrow; simpl in *.
    + injection Hrow as <-. exists filled. split; [done|]. split.
      * intros column Hcolumn. rewrite (Hfield column Hcolumn). unfold fieldOf.
        destruct (lastIndexOf column columns); [done|]. apply lookup_empty.
      * intros Hnone. destruct (Hproto Hnone) as [Hf Hp]. split; [|done].
        rewrite Hf. apply lookup_empty.
    + by apply Hlook.
Qed.

Lemma lastIndexOf_None column columns :
  lastIndexOf column columns = None <-> column ∉ columns.
Proof.
  induction columns as [|first columns IH]; simpl.
  - split; [intros _; apply not_elem_of_nil|done].
  - rewrite not_elem_of_cons.
    destruct (lastIndexOf column columns) as [j|].
    + split; [done|]. intros [_ Hnot]. by apply IH in Hnot.
    + destruct (String.eqb_spec column first) as [->|Hne].
      * split; [done|]. by intros [Hne _].
      * split; [|done]. intros _. split; [done|]. by apply IH.
Qed.

Lemma lastIndexOf_Some column columns : forall columnIndex,
  lastIndexOf column columns = Some columnIndex ->
  columns !! columnIndex = Some column
  /\ forall later, columnIndex < later -> columns !! later <> Some column.
Proof.
  induction columns as [|first columns IH]; intros columnIndex; simpl; [done|].
  destruct (lastIndexOf column columns) as [j|] eqn:Hlast.
  - intros [= <-]. destruct (IH j eq_refl) as (Hat & Hlater). split; [done|].
    intros [|later] Hlt; [lia|]. simpl. apply Hlater. lia.
  - destruct (String.eqb_spec column first) as [->|Hne]; [|done].
    intros [= <-]. split; [done|].
    intros [|later] Hlt; [lia|]. simpl. intros Hat.
    apply lastIndexOf_None in Hlast. apply Hlast.
    by apply list_elem_of_lookup_2 in Hat.
Qed.

(** X17. When no column is called ["__proto__"], [convertRowsToObjects]
    turns the rows of an engine result into records, one per row and in
    the same order. A record keeps the prototype of [{}] and has an own
    field for each column name and no other; the field holds the row's
    value at the position of that column, [undefined] when the row is too
    short, and when a column name occurs twice the value of its last
    position. *)
Theorem rows_become_records (rows : list (list JsVal)) columns :
  "__proto__" ∉ columns ->
  exists objects,
    SQLocal.convertRowsToObjects (JsArr <$> rows) columns = inr objects
    /\ length objects = length rows
    /\ forall i row,
         rows !! i = Some row ->
         exists rowObj,
           objects !! i = Some rowObj
           /\ SQLocal.prototype rowObj = SQLocal.ObjectPrototype
           /\ (forall column,
                 is_Some (SQLocal.fields rowObj !! column) <-> column ∈ columns)
           /\ (forall column columnIndex,
                 lastIndexOf column columns = Some columnIndex ->
                 columns !! columnIndex = Some column
                 /\ (forall later, columnIndex < later -> columns !! later <> Some column)
                 /\ SQLocal.fields rowObj !! column
                    = Some (default JsUndefined (row !! columnIndex))).
Proof.
  intros Hnone.
  destruct (convertRowsToObjects_arrays columns rows) as (objects & Hrun & Hlen & Hlook).
  exists objects. split; [done|]. split; [done|].
  intros i row Hrow. destruct (Hlook i row Hrow) as (rowObj & Hat & Hfield & Hproto).
  destruct (Hproto Hnone) as [Hown Hprototype].
  exists rowObj. split; [done|]. split; [done|]. split.
  - intros column.
    destruct (String.eqb_spec column "__proto__") as [->|Hcolumn].
    { rewrite Hown. split; [by intros [? ?]|done]. }
    rewrite (Hfield column Hcolumn). unfold fieldOf.
    destruct (lastIndexOf column columns) as [j|] eqn:Hlast; simpl.
    + split; [|by eauto]. intros _.
      apply lastIndexOf_Some in Hlast as [Hj _]. by apply list_elem_of_lookup_2 in Hj.
    + split; [by intros [? ?]|]. intros Hin. by apply lastIndexOf_None in Hlast.
  - intros column columnIndex Hlast.
    destruct (lastIndexOf_Some _ _ _ Hlast) as (Hj & Hlater).
    split; [done|]. split; [done|].
    assert (Hcolumn : column <> "__proto__").
    { intros ->. apply Hnone. by apply list_elem_of_lookup_2 in Hj. }
    rewrite (Hfield column Hcolumn). unfold fieldOf. by rewrite Hlast.
Qed.

(** Two columns called ["__proto__"], the first holding [null]: the
    first assignment takes the prototype away, and the second then makes
    an own field of that name. *)
Example proto_column_after_null :
  SQLocal.convertRowsToObjects [JsArr [JsNull; JsNum 5]] ["__proto__"; "__proto__"]
  = inr [{| SQLocal.fields := {[ "__proto__" := JsNum 5 ]};
            SQLocal.prototype := SQLocal.NullPrototype |}].
Proof. reflexivity. Qed.

(** ** A client with its processor in the same thread *)

Section InProcessFacts.
Context (E : Engine) (nanoid : nat -> QueryKey) (fuel : nat).

Lemma host_fixed {H : Type} (h : H) :
  Stable (E:=E) None (fun q : Processor E H => host q = h).
Proof. by split. Qed.

Lemma initFrom_attaches {H : Type}
    (onmessage : option (OutputMessage -> H -> H * option JsError))
    flush (attempt : Comp (Processor E H) unit) (p p1 : Processor E H) d1 d2 :
  attempt p = Normal tt p1 ->
  db p1 = Some d1 ->
  attachAll d1 (userFunctions p1).*2 = Some d2 ->
  exists p2,
    initFrom onmessage flush attempt p = flush p2
    /\ db p2 = Some d2
    /\ settings p2 = settings p1
    /\ host p2 = host p1.
Proof.
  intros Hattempt Hdb1 Hattach.
  destruct (attach_registry (userFunctions p1).*2 p1 d1 d2 Hdb1 Hattach)
    as (p2 & Hrun & Hdb2 & _ & Hset2).
  assert (Hhost : Keeps (fun q : Processor E H => host q = host p1)
                    (for_of (userFunctions p1).*2 (fun fn => initUserFunction fn))).
  { apply Keeps_for_of. intros fn.
    apply (Keeps_initUserFunction None). apply host_fixed. }
  specialize (Hhost p1 eq_refl). rewrite Hrun in Hhost.
  exists p2. split; [|done].
  unfold initFrom.
  erewrite bind_normal
    by (erewrite try_normal; [reflexivity|];
        erewrite bind_normal; [reflexivity|exact Hattempt]).
  simpl. unfold bind at 1, gets at 1.
  erewrite bind_normal; [reflexivity|]. by rewrite for_of_snd.
Qed.

(** The processor executes a query whose entry is pending. *)
Lemma in_process_dispatch_settles
    n queryKey promise statement method p d rows columns :
  db p = Some d ->
  truthy (Some queryKey) = true ->
  SQLocal.queriesInProgress (host p) !! queryKey = Some promise ->
  exec_result (db_exec E d (sql statement) (params statement)) = inr (rows, columns) ->
  exists p',
    receive SQLocal.listener n (QueryMessage queryKey statement method) p = Normal tt p'
    /\ SQLocal.settled (host p')
       = SQLocal.settled (host p)
         ++ [(promise,
              SQLocal.Resolved (DataMessage queryKey (shapeRows method rows) columns))]
    /\ SQLocal.queriesInProgress (host p')
       = delete queryKey (SQLocal.queriesInProgress (host p))
    /\ settings p' = settings p
    /\ is_Some (db p').
Proof.
  intros Hdb Htruthy Hpending Hres.
  pose proof (Steady_exec SQLocal.listener (QueryMessage queryKey statement method) p)
    as Hsteady.
  assert (Hexec : receive SQLocal.listener n (QueryMessage queryKey statement method) p
                  = exec SQLocal.listener (QueryMessage queryKey statement method) p).
  { unfold receive, postMessage, noDb. by rewrite Hdb. }
  rewrite <- Hexec, (receive_query_dispatched _ _ _ _ _ p d Hdb) in Hsteady.
  rewrite (receive_query_dispatched _ _ _ _ _ p d Hdb).
  set (r := db_exec E d (sql statement) (params statement)) in *.
  set (p1 := set_db (Some (exec_db r))
               (log (Call (Exec (sql statement) (params statement))) p)).
  destruct (relay_in_process E (exec_invoked r) p1) as (p2 & Hrun & Hdb2 & _ & Hq & Hs).
  assert (Hrows : dbExec SQLocal.listener statement p = Normal (rows, columns) p2).
  { rewrite (dbExec_connected _ _ p d Hdb). fold r p1.
    erewrite bind_normal by exact Hrun. by rewrite Hres. }
  set (response := DataMessage queryKey (shapeRows method rows) columns).
  assert (Hroute : SQLocal.processMessageEvent response (host p2)
                   = (SQLocal.set_queriesInProgress
                        (delete queryKey (SQLocal.queriesInProgress (host p2)))
                        (SQLocal.set_settled
                           (SQLocal.settled (host p2)
                              ++ [(promise, settlementOf response)]) (host p2)),
                      None)).
  { apply processMessageEvent_routes; [done|done|]. by rewrite Hq. }
  assert (Hrun' : try_catch
            (result <- dbExec SQLocal.listener statement ;;
             emitMessage SQLocal.listener
               (DataMessage queryKey (shapeRows method result.1) result.2))
            (fun error => emitMessage SQLocal.listener (ErrorMessage (Some queryKey) error))
            p
          = Normal tt (set_host (SQLocal.processMessageEvent response (host p2)).1
                         (log (Emitted response) p2))).
  { assert (Hemit : emitMessage SQLocal.listener response p2
                    = Normal tt (set_host
                                   (SQLocal.processMessageEvent response (host p2)).1
                                   (log (Emitted response) p2))).
    { unfold emitMessage, SQLocal.listener. by rewrite Hroute. }
    erewrite try_normal; [reflexivity|].
    erewrite bind_normal by exact Hrows. exact Hemit. }
  assert (Hsettings :
    settings (set_host (SQLocal.processMessageEvent response (host p2)).1
                (log (Emitted response) p2)) = settings p).
  { change (match Normal tt (set_host
                               (SQLocal.processMessageEvent response (host p2)).1
                               (log (Emitted response) p2))
            with
            | Normal _ p' | Thrown _ p' => settings p' = settings p
            | Exhausted => True
            end).
    rewrite <- Hrun'. exact Hsteady. }
  eexists. split; [exact Hrun'|]. split; [|split; [|split; [exact Hsettings|]]].
  - rewrite Hroute. simpl. by rewrite Hs.
  - rewrite Hroute. simpl. by rewrite Hq.
  - simpl. rewrite Hdb2. by eauto.
Qed.

(** X15. With an in-process processor that has its connection, a query
    whose statement fails makes [createQuery] itself throw the engine's
    error: the error message is emitted while [postMessage] runs, finds
    no pending entry and is thrown by [processMessageEvent] through the
    processor. No entry is made and no promise is settled. *)
Theorem in_process_failure_is_thrown p d statement method e :
  db p = Some d ->
  SQLocal.isDestroyed (host p) = false ->
  exec_result (db_exec E d (sql statement) (params statement)) = inl e ->
  SQLocal.queriesInProgress (host p) !! nanoid (SQLocal.drawn (host p)) = None ->
  exists p',
    SQLocal.createQuery E nanoid fuel (SQLocal.QueryRequest statement method)
      (SQLocal.InProcess E p)
    = Thrown e (SQLocal.InProcess E p')
    /\ last (emissions (trace p'))
       = Some (ErrorMessage (Some (nanoid (SQLocal.drawn (host p)))) e)
    /\ SQLocal.queriesInProgress (host p') = SQLocal.queriesInProgress (host p)
    /\ SQLocal.settled (host p') = SQLocal.settled (host p).
Proof.
  intros Hdb Hd Hres Hfresh.
  set (promise := SQLocal.drawn (host p)) in *.
  set (queryKey := nanoid promise) in *.
  unfold SQLocal.createQuery. simpl. rewrite Hd. fold promise queryKey.
  set (p0 := set_host (SQLocal.set_drawn (S promise) (host p)) p).
  erewrite bind_normal by reflexivity.
  change (SQLocal.update E _ (SQLocal.InProcess E p)) with (SQLocal.InProcess E p0).
  assert (Hpost : exists p1,
    receive SQLocal.listener fuel (QueryMessage queryKey statement method) p0
    = Thrown e p1
    /\ last (emissions (trace p1)) = Some (ErrorMessage (Some queryKey) e)
    /\ SQLocal.queriesInProgress (host p1) = SQLocal.queriesInProgress (host p)
    /\ SQLocal.settled (host p1) = SQLocal.settled (host p)).
  { rewrite (receive_query_dispatched _ _ _ _ _ p0 d Hdb).
    set (r := db_exec E d (sql statement) (params statement)) in *.
    set (p1 := set_db (Some (exec_db r))
                 (log (Call (Exec (sql statement) (params statement))) p0)).
    destruct (relay_in_process E (exec_invoked r) p1) as (p2 & Hrun & _ & _ & Hq & Hs).
    assert (Hexec : dbExec SQLocal.listener statement p0 = Thrown e p2).
    { rewrite (dbExec_connected _ _ p0 d Hdb). fold r p1.
      erewrite bind_normal by exact Hrun. by rewrite Hres. }
    set (response := ErrorMessage (Some queryKey) e).
    assert (Hdrop : SQLocal.processMessageEvent response (host p2) = (host p2, Some e)).
    { unfold SQLocal.processMessageEvent, SQLocal.pendingFor. simpl.
      destruct (negb (String.eqb queryKey "")); simpl; [|done].
      rewrite Hq. subst p1 p0. simpl. by rewrite Hfresh. }
    eexists. split.
    - erewrite try_thrown by (erewrite bind_thrown; [reflexivity|exact Hexec]).
      unfold emitMessage, SQLocal.listener. fold response. by rewrite Hdrop.
    - simpl. split; [|by rewrite Hs, Hq].
      unfold emissions. rewrite omap_app. simpl. by rewrite last_snoc. }
  destruct Hpost as (p1 & Hrun & Hlast & Hq & Hs).
  erewrite bind_thrown by (unfold SQLocal.post; by rewrite Hrun).
  by exists p1.
Qed.

(** X21. While an in-process processor has no connection, a request is
    put at the end of the processor's buffer and filed as pending:
    nothing is executed or emitted, nothing is settled, and the call
    returns the promise of the request. *)
Theorem in_process_request_before_load_waits request p :
  db p = None ->
  SQLocal.isDestroyed (host p) = false ->
  exists p',
    SQLocal.createQuery E nanoid fuel request (SQLocal.InProcess E p)
    = Normal (SQLocal.drawn (host p)) (SQLocal.InProcess E p')
    /\ queuedMessages p'
       = queuedMessages p
         ++ [SQLocal.withKey request (nanoid (SQLocal.drawn (host p)))]
    /\ SQLocal.queriesInProgress (host p')
       = <[nanoid (SQLocal.drawn (host p)) := SQLocal.drawn (host p)]>
           (SQLocal.queriesInProgress (host p))
    /\ trace p' = trace p
    /\ SQLocal.settled (host p') = SQLocal.settled (host p)
    /\ parked p' = parked p
    /\ db p' = None.
Proof.
  intros Hdb Hd. unfold SQLocal.createQuery. simpl. rewrite Hd.
  erewrite bind_normal by reflexivity.
  set (p0 := set_host (SQLocal.set_drawn (S (SQLocal.drawn (host p))) (host p)) p).
  change (SQLocal.update E _ (SQLocal.InProcess E p)) with (SQLocal.InProcess E p0).
  erewrite bind_normal.
  2:{ unfold SQLocal.post, receive.
      rewrite postMessage_buffers; [reflexivity|done|by destruct request]. }
  by eexists.
Qed.

(** X22. When the module has loaded and the connection opens, the query
    that waited in the buffer of an in-process processor is executed, its
    data message finds the pending entry, and the promise of the request
    is resolved with it: the entry is removed and the buffer ends
    empty. *)
Theorem in_process_request_is_settled_on_load
    p queryKey promise statement method fr rest p1 d1 d2 rows columns :
  parked p = fr :: rest ->
  queuedMessages p = [QueryMessage queryKey statement method] ->
  SQLocal.queriesInProgress (host p) !! queryKey = Some promise ->
  truthy (Some queryKey) = true ->
  loadAndConnect fr (set_parked rest p) = Normal tt p1 ->
  db p1 = Some d1 ->
  attachAll d1 (userFunctions p).*2 = Some d2 ->
  exec_result (db_exec E d2 (sql statement) (params statement)) = inr (rows, columns) ->
  2 <= fuel ->
  exists p',
    SQLocal.moduleSettles E fuel (SQLocal.InProcess E p)
    = Normal tt (SQLocal.InProcess E p')
    /\ SQLocal.settled (host p')
       = SQLocal.settled (host p)
         ++ [(promise,
              SQLocal.Resolved (DataMessage queryKey (shapeRows method rows) columns))]
    /\ SQLocal.queriesInProgress (host p')
       = delete queryKey (SQLocal.queriesInProgress (host p))
    /\ queuedMessages p' = []
    /\ parked p' = rest
    /\ is_Some (db p').
Proof.
  intros Hparked Hqueue Hpending Htruthy Hload Hdb1 Hattach Hres Hfuel.
  destruct fuel as [|[|n]]; [lia|lia|].
  destruct (loadAndConnect_returned _ _ _ Hload) as (_ & Hfns & Hq1 & _).
  simpl in Hfns, Hq1. rewrite <- Hfns in Hattach.
  assert (Hhost1 : host p1 = host p).
  { pose proof (Keeps_loadAndConnect None (fun q => host q = host p)
                  (host_fixed (host p)) fr (set_parked rest p) eq_refl) as Hk.
    by rewrite Hload in Hk. }
  assert (Hparked1 : parked p1 = rest).
  { unfold loadAndConnect in Hload.
    destruct (sqlite3InitModule E) as [e|module]; [done|].
    unfold bind, modify in Hload.
    pose proof (connect_outcome module fr (set_sqlite3 (Some module) (set_parked rest p)))
      as Hout.
    rewrite Hload in Hout. destruct Hout as (_ & Hset & _). by inversion Hset. }
  destruct (initFrom_attaches SQLocal.listener (flushQueue SQLocal.listener (S (S n)))
              _ _ _ _ _ Hload Hdb1 Hattach) as (p2 & Hinit & Hdb2 & Hset2 & Hhost2).
  assert (Hq2 : queuedMessages p2 = [QueryMessage queryKey statement method]).
  { rewrite <- Hqueue, <- Hq1. by inversion Hset2. }
  assert (Hparked2 : parked p2 = rest).
  { rewrite <- Hparked1. by inversion Hset2. }
  destruct (in_process_dispatch_settles (S n) queryKey promise statement method
              (set_queuedMessages [] p2) d2 rows columns)
    as (p3 & Hrun & Hs & Hq & Hset3 & Hdb3); [done|done|..|done|].
  { simpl. by rewrite Hhost2, Hhost1. }
  simpl in Hs, Hq. rewrite Hhost2, Hhost1 in Hs, Hq.
  assert (Hflush : flushQueue SQLocal.listener (S (S n)) p2 = Normal tt p3).
  { cbn [flushQueue]. rewrite Hq2.
    change (postMessage SQLocal.listener (flushQueue SQLocal.listener (S n)))
      with (receive SQLocal.listener (S n)).
    erewrite bind_normal by exact Hrun.
    cbn [flushQueue].
    replace (queuedMessages p3) with (@nil InputMessage); [done|].
    by inversion Hset3. }
  exists p3. split; [|split; [done|split; [done|split; [|split; [|done]]]]].
  - unfold SQLocal.moduleSettles, resume, moduleLoaded. rewrite Hparked.
    unfold detached, try_catch. by rewrite Hinit, Hflush.
  - by inversion Hset3.
  - rewrite <- Hparked2. by inversion Hset3.
Qed.
End InProcessFacts.

(** ** From [sql] to records, and the database file *)

Section RoundTrips.
Context {E : Engine} {H : Type} (step : OutputMessage -> H -> H).
Context (nanoid : nat -> QueryKey) (fuel : nat).

Lemma receive_query_data queryKey statement method (p : Processor E H) d rows columns :
  db p = Some d ->
  exec_result (db_exec E d (sql statement) (params statement)) = inr (rows, columns) ->
  exists p',
    receive (forwarding step) fuel (QueryMessage queryKey statement method) p
    = Normal tt p'
    /\ responses (trace p')
       = responses (trace p)
         ++ [DataMessage queryKey (shapeRows method rows) columns].
Proof.
  intros Hdb Hres. rewrite (receive_query _ _ _ _ _ _ _ Hdb).
  destruct (dbExec_forwarding step statement p d Hdb) as (p1 & Hrun & _ & Htr).
  rewrite Hres in Hrun.
  erewrite try_normal
    by (erewrite bind_normal; [apply emitMessage_forwarding|exact Hrun]).
  eexists. split; [reflexivity|].
  simpl. rewrite Htr, <- app_assoc.
  by rewrite !responses_app, responses_executing.
Qed.

(** X18. A call of [sql] over a worker, followed through: the template
    is posted as one ['all'] query with the fresh key; a connected
    processor answers it with one data message; delivered to the client,
    that message resolves the promise of the call; and [sql] returns one
    record per row of the engine result, each field holding the row's
    value at the last position of its column name, provided no column of
    the result is called ["__proto__"]. *)
Theorem sql_returns_the_records_of_the_result
    queryTemplate values c w (p : Processor E H) d rows columns :
  SQLocal.isDestroyed c = false ->
  SQLocal.listening w = true ->
  truthy (Some (nanoid (SQLocal.drawn c))) = true ->
  db p = Some d ->
  exec_result (db_exec E d (String.concat "?" queryTemplate) values)
  = inr (rows, columns) ->
  "__proto__" ∉ columns ->
  let request :=
    QueryMessage (nanoid (SQLocal.drawn c))
      (SQLocal.convertSqlTemplate queryTemplate values) All in
  exists w1 p' message s2 objects,
    SQLocal.sql E nanoid fuel queryTemplate values (SQLocal.OverWorker E c w)
    = Normal (SQLocal.drawn c)
        (SQLocal.OverWorker E
           (SQLocal.set_queriesInProgress
              (<[nanoid (SQLocal.drawn c) := SQLocal.drawn c]>
                 (SQLocal.queriesInProgress c))
              (SQLocal.set_drawn (S (SQLocal.drawn c)) c)) w1)
    /\ SQLocal.posted w1 = SQLocal.posted w ++ [request]
    /\ receive (forwarding step) fuel request p = Normal tt p'
    /\ responses (trace p') = responses (trace p) ++ [message]
    /\ SQLocal.deliver E message
         (SQLocal.OverWorker E
            (SQLocal.set_queriesInProgress
               (<[nanoid (SQLocal.drawn c) := SQLocal.drawn c]>
                  (SQLocal.queriesInProgress c))
               (SQLocal.set_drawn (S (SQLocal.drawn c)) c)) w1)
       = Normal tt s2
    /\ SQLocal.settled (SQLocal.client E s2)
       = SQLocal.settled c ++ [(SQLocal.drawn c, SQLocal.Resolved message)]
    /\ SQLocal.sql_then message = inr objects
    /\ length objects = length rows
    /\ forall i row,
         rows !! i = Some row ->
         exists rowObj,
           objects !! i = Some rowObj
           /\ SQLocal.prototype rowObj = SQLocal.ObjectPrototype
           /\ forall column,
                SQLocal.fields rowObj !! column = fieldOf row columns column.
Proof.
  intros Hd Hl Htruthy Hdb Hres Hnone request.
  destruct (receive_query_data (nanoid (SQLocal.drawn c))
              (SQLocal.convertSqlTemplate queryTemplate values) All p d rows columns
              Hdb Hres) as (p' & Hrun & Hresp).
  destruct (convertRowsToObjects_arrays columns rows) as (objects & Hconv & Hlen & Hlook).
  set (message := DataMessage (nanoid (SQLocal.drawn c)) (shapeRows All rows) columns).
  eexists _, p', message, _, objects.
  split; [|split; [|split; [exact Hrun|split; [exact Hresp|]]]].
  - unfold SQLocal.sql, SQLocal.exec, SQLocal.createQuery. simpl. rewrite Hd.
    reflexivity.
  - reflexivity.
  - unfold SQLocal.deliver. rewrite Hl.
    erewrite (processMessageEvent_routes message _ (nanoid (SQLocal.drawn c))
                (SQLocal.drawn c)); [|done|done|by simpl; rewrite lookup_insert_eq].
    split; [reflexivity|]. split; [done|]. split; [exact Hconv|]. split; [done|].
    intros i row Hrow. destruct (Hlook i row Hrow) as (rowObj & Hat & Hfield & Hproto).
    destruct (Hproto Hnone) as [Hown Hprototype].
    exists rowObj. split; [done|]. split; [done|].
    intros column. destruct (String.eqb_spec column "__proto__") as [->|Hcolumn];
      [|by apply Hfield].
    rewrite Hown. unfold fieldOf.
    by replace (lastIndexOf "__proto__" columns) with (@None nat)
      by (symmetry; by apply lastIndexOf_None).
Qed.
End RoundTrips.

Section FileFacts.
Context (E : Engine) (nanoid : nat -> QueryKey) (fuel : nat).

Lemma databasePath_processMessageEvent path m c :
  SQLocal.client_databasePath c = path ->
  SQLocal.client_databasePath (SQLocal.processMessageEvent m c).1 = path.
Proof.
  intros <-. by destruct (processMessageEvent_fields m c) as (_ & _ & Hpath).
Qed.

Lemma databasePath_createQuery request (s : SQLocal.State E) :
  match SQLocal.createQuery E nanoid fuel request s with
  | Normal _ s' | Thrown _ s' =>
      SQLocal.client_databasePath (SQLocal.client E s')
      = SQLocal.client_databasePath (SQLocal.client E s)
  | Exhausted => True
  end.
Proof.
  unfold SQLocal.createQuery.
  destruct (SQLocal.isDestroyed (SQLocal.client E s)); [done|].
  unfold bind at 1, modify at 1.
  set (s0 := SQLocal.update E _ s).
  set (path := SQLocal.client_databasePath (SQLocal.client E s)).
  assert (Hs0 : SQLocal.client_databasePath (SQLocal.client E s0) = path).
  { subst s0. by rewrite client_update. }
  pose proof (post_keeps E fuel (fun c => SQLocal.client_databasePath c = path)
                (SQLocal.withKey request
                   (nanoid (SQLocal.drawn (SQLocal.client E s)))) s0
                (databasePath_processMessageEvent path) Hs0) as Hpost.
  unfold bind at 1.
  destruct (SQLocal.post E fuel _ s0) as [[] s1|e s1|]; [|done|done].
  unfold bind, modify, ret. by rewrite client_update.
Qed.

Lemma databasePath_clientStep (s : SQLocal.State E) step :
  SQLocal.client_databasePath (SQLocal.client E (clientStep E nanoid fuel s step))
  = SQLocal.client_databasePath (SQLocal.client E s).
Proof.
  destruct step as [request|message| |functionName handler|]; simpl.
  - pose proof (databasePath_createQuery request s) as Hk.
    by destruct (SQLocal.createQuery E nanoid fuel request s).
  - destruct s as [c w|p]; simpl; [|done].
    destruct (SQLocal.listening w); [|done].
    pose proof (databasePath_processMessageEvent _ message c eq_refl) as Hk.
    by destruct (SQLocal.processMessageEvent message c) as [c' [e|]].
  - pose proof (moduleSettles_keeps E fuel
                  (fun c => SQLocal.client_databasePath c
                            = SQLocal.client_databasePath (SQLocal.client E s)) s
                  (databasePath_processMessageEvent _) eq_refl) as Hk.
    by destruct (SQLocal.moduleSettles E fuel s).
  - by destruct s.
  - by destruct s.
Qed.

(** X19. [new SQLocal(config)] picks the transport by the storage: an
    in-process processor for ['local'] and ['session'], a worker for a
    path and for every other configuration. Either way the only message
    posted is the config message; over a worker the client listens from
    the start, and an in-process processor begins to load the module with
    no connection, an empty buffer and nothing emitted. The client starts
    with no pending request and remembers the configured path. *)
Theorem constructor_posts_the_config config :
  exists s,
    SQLocal.constructor E fuel config = Normal tt s
    /\ SQLocal.client E s
       = SQLocal.newClient (databasePath (SQLocal.configOf config))
    /\ match s with
       | SQLocal.OverWorker _ c w =>
           SQLocal.usesProcessor config = false
           /\ SQLocal.posted w = [ConfigMessage (SQLocal.configOf config)]
           /\ SQLocal.listening w = true
       | SQLocal.InProcess _ p =>
           SQLocal.usesProcessor config = true
           /\ SQLocalProcessor.config p = SQLocal.configOf config
           /\ parked p = [frameOf (SQLocal.configOf config)]
           /\ db p = None
           /\ queuedMessages p = []
           /\ emissions (trace p) = []
       end.
Proof. apply constructor_runs. Qed.

(** X20. Whatever a client does and receives after its construction,
    [getDatabaseFile] and [overwriteDatabaseFile] go by the path the
    constructor was given: without one they throw their own errors
    before touching the file system, with one they read or replace the
    file of that name, also after the client has been destroyed. *)
Theorem file_access_follows_the_configured_path
    {File Chunk : Type} (readFile : string -> JsError + File)
    (replaceFile : string -> Chunk -> option JsError) databaseFile config steps :
  exists s0,
    SQLocal.constructor E fuel config = Normal tt s0
    /\ SQLocal.getDatabaseFile readFile
         (SQLocal.client E (foldl (clientStep E nanoid fuel) s0 steps))
       = match databasePath (SQLocal.configOf config) with
         | None => inl SQLocal.noFileToRetrieve
         | Some path => readFile path
         end
    /\ SQLocal.overwriteDatabaseFile replaceFile databaseFile
         (SQLocal.client E (foldl (clientStep E nanoid fuel) s0 steps))
       = match databasePath (SQLocal.configOf config) with
         | None => Some SQLocal.noFileToOverwrite
         | Some path => replaceFile path databaseFile
         end.
Proof.
  destruct (constructor_runs E fuel config) as (s0 & Hrun & Hclient & _).
  exists s0. split; [done|].
  assert (Hpath : SQLocal.client_databasePath
                    (SQLocal.client E (foldl (clientStep E nanoid fuel) s0 steps))
                  = databasePath (SQLocal.configOf config)).
  { transitivity (SQLocal.client_databasePath (SQLocal.client E s0));
      [|by rewrite Hclient].
    clear. revert s0. induction steps as [|step steps IH]; intros s0; [done|].
    simpl. rewrite IH. apply databasePath_clientStep. }
  unfold SQLocal.getDatabaseFile, SQLocal.overwriteDatabaseFile. by rewrite Hpath.
Qed.
End FileFacts.

(** ** Runs for the statements about the client *)

Lemma new_request_replaces_no_pending_one_witness :
  let w := {| SQLocal.posted := []; SQLocal.listening := true;
              SQLocal.terminated := false |} in
  exists s',
    SQLocal.createQuery Toy.sqlite keys 1 SQLocal.DestroyRequest
      (SQLocal.OverWorker Toy.sqlite (SQLocal.newClient None) w)
    = Normal 0 s'
    /\ SQLocal.queriesInProgress (SQLocal.client Toy.sqlite s') = {[ "q0" := 0 ]}.
Proof.
  intros w.
  destruct (new_request_replaces_no_pending_one Toy.sqlite keys 1
              SQLocal.DestroyRequest (SQLocal.newClient None) w keys_inj)
    as (s' & Hrun & _ & Hmap & _).
  - unfold Sound. simpl. split; [constructor|]. split.
    + intros promise Hin. by apply elem_of_nil in Hin.
    + intros queryKey promise Hk. by rewrite lookup_empty in Hk.
  - reflexivity.
  - exists s'. split; [exact Hrun|]. rewrite Hmap. reflexivity.
Defined.

Lemma response_over_worker_settles_its_request_witness :
  let w := {| SQLocal.posted := []; SQLocal.listening := true;
              SQLocal.terminated := false |} in
  exists s1 s2,
    SQLocal.createQuery Toy.sqlite keys 1 (SQLocal.TransactionRequest [insertApples])
      (SQLocal.OverWorker Toy.sqlite (SQLocal.newClient None) w)
    = Normal 0 s1
    /\ SQLocal.deliver Toy.sqlite (ErrorMessage (Some "q0") Toy.syntaxError) s1
       = Normal tt s2
    /\ SQLocal.settled (SQLocal.client Toy.sqlite s2)
       = [(0, SQLocal.Rejected Toy.syntaxError)].
Proof.
  intros w.
  destruct (response_over_worker_settles_its_request Toy.sqlite keys 1
              (SQLocal.TransactionRequest [insertApples]) (SQLocal.newClient None) w
              (ErrorMessage (Some "q0") Toy.syntaxError)
              eq_refl eq_refl eq_refl eq_refl)
    as (s1 & s2 & Hrun & _ & Hdeliver & Hsettled & _).
  exists s1, s2. split; [exact Hrun|]. split; [exact Hdeliver|]. exact Hsettled.
Defined.

Lemma in_process_failure_is_thrown_witness :
  db (localProcessor 1) = Some Toy.fresh
  /\ exists p',
      SQLocal.createQuery Toy.sqlite keys 1 (SQLocal.QueryRequest insertLettuce All)
        (SQLocal.InProcess Toy.sqlite (localProcessor 1))
      = Thrown Toy.syntaxError (SQLocal.InProcess Toy.sqlite p')
      /\ SQLocal.queriesInProgress (host p') = ∅
      /\ SQLocal.settled (host p') = [].
Proof.
  split; [reflexivity|].
  destruct (in_process_failure_is_thrown Toy.sqlite keys 1 (localProcessor 1)
              Toy.fresh insertLettuce All Toy.syntaxError
              eq_refl eq_refl eq_refl eq_refl) as (p' & Hrun & _ & Hq & Hs).
  exists p'. split; [exact Hrun|]. split; [exact Hq|exact Hs].
Defined.

Lemma template_has_one_placeholder_per_value_witness :
  occurrences questionMark
    (sql (SQLocal.convertSqlTemplate
            ["SELECT name FROM groceries WHERE id = "; " AND name = "; ""]
            [JsNum 1; JsStr "apples"]))
  = 2.
Proof.
  destruct (template_has_one_placeholder_per_value
              ["SELECT name FROM groceries WHERE id = "; " AND name = "; ""]
              [JsNum 1; JsStr "apples"] eq_refl) as [Hcount _].
  - by repeat constructor.
  - exact Hcount.
Defined.

Lemma sql_returns_the_records_of_the_result_witness :
  let w := {| SQLocal.posted := []; SQLocal.listening := true;
              SQLocal.terminated := false |} in
  let stocked :=
    stateOf readyProcessor
      (receive worker 0 (QueryMessage "k0" insertApples Run) readyProcessor) in
  let d := {| Toy.applied := [sql insertApples]; Toy.snapshot := None;
              Toy.attached := [] |} in
  db stocked = Some d
  /\ exists objects,
      SQLocal.sql_then (DataMessage "q0" (JsArr [JsArr [JsStr (sql insertApples)]]) ["name"])
      = inr objects
      /\ length objects = 1.
Proof.
  intros w stocked d. split; [reflexivity|].
  destruct (sql_returns_the_records_of_the_result (E:=Toy.sqlite) (fun _ _ => tt)
              keys 1 ["SELECT"] [] (SQLocal.newClient None) w stocked d
              [[JsStr (sql insertApples)]] ["name"]
              eq_refl eq_refl eq_refl eq_refl eq_refl)
    as (w1 & p' & message & s2 & objects & _ & _ & Hrun & Hresp & _ & _ & Hthen & Hlen & _).
  { intros Hin. apply list_elem_of_singleton in Hin. discriminate. }
  assert (Hmessage : message
                     = DataMessage "q0" (JsArr [JsArr [JsStr (sql insertApples)]]) ["name"]).
  { destruct (receive worker 1
                (QueryMessage (keys 0) (SQLocal.convertSqlTemplate ["SELECT"] []) All)
                stocked) as [[] q|e q|] eqn:Hq; [|done|done].
    injection Hrun as <-. vm_compute in Hq. injection Hq as <-.
    vm_compute in Hresp. by injection Hresp as <-. }
  exists objects. rewrite <- Hmessage. by split.
Defined.

Lemma in_process_request_before_load_waits_witness :
  exists p',
    SQLocal.createQuery Toy.sqlite keys 1 (SQLocal.QueryRequest insertApples Run)
      (SQLocal.InProcess Toy.sqlite (newProcessor Toy.sqlite (SQLocal.newClient None)))
    = Normal 0 (SQLocal.InProcess Toy.sqlite p')
    /\ queuedMessages p' = [QueryMessage "q0" insertApples Run]
    /\ trace p' = [].
Proof.
  destruct (in_process_request_before_load_waits Toy.sqlite keys 1
              (SQLocal.QueryRequest insertApples Run)
              (newProcessor Toy.sqlite (SQLocal.newClient None)) eq_refl eq_refl)
    as (p' & Hrun & Hqueue & _ & Htrace & _).
  exists p'. split; [exact Hrun|]. split; [exact Hqueue|exact Htrace].
Defined.

Lemma in_process_request_is_settled_on_load_witness :
  let waiting :=
    match SQLocal.constructor Toy.sqlite 2 (inr localConfig) with
    | Normal _ s =>
        localProcessorOf
          (stateOf s (SQLocal.createQuery Toy.sqlite keys 2
                        (SQLocal.QueryRequest {| sql := "SELECT"; params := [] |} All) s))
    | _ => newProcessor Toy.sqlite (SQLocal.newClient None)
    end in
  queuedMessages waiting = [select "q0" All]
  /\ exists p',
      SQLocal.moduleSettles Toy.sqlite 2 (SQLocal.InProcess Toy.sqlite waiting)
      = Normal tt (SQLocal.InProcess Toy.sqlite p')
      /\ SQLocal.settled (host p')
         = [(0, SQLocal.Resolved (DataMessage "q0" (JsArr []) ["name"]))]
      /\ queuedMessages p' = [].
Proof.
  intros waiting. split; [reflexivity|].
  destruct (in_process_request_is_settled_on_load Toy.sqlite 2 waiting "q0" 0
              {| sql := "SELECT"; params := [] |} All (frameOf localConfig) []
              (stateOf waiting (loadAndConnect (frameOf localConfig) (set_parked [] waiting)))
              Toy.fresh Toy.fresh [] ["name"]
              eq_refl eq_refl eq_refl eq_refl eq_refl eq_refl eq_refl eq_refl)
    as (p' & Hrun & Hsettled & _ & Hqueue & _); [lia|].
  exists p'. split; [exact Hrun|]. split; [exact Hsettled|exact Hqueue].
Defined.

Lemma rows_become_records_witness :
  exists objects,
    SQLocal.convertRowsToObjects
      [JsArr [JsNum 1; JsStr "apples"; JsNum 7]; JsArr [JsNum 2]] ["id"; "name"; "id"]
    = inr objects
    /\ length objects = 2.
Proof.
  destruct (rows_become_records [[JsNum 1; JsStr "apples"; JsNum 7]; [JsNum 2]]
              ["id"; "name"; "id"]) as (objects & Hrun & Hlen & _).
  - intros Hin.
    repeat (apply elem_of_cons in Hin as [Hin|Hin]; [discriminate|]).
    by apply elem_of_nil in Hin.
  - exists objects. split; [exact Hrun|exact Hlen].
Defined.
